(** * Zoomsaic: the mosaic assembly engine of [MosaicGenerator]

    A shallow embedding of the colour matcher, the tile-assignment loop, the
    two compositors, the tile cache (CSV) reader and writer, the grid planner
    and the zoom sequence controller of [MosaicGenerator], followed by the
    properties the specification states about them.

    Conventions of the embedding.
    - A JavaScript number that the engine handles as an integer is an [Int z];
      [NaN] is kept because [parseInt] and reads past the end of a buffer
      produce it.  Integer arithmetic on doubles is exact below [2^53], which
      is the range the engine works in (colour bytes, tile counts).
    - Numbers that the source divides ([outputWidth / tileSize], the aspect
      ratio, [1 / zoomFactor]) are exact rationals [Q]; the rounding error of
      doubles is not modelled.
    - A JavaScript string is a [string] of code units below 256.
    - [this.corruptedTiles] is a [gset string]; [usedTiles], a JavaScript
      [Set] of tile objects compared by reference, is a [gset nat] of heap
      references.
    - A thrown [Error] is the [Throw] result, carrying the message. *)

From Stdlib Require Import ZArith QArith Qround Qpower Lia List String Ascii Bool.
From stdpp Require Import base gmap sets strings list sorting.

Local Open Scope Z_scope.

(** ** JavaScript values *)

Inductive num : Type :=
| Int (z : Z)
| NaN.

Definition num_lift2 (f : Z -> Z -> Z) (a b : num) : num :=
  match a, b with
  | Int x, Int y => Int (f x y)
  | _, _ => NaN
  end.

Definition num_sub : num -> num -> num := num_lift2 Z.sub.
Definition num_mul : num -> num -> num := num_lift2 Z.mul.
Definition num_add : num -> num -> num := num_lift2 Z.add.

(** [a < b] on numbers: false as soon as one side is [NaN]. *)
Definition num_ltb (a b : num) : bool :=
  match a, b with
  | Int x, Int y => x <? y
  | _, _ => false
  end.

(** A synchronous call either returns or throws an [Error] with a message. *)
Inductive result (A : Type) : Type :=
| Ok (a : A)
| Throw (msg : string).
Arguments Ok {A} a.
Arguments Throw {A} msg.

(** ** Data model *)

(** [{ r, g, b }] *)
Record Color : Type := mkColor { r : num; g : num; b : num }.

(** [{ r, g, b, path }]: a colour with a path, so that a tile can stand
    wherever the source reads [.r], [.g] or [.b]. *)
Record TileRecord : Type := mkTile { path : string; rgb :> Color }.

(** A tile object on the heap.  [usedTiles.has(tile)] compares references,
    not fields, so the reference is part of the model. *)
Record TileObj : Type := mkObj { ref : nat; fields :> TileRecord }.

(** Array creation: every record becomes a fresh object, [ref] counting up
    from [next]. *)
Fixpoint allocTiles (next : nat) (records : list TileRecord) : list TileObj :=
  match records with
  | [] => []
  | t :: rest => mkObj next t :: allocTiles (S next) rest
  end.

(** [defaultTileSize], [defaultOutputWidth], [defaultZoomSteps] *)
Definition defaultTileSize : Z := 6.
Definition defaultOutputWidth : Z := 1200.
Definition defaultZoomSteps : Z := 8.

(** The fields of a [MosaicGenerator] object.  The three [last...] fields are
    [undefined] until [generateMosaic] has stored a tile pattern. *)
Record MosaicGenerator : Type := mkGenerator {
  tileCache : gmap string TileRecord;
  tileSize : Z;
  corruptedTiles : gset string;
  lastTilePattern : option (list (list string));
  lastMosaicWidth : option Z;
  lastMosaicHeight : option Z
}.

(** [new MosaicGenerator()] *)
Definition newMosaicGenerator : MosaicGenerator :=
  {| tileCache := ∅;
     tileSize := defaultTileSize;
     corruptedTiles := ∅;
     lastTilePattern := None;
     lastMosaicWidth := None;
     lastMosaicHeight := None |}.

(** A generator whose corrupted set is [paths], otherwise fresh. *)
Definition withCorrupted (paths : gset string) : MosaicGenerator :=
  {| tileCache := ∅;
     tileSize := defaultTileSize;
     corruptedTiles := paths;
     lastTilePattern := None;
     lastMosaicWidth := None;
     lastMosaicHeight := None |}.

(** [this.corruptedTiles.add(path)] *)
Definition addCorrupted (tilePath : string) (this : MosaicGenerator)
  : MosaicGenerator :=
  {| tileCache := tileCache this;
     tileSize := tileSize this;
     corruptedTiles := {[tilePath]} ∪ corruptedTiles this;
     lastTilePattern := lastTilePattern this;
     lastMosaicWidth := lastMosaicWidth this;
     lastMosaicHeight := lastMosaicHeight this |}.

(** ** Color Matcher *)

(** [colorDistanceSq(color1, color2)] *)
Definition colorDistanceSq (color1 color2 : Color) : num :=
  let dr := num_sub (r color1) (r color2) in
  let dg := num_sub (g color1) (g color2) in
  let db := num_sub (b color1) (b color2) in
  num_add (num_add (num_mul dr dr) (num_mul dg dg)) (num_mul db db).

(** [tiles.filter((tile) => !this.corruptedTiles.has(tile.path))] *)
Definition validTiles (this : MosaicGenerator) (tiles : list TileObj)
  : list TileObj :=
  List.filter
    (fun tile : TileObj => negb (bool_decide (path tile ∈ corruptedTiles this)))
    tiles.

(** The [for (let i = 1; ...)] loop of [findBestTile], over the elements
    after the first. *)
Fixpoint scanBest (targetColor : Color) (bestTile : TileObj)
  (bestDistance : num) (rest : list TileObj) : TileObj :=
  match rest with
  | [] => bestTile
  | tile :: rest' =>
      let distance := colorDistanceSq targetColor tile in
      if num_ltb distance bestDistance
      then scanBest targetColor tile distance rest'
      else scanBest targetColor bestTile bestDistance rest'
  end.

Definition noValidTilesMsg : string :=
  "No valid tiles available - all tiles are corrupted".

(** [findBestTile(targetColor, tiles)] *)
Definition findBestTile (this : MosaicGenerator) (targetColor : Color)
  (tiles : list TileObj) : result TileObj :=
  match validTiles this tiles with
  | [] => Throw noValidTilesMsg
  | first :: rest =>
      Ok (scanBest targetColor first (colorDistanceSq targetColor first) rest)
  end.

(** Integer colours: every channel is an integer, as for every colour the
    engine computes from pixel bytes. *)
Definition intColor (c : Color) : Prop :=
  exists x y z, c = mkColor (Int x) (Int y) (Int z).

(** Squared distance of integer channels, for stating minimality in [Z]. *)
Definition chan (n : num) : Z := match n with Int z => z | NaN => 0 end.

Definition distZ (c1 c2 : Color) : Z :=
  (chan (r c1) - chan (r c2)) * (chan (r c1) - chan (r c2))
  + (chan (g c1) - chan (g c2)) * (chan (g c1) - chan (g c2))
  + (chan (b c1) - chan (b c2)) * (chan (b c1) - chan (b c2)).

Definition rgbColor (x y z : Z) : Color := mkColor (Int x) (Int y) (Int z).

Definition tileAt (n : nat) (p : string) (x y z : Z) : TileObj :=
  mkObj n (mkTile p (rgbColor x y z)).

(** ** State and exceptions

    A method that updates state and may throw is a function from the state
    before the call to the outcome and the state after it; what was written
    before a [throw] stays written. *)

Definition M (S A : Type) : Type := S -> result A * S.

Definition ret {S A : Type} (a : A) : M S A := fun s => (Ok a, s).

Definition throw {S A : Type} (msg : string) : M S A := fun s => (Throw msg, s).

Definition bind {S A B : Type} (c : M S A) (k : A -> M S B) : M S B :=
  fun s =>
    match c s with
    | (Ok a, s') => k a s'
    | (Throw msg, s') => (Throw msg, s')
    end.

Definition get {S : Type} : M S S := fun s => (Ok s, s).

Definition modify {S : Type} (f : S -> S) : M S unit := fun s => (Ok tt, f s).

Notation "'let*' x := c 'in' k" := (bind c (fun x => k))
  (at level 10, x name, c at level 100, k at level 200).
Notation "'exec' c 'in' k" := (bind c (fun _ => k))
  (at level 10, c at level 100, k at level 200).

(** [for (const i of xs) { out.push(await body(i)) }] *)
Fixpoint forPush {S A : Type} (xs : list Z) (body : Z -> M S A) : M S (list A) :=
  match xs with
  | [] => ret []
  | i :: rest =>
      let* a := body i in
      let* out := forPush rest body in
      ret (a :: out)
  end.

(** The indices of [for (let i = 0; i < n; i++)]. *)
Definition upto (n : Z) : list Z := map Z.of_nat (seq 0 (Z.to_nat n)).

(** [buffer[i]]: a byte, or [undefined] outside the buffer.  The engine only
    subtracts what it reads here, and [undefined - x] is [NaN]. *)
Definition readByte (data : list Z) (i : Z) : num :=
  if i <? 0 then NaN
  else match nth_error data (Z.to_nat i) with
       | Some v => Int v
       | None => NaN
       end.

(** The target colour of cell [(x, y)]: the pixel of the input image resized
    to the grid. *)
Definition targetColorAt (inputData : list Z) (finalMosaicWidth y x : Z) : Color :=
  let pixelIndex := (y * finalMosaicWidth + x) * 3 in
  {| r := readByte inputData pixelIndex;
     g := readByte inputData (pixelIndex + 1);
     b := readByte inputData (pixelIndex + 2) |}.

(** ** Tile assignment ([generateMosaic], the "Generate mosaic tile by tile"
    loop).  The state of the loop is [usedTiles]. *)

(** The candidates of one cell. *)
Definition availableTilesFor (allowReuse : bool) (tiles : list TileObj)
  (usedTiles : gset nat) : list TileObj :=
  if allowReuse then tiles
  else
    let availableTiles :=
      List.filter (fun tile : TileObj => negb (bool_decide (ref tile ∈ usedTiles)))
        tiles in
    match availableTiles with
    | [] => tiles (* Fallback to all tiles if we run out *)
    | _ => availableTiles
    end.

Definition assignCell (this : MosaicGenerator) (allowReuse : bool)
  (tiles : list TileObj) (inputData : list Z) (finalMosaicWidth y x : Z)
  : M (gset nat) string :=
  let targetColor := targetColorAt inputData finalMosaicWidth y x in
  let* usedTiles := get in
  let availableTiles := availableTilesFor allowReuse tiles usedTiles in
  match findBestTile this targetColor availableTiles with
  | Throw msg => throw msg
  | Ok bestTile =>
      exec (if allowReuse then ret tt
            else modify (fun used : gset nat => {[ref bestTile]} ∪ used)) in
      ret (path bestTile)
  end.

(** The two nested loops; the result is [tileImages], the tile pattern. *)
Definition assignTiles (this : MosaicGenerator) (allowReuse : bool)
  (tiles : list TileObj) (inputData : list Z)
  (finalMosaicWidth finalMosaicHeight : Z) : M (gset nat) (list (list string)) :=
  forPush (upto finalMosaicHeight) (fun y =>
    forPush (upto finalMosaicWidth) (fun x =>
      assignCell this allowReuse tiles inputData finalMosaicWidth y x)).

(** [const usedTiles = new Set()] and then the loops. *)
Definition tileImages (this : MosaicGenerator) (allowReuse : bool)
  (tiles : list TileObj) (inputData : list Z)
  (finalMosaicWidth finalMosaicHeight : Z) : result (list (list string)) :=
  fst (assignTiles this allowReuse tiles inputData
         finalMosaicWidth finalMosaicHeight ∅).

(** ** Numbers with a fraction

    [Math.round] rounds to the nearest integer, a tie going up. *)
Definition Math_round (q : Q) : Z := Qfloor (q + (1 # 2))%Q.

(** [a || b] and [a ? b : c] on an optional number: [null], [undefined] and
    [NaN] (all [None] here) and [0] are falsy. *)
Definition truthy (v : option Z) : bool :=
  match v with
  | Some z => negb (z =? 0)
  | None => false
  end.

Definition orElse (v : option Z) (other : Z) : Z :=
  match v with
  | Some z => if z =? 0 then other else z
  | None => other
  end.

(** ** Grid Planner ([generateMosaic], the two "mosaic dimensions" blocks) *)

(** The options of [generateMosaic] after destructuring with defaults. *)
Record MosaicOptions : Type := mkOptions {
  outputWidth : Z;
  outputHeight : option Z;
  mosaicWidth : option Z;
  mosaicHeight : option Z;
  optTileSize : Z;
  allowReuse : bool
}.

(** [{ width, height }] of [sharp(inputImagePath).metadata()] *)
Record Metadata : Type := mkMetadata { metaWidth : Z; metaHeight : Z }.

Definition finalMosaicWidthOf (options : MosaicOptions) : Z :=
  let computedMosaicWidth :=
    orElse (mosaicWidth options)
      (Math_round (inject_Z (outputWidth options) / inject_Z (optTileSize options))) in
  computedMosaicWidth.

Definition finalMosaicHeightOf (options : MosaicOptions)
  (inputMetadata : Metadata) (finalMosaicWidth : Z) : Z :=
  let aspectRatio :=
    (inject_Z (metaHeight inputMetadata) / inject_Z (metaWidth inputMetadata))%Q in
  let computedMosaicHeight :=
    if truthy (outputHeight options)
    then Math_round (inject_Z (orElse (outputHeight options) 0)
                     / inject_Z (optTileSize options))
    else Math_round (inject_Z finalMosaicWidth * aspectRatio) in
  orElse (mosaicHeight options) computedMosaicHeight.

(** ** Frame Compositor *)

(** What a compositing pass runs in: the generator object and the number of
    calls made to the image codec so far. *)
Record Run : Type := mkRun { self : MosaicGenerator; sharpCalls : nat }.

(** A raw RGB raster handed to the encoder. *)
Record Raster : Type := mkRaster {
  rasterWidth : Z;
  rasterHeight : Z;
  rasterData : list Z
}.

(** The object [generateMosaic] returns ([corruptedTiles] there is the size of
    the corrupted set, [corruptedCount] here). *)
Record MosaicResult : Type := mkResult {
  width : Z;
  height : Z;
  tilesUsed : Z;
  availableTiles : Z;
  corruptedCount : Z
}.

(** What [generateMosaicWithTilePattern] returns: the result of
    [generateMosaic] spread, with [tilePattern], [mosaicWidth] and
    [mosaicHeight] ([patternWidth], [patternHeight] here). *)
Record MosaicWithPattern : Type := mkWithPattern {
  mosaicResult : MosaicResult;
  tilePattern : option (list (list string));
  patternWidth : option Z;
  patternHeight : option Z
}.

(** [try { c } catch (error) { handler }] *)
Definition tryCatch {S A : Type} (c : M S A) (handler : string -> M S A) : M S A :=
  fun s =>
    match c s with
    | (Ok a, s') => (Ok a, s')
    | (Throw msg, s') => handler msg s'
    end.

(** [pattern[y][x]].  The compositors walk a pattern of exactly the height
    and width they loop over, so the default is not read. *)
Definition patternAt (pattern : list (list string)) (y x : Z) : string :=
  nth (Z.to_nat x) (nth (Z.to_nat y) pattern []) ""%string.

(** Copying one tile into the row buffer: the [ty], [tx] loops.  A [Buffer]
    ignores a write outside it and stores 0 for [undefined]. *)
Definition copyPixel (rowWidth size x : Z) (tileBuffer : list Z)
  (rowBuffer : list Z) (ty tx : Z) : list Z :=
  let srcOffset := Z.to_nat ((ty * size + tx) * 3) in
  let dstOffset := Z.to_nat ((ty * rowWidth + (x * size + tx)) * 3) in
  let at_ (i : nat) := default 0 (tileBuffer !! i) in
  <[(dstOffset + 2)%nat := at_ (srcOffset + 2)%nat]>
    (<[(dstOffset + 1)%nat := at_ (srcOffset + 1)%nat]>
       (<[dstOffset := at_ srcOffset]> rowBuffer)).

Definition copyTile (rowWidth size : Z) (rowBuffer : list Z)
  (x : Z) (tileBuffer : list Z) : list Z :=
  fold_left
    (fun buf ty =>
       fold_left (fun buf' tx => copyPixel rowWidth size x tileBuffer buf' ty tx)
         (upto size) buf)
    (upto size) rowBuffer.

(** "Combine tiles horizontally to create a row" *)
Definition combineRow (columns size : Z) (tileBuffers : list (list Z)) : list Z :=
  let rowWidth := columns * size in
  let rowHeight := size in
  let rowBuffer := repeat 0 (Z.to_nat (rowWidth * rowHeight * 3)) in
  fold_left
    (fun buf x => copyTile rowWidth size buf x (nth (Z.to_nat x) tileBuffers []))
    (upto columns) rowBuffer.

Definition noReplacementMsg : string :=
  "No valid tiles remaining after filtering corrupted tiles".

Definition noTileImagesMsg : string :=
  "No valid tile images could be processed".

(** The crop of [image.extract] *)
Record Crop : Type := mkCrop {
  cropLeft : Z;
  cropTop : Z;
  cropWidth : Z;
  cropHeight : Z
}.

(** "Get available tiles excluding corrupted ones" and the replacement chosen
    among them, in the [catch] of the base compositor. *)
Definition findReplacement (this : MosaicGenerator) (tiles : list TileObj)
  (targetColor : Color) : result TileObj :=
  let availableTiles := validTiles this tiles in
  match availableTiles with
  | [] => Throw noReplacementMsg
  | _ => findBestTile this targetColor availableTiles
  end.

Section Compositor.

(** The image codec, a collaborator:
    [await sharp(path).resize(size, size).raw().toBuffer()].  The outcome
    of call number [n] on [path] at [size] is [sharpRaw n path size], the
    raw RGB bytes or the error thrown; calls are numbered, so that a tile
    may load at one moment and fail at another. *)
Variable sharpRaw : nat -> string -> Z -> result (list Z).

(** [sharp(inputImagePath).resize(w, h).raw().toBuffer()] on the input. *)
Variable resizeInput : Z -> Z -> list Z.

Definition loadTile (tilePath : string) (size : Z) : M Run (list Z) :=
  fun run =>
    (sharpRaw (sharpCalls run) tilePath size,
     {| self := self run; sharpCalls := S (sharpCalls run) |}).

Definition markCorrupted (tilePath : string) : M Run unit :=
  modify (fun run =>
    {| self := addCorrupted tilePath (self run); sharpCalls := sharpCalls run |}).

(** The base compositor's [try]/[catch] for one cell. *)
Definition compositeCell (tiles : list TileObj) (inputData : list Z)
  (finalMosaicWidth size : Z) (tilePath : string) (y x : Z) : M Run (list Z) :=
  tryCatch (loadTile tilePath size) (fun _ =>
    (* Mark this tile as corrupted for future avoidance *)
    exec markCorrupted tilePath in
    (* Find a replacement tile on the fly *)
    let targetColor := targetColorAt inputData finalMosaicWidth y x in
    let* run := get in
    match findReplacement (self run) tiles targetColor with
    | Throw msg => throw msg
    | Ok replacementTile => loadTile (path replacementTile) size
    end).

(** The zoom compositor's [try]/[catch] for one cell: "using solid gray". *)
Definition zoomCell (newTileSize : Z) (tilePath : string) : M Run (list Z) :=
  tryCatch (loadTile tilePath newTileSize) (fun _ =>
    let fallbackBuffer := repeat 128 (Z.to_nat (newTileSize * newTileSize * 3)) in
    ret fallbackBuffer).

(** [generateMosaic] from the point where [tiles] is known: the check that
    there are tiles, the grid, the tile pattern, the compositing.  The
    raster is what is written to [outputPath]. *)
Definition generateMosaic (tiles : list TileObj) (inputMetadata : Metadata)
  (options : MosaicOptions) : M Run (MosaicResult * Raster) :=
  let tsize := optTileSize options in
  let finalMosaicWidth := finalMosaicWidthOf options in
  exec modify (fun run =>
    {| self := {| tileCache := tileCache (self run);
                  tileSize := tsize;
                  corruptedTiles := corruptedTiles (self run);
                  lastTilePattern := lastTilePattern (self run);
                  lastMosaicWidth := lastMosaicWidth (self run);
                  lastMosaicHeight := lastMosaicHeight (self run) |};
       sharpCalls := sharpCalls run |}) in
  match tiles with
  | [] => throw noTileImagesMsg
  | _ =>
      let finalMosaicHeight :=
        finalMosaicHeightOf options inputMetadata finalMosaicWidth in
      let inputData := resizeInput finalMosaicWidth finalMosaicHeight in
      let* run := get in
      match tileImages (self run) (allowReuse options) tiles inputData
              finalMosaicWidth finalMosaicHeight with
      | Throw msg => throw msg
      | Ok pattern =>
          (* Store tile pattern for zoom operations *)
          exec modify (fun run =>
            {| self := {| tileCache := tileCache (self run);
                          tileSize := tileSize (self run);
                          corruptedTiles := corruptedTiles (self run);
                          lastTilePattern := Some pattern;
                          lastMosaicWidth := Some finalMosaicWidth;
                          lastMosaicHeight := Some finalMosaicHeight |};
               sharpCalls := sharpCalls run |}) in
          let finalWidth := finalMosaicWidth * tsize in
          let finalHeight := finalMosaicHeight * tsize in
          let* rowBuffers :=
            forPush (upto finalMosaicHeight) (fun y =>
              let* tileBuffers :=
                forPush (upto finalMosaicWidth) (fun x =>
                  compositeCell tiles inputData finalMosaicWidth tsize
                    (patternAt pattern y x) y x) in
              ret (combineRow finalMosaicWidth tsize tileBuffers)) in
          let finalBuffer := concat rowBuffers in
          let* run' := get in
          ret ({| width := finalWidth;
                  height := finalHeight;
                  tilesUsed := finalMosaicWidth * finalMosaicHeight;
                  availableTiles := Z.of_nat (length tiles);
                  corruptedCount := Z.of_nat (size (corruptedTiles (self run'))) |},
               {| rasterWidth := finalWidth;
                  rasterHeight := finalHeight;
                  rasterData := finalBuffer |})
      end
  end.

(** [generateMosaicWithTilePattern]: the result of [generateMosaic] with
    the three [last...] fields of the generator. *)
Definition generateMosaicWithTilePattern (tiles : list TileObj)
  (inputMetadata : Metadata) (options : MosaicOptions)
  : M Run MosaicWithPattern :=
  let* result := generateMosaic tiles inputMetadata options in
  let* run := get in
  ret {| mosaicResult := fst result;
         tilePattern := lastTilePattern (self run);
         patternWidth := lastMosaicWidth (self run);
         patternHeight := lastMosaicHeight (self run) |}.

(** [generateZoomedMosaicFromPattern]: the full raster and the crop applied
    to it before it is written (no crop when the raster is not larger than
    the target). *)
Definition generateZoomedMosaicFromPattern (pattern : list (list string))
  (columns rows newTileSize targetWidth targetHeight : Z)
  : M Run (Raster * option Crop) :=
  let fullWidth := columns * newTileSize in
  let fullHeight := rows * newTileSize in
  let* rowBuffers :=
    forPush (upto rows) (fun y =>
      let* tileBuffers :=
        forPush (upto columns) (fun x =>
          zoomCell newTileSize (patternAt pattern y x)) in
      ret (combineRow columns newTileSize tileBuffers)) in
  let finalBuffer := concat rowBuffers in
  let image := {| rasterWidth := fullWidth;
                  rasterHeight := fullHeight;
                  rasterData := finalBuffer |} in
  if (targetWidth <? fullWidth) || (targetHeight <? fullHeight)
  then
    let left := Math_round (inject_Z (fullWidth - targetWidth) / 2) in
    let top := Math_round (inject_Z (fullHeight - targetHeight) / 2) in
    ret (image,
         Some {| cropLeft := Z.max 0 left;
                 cropTop := Z.max 0 top;
                 cropWidth := Z.min targetWidth fullWidth;
                 cropHeight := Z.min targetHeight fullHeight |})
  else ret (image, None).

End Compositor.

(** ** Strings *)

(** White space and line terminators below 256, what [trim] and [parseInt]
    strip: TAB, LF, VT, FF, CR, SP, NBSP. *)
Definition isWhiteSpace (c : ascii) : bool :=
  let n := N_of_ascii c in
  ((9 <=? n) && (n <=? 13) || (n =? 32) || (n =? 160))%N.

Fixpoint trimStart (s : string) : string :=
  match s with
  | EmptyString => EmptyString
  | String c rest => if isWhiteSpace c then trimStart rest else s
  end.

Fixpoint trimEnd (s : string) : string :=
  match s with
  | EmptyString => EmptyString
  | String c rest =>
      match trimEnd rest with
      | EmptyString => if isWhiteSpace c then EmptyString else String c EmptyString
      | kept => String c kept
      end
  end.

(** [s.trim()] *)
Definition trim (s : string) : string := trimEnd (trimStart s).

(** [s.split(sep)] for a separator of one character: never an empty array. *)
Fixpoint split (sep : ascii) (s : string) : list string :=
  match s with
  | EmptyString => [EmptyString]
  | String c rest =>
      if Ascii.eqb c sep then EmptyString :: split sep rest
      else match split sep rest with
           | first :: others => String c first :: others
           | [] => [String c EmptyString]
           end
  end.

(** [parts.join(sep)] *)
Fixpoint join (sep : string) (parts : list string) : string :=
  match parts with
  | [] => EmptyString
  | [part] => part
  | part :: rest => (part ++ sep ++ join sep rest)%string
  end.

Definition newline : ascii := ascii_of_N 10.
Definition comma : ascii := ascii_of_N 44.

(** The decimal digits of a natural number, most significant first, in front
    of [acc]; [fuel] bounds the number of digits. *)
Fixpoint digitsAcc (fuel : nat) (n : Z) (acc : string) : string :=
  let acc' := String (ascii_of_N (48 + Z.to_N (n mod 10))) acc in
  match fuel with
  | O => acc'
  | S fuel' => if n <? 10 then acc' else digitsAcc fuel' (n / 10) acc'
  end.

Definition digits (n : Z) : string :=
  digitsAcc (Z.to_nat (Z.log2 n)) n EmptyString.

(** [String(n)], [`${n}`] for an integer or [NaN]. *)
Definition numToString (n : num) : string :=
  match n with
  | NaN => "NaN"%string
  | Int z => if z <? 0 then String "-" (digits (- z)) else digits z
  end.

(** [s.padStart(targetLength, "0")] *)
Definition padStart (targetLength : nat) (s : string) : string :=
  (string_of_list_ascii (repeat "0"%char (targetLength - String.length s)) ++ s)%string.

(** The value of a digit in the given radix, if it is one. *)
Definition digitValue (radix : Z) (c : ascii) : option Z :=
  let n := Z.of_N (N_of_ascii c) in
  let v :=
    if (48 <=? n) && (n <=? 57) then Some (n - 48)
    else if (97 <=? n) && (n <=? 122) then Some (n - 87)
    else if (65 <=? n) && (n <=? 90) then Some (n - 55)
    else None in
  match v with
  | Some d => if d <? radix then Some d else None
  | None => None
  end.

(** The longest prefix of digits, read from the left; [acc] is [None] until
    a digit has been read. *)
Fixpoint readDigits (radix : Z) (acc : option Z) (s : string) : option Z :=
  match s with
  | EmptyString => acc
  | String c rest =>
      match digitValue radix c with
      | Some d => readDigits radix (Some (default 0 acc * radix + d)) rest
      | None => acc
      end
  end.

(** [parseInt(s)] with no radix argument: leading white space, a sign, a
    [0x] prefix for radix 16, then the longest run of digits; [NaN] when
    there is none. *)
Definition signOf (s0 : string) : Z * string :=
  match s0 with
  | String c rest =>
      if Ascii.eqb c "-" then (-1, rest)
      else if Ascii.eqb c "+" then (1, rest)
      else (1, s0)
  | EmptyString => (1, s0)
  end.

Definition radixOf (s1 : string) : Z * string :=
  match s1 with
  | String c0 (String c1 rest) =>
      if Ascii.eqb c0 "0" && (Ascii.eqb c1 "x" || Ascii.eqb c1 "X")
      then (16, rest)
      else (10, s1)
  | _ => (10, s1)
  end.

Definition parseInt (s : string) : num :=
  let '(sign, s1) := signOf (trimStart s) in
  let '(radix, s2) := radixOf s1 in
  match readDigits radix None s2 with
  | None => NaN
  | Some v => Int (sign * v)
  end.

(** ** Tile cache *)

Definition csvHeader : string := "path,r,g,b"%string.

(** [`${tile.path},${tile.r},${tile.g},${tile.b}`] *)
Definition csvLine (tile : TileRecord) : string :=
  (path tile ++ "," ++ numToString (r tile) ++ "," ++ numToString (g tile)
   ++ "," ++ numToString (b tile))%string.

(** [saveTileCacheToCSV(tiles, cacheFilePath)]: the text written to the
    cache file. *)
Definition saveTileCacheToCSV (tiles : list TileRecord) : string :=
  let csvLines := csvHeader :: map csvLine tiles in
  join (String newline EmptyString) csvLines.

(** One pass of the loader's loop: [const [path, r, g, b] = line.split(',')]
    and the record, if all four are truthy (present and not empty). *)
Definition parseCsvLine (line : string) : option TileRecord :=
  match split comma line with
  | path_ :: r_ :: g_ :: b_ :: _ =>
      match path_, r_, g_, b_ with
      | String _ _, String _ _, String _ _, String _ _ =>
          Some {| path := trim path_;
                  rgb := {| r := parseInt (trim r_);
                            g := parseInt (trim g_);
                            b := parseInt (trim b_) |} |}
      | _, _, _, _ => None
      end
  | _ => None
  end.

(** The records of a cache text: the first line is skipped. *)
Definition parseTileCache (csvData : string) : list TileRecord :=
  let lines := split newline (trim csvData) in
  omap parseCsvLine (tl lines).

(** [loadTileCacheFromCSV(cacheFilePath)], given what [fs.readFile] gives:
    the text of the file, or [None] when it throws.  Every record read is
    also stored in [this.tileCache]. *)
Definition loadTileCacheFromCSV (file : option string) (this : MosaicGenerator)
  : option (list TileRecord) * MosaicGenerator :=
  match file with
  | None => (None, this)
  | Some csvData =>
      let tiles := parseTileCache csvData in
      (Some tiles,
       {| tileCache :=
            fold_left (fun cache tileData => <[path tileData := tileData]> cache)
              tiles (tileCache this);
          tileSize := tileSize this;
          corruptedTiles := corruptedTiles this;
          lastTilePattern := lastTilePattern this;
          lastMosaicWidth := lastMosaicWidth this;
          lastMosaicHeight := lastMosaicHeight this |})
  end.

(** What the cache format keeps of a path: it is not empty, has no comma and
    no line feed, and no white space at either end. *)
Fixpoint hasChar (c : ascii) (s : string) : bool :=
  match s with
  | EmptyString => false
  | String c' rest => Ascii.eqb c' c || hasChar c rest
  end.

Definition cachePath (p : string) : Prop :=
  p <> EmptyString /\ hasChar comma p = false /\ hasChar newline p = false /\
  trim p = p.

(** The numbers the cache holds: integers that a double holds exactly and
    prints in plain decimal, or [NaN]. *)
Definition cacheNum (n : num) : Prop :=
  match n with
  | Int z => - 9007199254740991 <= z <= 9007199254740991
  | NaN => True
  end.

Definition cacheRecord (t : TileRecord) : Prop :=
  cachePath (path t) /\ cacheNum (r t) /\ cacheNum (g t) /\ cacheNum (b t).

(** Every character of a string passes a test. *)
Fixpoint allChars (test : ascii -> bool) (s : string) : bool :=
  match s with
  | EmptyString => true
  | String c rest => test c && allChars test rest
  end.

Definition isDigit (c : ascii) : bool :=
  let n := N_of_ascii c in ((48 <=? n) && (n <=? 57))%N.

(** Neither white space nor one of the two separators of the cache file. *)
Definition plainChar (c : ascii) : bool :=
  negb (isWhiteSpace c) && negb (Ascii.eqb c comma) && negb (Ascii.eqb c newline).

Definition digitChar (d : Z) : ascii := ascii_of_N (48 + Z.to_N d).

(** A string that is not empty and does not end in white space. *)
Definition keptByTrimEnd (s : string) : Prop :=
  s <> EmptyString /\ trimEnd s = s.

(** ** Zoom Sequence Controller *)

Definition Math_pow (base : Q) (exponent : Z) : Q := Qpower base exponent.

Definition Math_floor (q : Q) : Z := Qfloor q.

(** [a < b] on numbers with a fraction. *)
Definition Qltb (a b : Q) : bool := negb (Qle_bool b a).

(** The tile size of a zoom step:
    [baseTileSize = mosaicOptions.tileSize || defaultTileSize],
    [zoomMultiplier = Math.pow(1 / zoomFactor, zoomStep)],
    [zoomTileSize = Math.round(baseTileSize * zoomMultiplier)]. *)
Definition zoomTileSizeAt (tileSizeOption : option Z) (zoomFactor : Q)
  (zoomStep : Z) : Z :=
  let baseTileSize := orElse tileSizeOption defaultTileSize in
  let zoomMultiplier := Math_pow (1 / zoomFactor) zoomStep in
  Math_round (inject_Z baseTileSize * zoomMultiplier).

(** The options [generateInfiniteZoomMosaic] reads itself; [tileSizeOption]
    is [mosaicOptions.tileSize]. *)
Record ZoomOptions : Type := mkZoomOptions {
  zoomFactor : Q;
  maxIterations : option Z;
  zoomSteps : Z;
  tileSizeOption : option Z
}.

(** A frame file written: the iteration that wrote it (as the loop computes
    [iterationNumber]), the frame number in its name, the zoom step (0 for
    the base mosaic of the iteration) and its path. *)
Record Frame : Type := mkFrame {
  frameIteration : Z;
  frameNumber : Z;
  frameStep : Z;
  frameFile : string
}.

(** The variables of the loop, and the frames written so far, oldest first. *)
Record Controller : Type := mkController {
  currentInputPath : string;
  globalFrameNumber : Z;
  written : list Frame
}.

Inductive LoopState : Type :=
| Finished      (* the [while] condition was false *)
| StillRunning. (* out of fuel with the condition still true *)

Section ZoomSequence.

(** The two renderers as the controller sees them: each returns or throws.
    They are indexed by the frame number, being stateful; on success the
    frame file is written. *)
Variable renderMosaic : Z -> string -> string -> result MosaicWithPattern.
Variable renderZoom :
  Z -> MosaicWithPattern -> Z -> Z -> Z -> string -> result unit.

(** [path.parse(outputPath)]: [path.join(dir, name)] and [ext]. *)
Variables (baseOutputPath extension : string).

Variable options : ZoomOptions.

(** [`${baseOutputPath}_${n.toString().padStart(4, '0')}${extension}`] *)
Definition framePath (n : Z) : string :=
  (baseOutputPath ++ "_" ++ padStart 4 (numToString (Int n)) ++ extension)%string.

(** [globalFrameNumber++] *)
Definition nextFrame : M Controller Z :=
  fun st =>
    (Ok (globalFrameNumber st + 1),
     {| currentInputPath := currentInputPath st;
        globalFrameNumber := globalFrameNumber st + 1;
        written := written st |}).

Definition call {A : Type} (outcome : result A) : M Controller A :=
  fun st => (outcome, st).

Definition frameWritten (f : Frame) : M Controller unit :=
  modify (fun st =>
    {| currentInputPath := currentInputPath st;
       globalFrameNumber := globalFrameNumber st;
       written := written st ++ [f] |}).

(** The body of [for (let zoomStep = 1; zoomStep <= zoomSteps; zoomStep++)] *)
Definition zoomStepBody (iterationNumber : Z) (result : MosaicWithPattern)
  (zoomStep : Z) : M Controller unit :=
  let* n := nextFrame in
  let zoomOutputPath := framePath n in
  let zoomTileSize :=
    zoomTileSizeAt (tileSizeOption options) (zoomFactor options) zoomStep in
  let targetWidth := width (mosaicResult result) in
  let targetHeight := height (mosaicResult result) in
  exec call (renderZoom n result zoomTileSize targetWidth targetHeight
               zoomOutputPath) in
  frameWritten {| frameIteration := iterationNumber;
                  frameNumber := n;
                  frameStep := zoomStep;
                  frameFile := zoomOutputPath |}.

(** The body of the [while] loop, the pause apart. *)
Definition iteration : M Controller unit :=
  let* st := get in
  let iterationNumber :=
    Math_floor (inject_Z (globalFrameNumber st)
                / inject_Z (zoomSteps options + 1)) + 1 in
  let* n := nextFrame in
  let mosaicOutputPath := framePath n in
  let* result := call (renderMosaic n (currentInputPath st) mosaicOutputPath) in
  exec frameWritten {| frameIteration := iterationNumber;
                       frameNumber := n;
                       frameStep := 0;
                       frameFile := mosaicOutputPath |} in
  exec forPush (map (Z.add 1) (upto (zoomSteps options)))
         (zoomStepBody iterationNumber result) in
  (* Set up for next iteration - use the last zoomed frame *)
  modify (fun st' =>
    {| currentInputPath := framePath (globalFrameNumber st');
       globalFrameNumber := globalFrameNumber st';
       written := written st' |}).

(** [maxIterations === null ||
     globalFrameNumber / (zoomSteps + 1) < maxIterations] *)
Definition loopCondition (st : Controller) : bool :=
  match maxIterations options with
  | None => true
  | Some limit =>
      Qltb (inject_Z (globalFrameNumber st) / inject_Z (zoomSteps options + 1))
        (inject_Z limit)
  end.

(** The [while] loop, run for at most [fuel] iterations. *)
Fixpoint zoomLoop (fuel : nat) : M Controller LoopState :=
  let* st := get in
  if loopCondition st then
    match fuel with
    | O => ret StillRunning
    | S fuel' => exec iteration in zoomLoop fuel'
    end
  else ret Finished.

(** [generateInfiniteZoomMosaic(inputImagePath, ...)] *)
Definition generateInfiniteZoomMosaic (inputImagePath : string) (fuel : nat)
  : result LoopState * Controller :=
  zoomLoop fuel {| currentInputPath := inputImagePath;
                   globalFrameNumber := 0;
                   written := [] |}.

(** The frame sequence in the words of the specification: iteration [i]
    (from 1) comprises the frames numbered [(i-1)*(S+1)+1] to [i*(S+1)],
    the base mosaic first, then the zoom steps 1 to [S]. *)
Definition specFrame (i j : Z) : Frame :=
  let n := (i - 1) * (zoomSteps options + 1) + 1 + j in
  {| frameIteration := i; frameNumber := n; frameStep := j;
     frameFile := framePath n |}.

Definition specIteration (i : Z) : list Frame :=
  map (specFrame i) (upto (zoomSteps options + 1)).

Definition specSequence (iterations : Z) : list Frame :=
  flat_map specIteration (map (Z.add 1) (upto iterations)).

End ZoomSequence.

(** A codec that fails on one path and returns [pixels] for every other. *)
Definition failingOn (bad : string) (pixels : list Z)
  : nat -> string -> Z -> result (list Z) :=
  fun _ tilePath _ =>
    if String.eqb tilePath bad then Throw "Input file is missing" else Ok pixels.

(** A one-cell grid of one-pixel tiles. *)
Definition oneCell : MosaicOptions :=
  {| outputWidth := defaultOutputWidth;
     outputHeight := None;
     mosaicWidth := Some 1;
     mosaicHeight := Some 1;
     optTileSize := 1;
     allowReuse := true |}.

Definition freshRun : Run := {| self := newMosaicGenerator; sharpCalls := 0 |}.

(** The pixel at column [x], row [y] of a raster: three bytes, row-major. *)
Definition pixelAt (image : Raster) (x y : Z) : list Z :=
  let offset := Z.to_nat ((y * rasterWidth image + x) * 3) in
  firstn 3 (skipn offset (rasterData image)).

(** A codec for tiles of one colour each: the tile at [tilePath] is filled
    with the colour the corpus records for that path. *)
Definition solidTiles (corpus : list TileRecord)
  : nat -> string -> Z -> result (list Z) :=
  fun _ tilePath tsize =>
    match List.find (fun t : TileRecord => String.eqb (path t) tilePath) corpus with
    | Some t =>
        Ok (concat (repeat [chan (r t); chan (g t); chan (b t)]
                      (Z.to_nat (tsize * tsize))))
    | None => Throw "Input file is missing"
    end.

(** Four tiles of one colour each, and a 2 x 2 input image of these colours. *)
Definition quadrantCorpus : list TileRecord :=
  [mkTile "red.png" (rgbColor 255 0 0); mkTile "green.png" (rgbColor 0 255 0);
   mkTile "blue.png" (rgbColor 0 0 255); mkTile "white.png" (rgbColor 255 255 255)].

Definition quadrantInput : list Z :=
  [0; 0; 255;  255; 255; 255;  0; 255; 0;  255; 0; 0].

Definition quadrantOptions : MosaicOptions :=
  {| outputWidth := defaultOutputWidth;
     outputHeight := None;
     mosaicWidth := Some 2;
     mosaicHeight := Some 2;
     optTileSize := 10;
     allowReuse := true |}.

(** ** Invariants of the loops *)

(** What the no-reuse loop keeps true while fewer cells than tiles have been
    assigned: the paths chosen so far are distinct, and a tile is in
    [usedTiles] exactly when its path has been chosen. *)
Definition noReuseInvariant (tiles : list TileObj) (used : gset nat)
  (chosen : list string) : Prop :=
  List.NoDup (firstn (length tiles) chosen) /\
  ((length chosen <= length tiles)%nat ->
   forall t : TileObj, In t tiles -> ref t ∈ used <-> In (path t) chosen).

(** The state after one call of the codec that left the generator alone. *)
Definition oneMoreCall (run : Run) : Run :=
  {| self := self run; sharpCalls := S (sharpCalls run) |}.

(** What a compositing pass at tile size [tsize] may do to the generator:
    only the corrupted set changes: it grows, and only by paths on which a
    codec call of this pass threw. *)
Definition blacklistGrows (sharpRaw : nat -> string -> Z -> result (list Z))
  (tsize : Z) (run run' : Run) : Prop :=
  (sharpCalls run <= sharpCalls run')%nat /\
  tileCache (self run') = tileCache (self run) /\
  tileSize (self run') = tileSize (self run) /\
  lastTilePattern (self run') = lastTilePattern (self run) /\
  lastMosaicWidth (self run') = lastMosaicWidth (self run) /\
  lastMosaicHeight (self run') = lastMosaicHeight (self run) /\
  corruptedTiles (self run) ⊆ corruptedTiles (self run') /\
  forall p : string,
    p ∈ corruptedTiles (self run') ->
    p ∈ corruptedTiles (self run) \/
    exists (n : nat) (msg : string),
      (sharpCalls run <= n < sharpCalls run')%nat /\
      sharpRaw n p tsize = Throw msg.

(** ** Tile analysis ([getAverageColor], [validateTileWithRetry]) *)

(** [s.includes(sub)] *)
Fixpoint includes (s sub : string) : bool :=
  String.prefix sub s
  || match s with
     | EmptyString => false
     | String _ rest => includes rest sub
     end.

(** [for (let i = 0; i < data.length; i += 3) { r += data[i]; g += data[i + 1];
    b += data[i + 2] }]: the three sums, from 0.  A read past the end of the
    buffer is [undefined], and adding it gives [NaN]. *)
Definition channelSums (data : list Z) : Color :=
  fold_left
    (fun (sums : Color) (i : Z) =>
       {| r := num_add (r sums) (readByte data i);
          g := num_add (g sums) (readByte data (i + 1));
          b := num_add (b sums) (readByte data (i + 2)) |})
    (map (Z.mul 3) (upto ((Z.of_nat (length data) + 2) / 3)))
    (rgbColor 0 0 0).

(** [Math.round(sum / pixelCount)] with [pixelCount = data.length / 3].  For
    an empty buffer the sum is 0 and [0 / 0] is [NaN]. *)
Definition averageChannel (sum : num) (dataLength : nat) : num :=
  match sum, dataLength with
  | Int z, S _ =>
      let pixelCount := (inject_Z (Z.of_nat dataLength) / 3)%Q in
      Int (Math_round (inject_Z z / pixelCount))
  | _, _ => NaN
  end.

(** [avgColor] *)
Definition averageColor (imagePath : string) (data : list Z) : TileRecord :=
  let sums := channelSums data in
  {| path := imagePath;
     rgb := {| r := averageChannel (r sums) (length data);
               g := averageChannel (g sums) (length data);
               b := averageChannel (b sums) (length data) |} |}.

(** A buffer of whole RGB pixels, and the total of one channel over them. *)
Definition rawBytes (pixels : list (Z * Z * Z)) : list Z :=
  flat_map (fun px : Z * Z * Z => let '(x, y, z) := px in [x; y; z]) pixels.

Definition red (px : Z * Z * Z) : Z := fst (fst px).
Definition green (px : Z * Z * Z) : Z := snd (fst px).
Definition blue (px : Z * Z * Z) : Z := snd px.

Definition total (channel : Z * Z * Z -> Z) (pixels : list (Z * Z * Z)) : Z :=
  fold_right Z.add 0 (map channel pixels).

(** [error.message.includes('Premature end') ||
     error.message.includes('truncated')] *)
Definition retryable (message : string) : bool :=
  includes message "Premature end" || includes message "truncated".

(** [this.tileCache.set(imagePath, avgColor)] *)
Definition cacheTile (imagePath : string) (avgColor : TileRecord)
  (this : MosaicGenerator) : MosaicGenerator :=
  {| tileCache := <[imagePath := avgColor]> (tileCache this);
     tileSize := tileSize this;
     corruptedTiles := corruptedTiles this;
     lastTilePattern := lastTilePattern this;
     lastMosaicWidth := lastMosaicWidth this;
     lastMosaicHeight := lastMosaicHeight this |}.

Definition cacheSet (imagePath : string) (avgColor : TileRecord) : M Run unit :=
  modify (fun run =>
    {| self := cacheTile imagePath avgColor (self run);
       sharpCalls := sharpCalls run |}).

Section TileAnalysis.

Variable sharpRaw : nat -> string -> Z -> result (list Z).

(** [processImage(retryCount)].  It calls itself with [retryCount + 1] only
    while [retryCount < 2]; [retriesLeft] bounds these calls, and 2 is
    enough from [retryCount = 0]. *)
Fixpoint processImage (retriesLeft : nat) (imagePath : string) (retryCount : Z)
  : M Run TileRecord :=
  tryCatch
    (let* run := get in
     let* data := loadTile sharpRaw imagePath (tileSize (self run)) in
     let avgColor := averageColor imagePath data in
     exec cacheSet imagePath avgColor in
     ret avgColor)
    (fun message =>
       if (retryCount <? 2) && retryable message
       then match retriesLeft with
            | O => throw message
            | S retriesLeft' => processImage retriesLeft' imagePath (retryCount + 1)
            end
       else throw message).

(** [getAverageColor(imagePath)]: the tile record, or [None] for [null]. *)
Definition getAverageColor (imagePath : string) : M Run (option TileRecord) :=
  let* run := get in
  (* Check if this tile is already known to be corrupted *)
  if bool_decide (imagePath ∈ corruptedTiles (self run)) then ret None
  else
    match tileCache (self run) !! imagePath with
    | Some cached => ret (Some cached)
    | None =>
        tryCatch
          (let* avgColor := processImage 2 imagePath 0 in
           ret (Some avgColor))
          (fun _ =>
             (* Mark this tile as corrupted during initial processing *)
             exec markCorrupted imagePath in
             ret None)
    end.

(** The passes of [for (let attempt = 1; attempt <= maxRetries; attempt++)]
    that are left. *)
Fixpoint validateAttempts (attempts : list Z) (imagePath : string)
  (maxRetries : Z) : M Run unit :=
  match attempts with
  | [] => ret tt
  | attempt :: rest =>
      fun run =>
        match loadTile sharpRaw imagePath (tileSize (self run)) run with
        | (Ok _, run') => (Ok tt, run') (* Success *)
        | (Throw message, run') =>
            if attempt =? maxRetries
            then (Throw message, run') (* Final attempt failed *)
            else validateAttempts rest imagePath maxRetries run'
        end
  end.

(** [validateTileWithRetry(imagePath, maxRetries)] *)
Definition validateTileWithRetry (imagePath : string) (maxRetries : Z)
  : M Run unit :=
  validateAttempts (map (Z.add 1) (upto maxRetries)) imagePath maxRetries.

End TileAnalysis.

(** ** Directory scan ([getImageFiles]) *)

#[local] Set Warnings "-register-all".

(** What [fs.stat] and [fs.readdir] show at a path: a file; a directory,
    with the items [readdir] lists there (each with what is found at it), or
    the error [readdir] throws; or a path at which [stat] throws. *)
Inductive FsNode : Type :=
| FileNode
| DirNode (items : result (list (string * FsNode)))
| BrokenNode (message : string).

Definition imageExtensions : list string :=
  [".jpg"; ".jpeg"; ".png"; ".gif"; ".bmp"; ".webp"]%string.

Section DirectoryScan.

(** [path.join], [path.extname] and [String.prototype.toLowerCase] *)
Variable path_join : string -> string -> string.
Variable path_extname : string -> string.
Variable toLowerCase : string -> string.

(** [imageExtensions.includes(path.extname(item).toLowerCase())] *)
Definition isImageName (item : string) : bool :=
  bool_decide (toLowerCase (path_extname item) ∈ imageExtensions).

(** The loop [for (const item of items)] of [scanDirectory(currentDir)];
    [scan] is the recursive call and the state is [files]. *)
Definition scanItems (scan : string -> FsNode -> M (list string) unit)
  (currentDir : string) : list (string * FsNode) -> M (list string) unit :=
  fix eachItem (items : list (string * FsNode)) : M (list string) unit :=
    match items with
    | [] => ret tt
    | (item, child) :: rest =>
        let fullPath := path_join currentDir item in
        match child with
        | BrokenNode message => throw message
        | DirNode _ =>
            exec scan fullPath child in
            eachItem rest
        | FileNode =>
            exec (if isImageName item
                  then modify (fun files => files ++ [fullPath])
                  else ret tt) in
            eachItem rest
        end
    end.

(** [scanDirectory(currentDir)], [node] being what is found at [currentDir].
    [readdir] throws at what is not a readable directory, and the [catch]
    only warns. *)
Fixpoint scanDirectory (currentDir : string) (node : FsNode) {struct node}
  : M (list string) unit :=
  match node with
  | DirNode (Ok items) =>
      tryCatch (scanItems scanDirectory currentDir items) (fun _ => ret tt)
  | _ => ret tt
  end.

(** [getImageFiles(dir)] *)
Definition getImageFiles (dir : string) (root : FsNode) : list string :=
  snd (scanDirectory dir root []).

(** The files the scan reaches: image files, in directories that can be
    read, with no entry before them in their directory, or before one of
    their ancestors in its directory, at which [stat] throws. *)
Definition statWorks (entry : string * FsNode) : Prop :=
  forall message : string, snd entry <> BrokenNode message.

Inductive Reached : string -> FsNode -> string -> Prop :=
| Reached_file (currentDir item : string)
    (before after : list (string * FsNode)) :
    Forall statWorks before ->
    isImageName item = true ->
    Reached currentDir (DirNode (Ok (before ++ (item, FileNode) :: after)))
      (path_join currentDir item)
| Reached_below (currentDir item : string)
    (listing : result (list (string * FsNode)))
    (before after : list (string * FsNode)) (file : string) :
    Forall statWorks before ->
    Reached (path_join currentDir item) (DirNode listing) file ->
    Reached currentDir
      (DirNode (Ok (before ++ (item, DirNode listing) :: after))) file.

End DirectoryScan.

(** ** Tile corpus ([generateMosaic], from "Try to load cached tile data
    first" to "No valid tile images could be processed") *)

(** "Just blacklist known problematic files without validation" *)
Definition knownCorruptedFiles : list string :=
  ["\TINYTIM\Quaffle\Multimedia\Misc\European art\W\WILLIAM-ADOLPHE Bouguereau\WILLIAM-ADOLPHE Bouguereau - Madonna-Roses.jpg"%string].

Definition noImageFilesMsg (tilesDirectory : string) : string :=
  ("No image files found in " ++ tilesDirectory)%string.

(** What the loading of the corpus works on: the generator with the codec
    calls made, and the text of [tiles.csv] in the tiles directory ([None]
    when it cannot be read). *)
Record Workspace : Type := mkWorkspace {
  wsRun : Run;
  cacheFile : option string
}.

Definition onRun {A : Type} (c : M Run A) : M Workspace A :=
  fun ws =>
    let (outcome, run') := c (wsRun ws) in
    (outcome, {| wsRun := run'; cacheFile := cacheFile ws |}).

Definition onGenerator (f : MosaicGenerator -> MosaicGenerator) : M Workspace unit :=
  onRun (modify (fun run => {| self := f (self run); sharpCalls := sharpCalls run |})).

(** [this.tileSize = tileSize] *)
Definition setTileSize (tsize : Z) (this : MosaicGenerator) : MosaicGenerator :=
  {| tileCache := tileCache this;
     tileSize := tsize;
     corruptedTiles := corruptedTiles this;
     lastTilePattern := lastTilePattern this;
     lastMosaicWidth := lastMosaicWidth this;
     lastMosaicHeight := lastMosaicHeight this |}.

Section TileCorpus.

Variable sharpRaw : nat -> string -> Z -> result (list Z).
Variable path_join : string -> string -> string.
Variable path_extname : string -> string.
Variable toLowerCase : string -> string.

(** Whether [fs.writeFile] on the cache file succeeds. *)
Variable cacheWritable : bool.

(** [for (const tileFile of files) { const tileData = await
    this.getAverageColor(tileFile); if (tileData) { tiles.push(tileData) } }] *)
Fixpoint processTiles (files : list string) (tiles : list TileRecord)
  : M Run (list TileRecord) :=
  match files with
  | [] => ret tiles
  | tileFile :: rest =>
      let* tileData := getAverageColor sharpRaw tileFile in
      processTiles rest
        match tileData with
        | Some tile => tiles ++ [tile]
        | None => tiles
        end
  end.

(** [await this.saveTileCacheToCSV(tiles, cacheFilePath)]: a failure to
    write is caught there. *)
Definition writeTileCache (tiles : list TileRecord) : M Workspace unit :=
  modify (fun ws =>
    {| wsRun := wsRun ws;
       cacheFile := if cacheWritable then Some (saveTileCacheToCSV tiles)
                    else cacheFile ws |}).

(** [tiles = tiles.filter((tile) => tile !== null)] keeps every tile, none
    being [null]; then the check that some tile is left. *)
Definition someTiles (tiles : list TileRecord) : M Workspace (list TileRecord) :=
  match tiles with
  | [] => throw noTileImagesMsg
  | _ => ret tiles
  end.

(** The [tiles] of [generateMosaic]: [root] is what is found at
    [tilesDirectory]. *)
Definition loadTiles (tilesDirectory : string) (root : FsNode) (tsize : Z)
  : M Workspace (list TileRecord) :=
  exec onGenerator (setTileSize tsize) in
  (* Try to load cached tile data first *)
  let* ws := get in
  let loaded := loadTileCacheFromCSV (cacheFile ws) (self (wsRun ws)) in
  exec onGenerator (fun _ => snd loaded) in
  match fst loaded with
  | Some tiles =>
      (* Add known corrupted files to blacklist *)
      exec onGenerator (fun this =>
             fold_left (fun this' file => addCorrupted file this')
               knownCorruptedFiles this) in
      (* Get tile files from cache instead of scanning directory *)
      let tileFiles := map path tiles in
      (* Check if we have new files not in cache *)
      let cachedPaths : gset string := list_to_set (map path tiles) in
      let newTileFiles :=
        List.filter (fun file => negb (bool_decide (file ∈ cachedPaths)))
          tileFiles in
      let* tiles' :=
        match newTileFiles with
        | [] => ret tiles
        | _ =>
            let* tiles' := onRun (processTiles newTileFiles tiles) in
            (* Save updated cache *)
            exec writeTileCache tiles' in
            ret tiles'
        end in
      someTiles tiles'
  | None =>
      (* No cache exists, need to scan all files *)
      let tileFiles :=
        getImageFiles path_join path_extname toLowerCase tilesDirectory root in
      match tileFiles with
      | [] => throw (noImageFilesMsg tilesDirectory)
      | _ =>
          let* tiles := onRun (processTiles tileFiles []) in
          (* Save cache for next time *)
          exec writeTileCache tiles in
          someTiles tiles
      end
  end.

End TileCorpus.

(** What [getAverageColor] keeps true of the generator: a cached record is
    cached under its own path, and no cached path is corrupted. *)
Definition cacheConsistent (this : MosaicGenerator) : Prop :=
  forall (p : string) (t : TileRecord),
    tileCache this !! p = Some t -> path t = p /\ p ∉ corruptedTiles this.

(** Stand-ins for [path.join] and [path.extname] in the examples: the
    directory, a slash and the item; the name from its last dot on. *)
Definition slashJoin (dir item : string) : string :=
  (dir ++ "/" ++ item)%string.

Fixpoint fromLastDot (name : string) : option string :=
  match name with
  | EmptyString => None
  | String c rest =>
      match fromLastDot rest with
      | Some ext => Some ext
      | None => if Ascii.eqb c "." then Some name else None
      end
  end.

Definition lastDotExtname (name : string) : string :=
  default EmptyString (fromLastDot name).

(** A tiles directory with two images, a text file and a subdirectory
    holding one more image. *)
Definition sampleTilesDirectory : FsNode :=
  DirNode (Ok [("a.jpg"%string, FileNode);
               ("notes.txt"%string, FileNode);
               ("more"%string, DirNode (Ok [("c.png"%string, FileNode)]));
               ("b.jpg"%string, FileNode)]).

(** A codec that fails on every image. *)
Definition failingAlways : nat -> string -> Z -> result (list Z) :=
  fun _ _ _ => Throw "Input file contains unsupported image format".

Definition emptyWorkspace : Workspace :=
  {| wsRun := freshRun; cacheFile := None |}.

(** ** The writes of the row assembly *)

(** The byte writes of the loops that combine the tiles of a row, in the
    order the loops make them: the index written in the row buffer and the
    byte written there. *)
Definition rowWrites (columns tsize : Z) (tileBuffers : list (list Z))
  : list (nat * Z) :=
  flat_map (fun x =>
    flat_map (fun ty =>
      flat_map (fun tx =>
        let tileBuffer := nth (Z.to_nat x) tileBuffers [] in
        let srcOffset := Z.to_nat ((ty * tsize + tx) * 3) in
        let dstOffset := Z.to_nat ((ty * (columns * tsize) + (x * tsize + tx)) * 3) in
        [(dstOffset, default 0 (tileBuffer !! srcOffset));
         ((dstOffset + 1)%nat, default 0 (tileBuffer !! (srcOffset + 1)%nat));
         ((dstOffset + 2)%nat, default 0 (tileBuffer !! (srcOffset + 2)%nat))])
        (upto tsize))
      (upto tsize))
    (upto columns).

(** ** The video maker ([makeVideo.cjs]) *)

(** The order of [Array.prototype.sort()] on strings: by code units, a
    proper prefix first. *)
Definition codeUnitLe (s1 s2 : string) : Prop := String.leb s1 s2 = true.

#[global] Instance codeUnitLe_dec : RelDecision codeUnitLe :=
  fun s1 s2 => decide (String.leb s1 s2 = true).

Module MakeVideo.

Definition supportedExtensions : list string :=
  [".jpg"; ".jpeg"; ".png"; ".bmp"; ".tiff"; ".gif"]%string.

Section ImageFiles.

Variable path_extname : string -> string.
Variable toLowerCase : string -> string.

Definition supported (file : string) : bool :=
  let ext := toLowerCase (path_extname file) in
  bool_decide (ext ∈ supportedExtensions).

(** [getImageFiles(directory)], [files] being what [fs.readdirSync] lists
    there: the names, in any order. *)
Definition getImageFiles (files : list string) : list string :=
  merge_sort codeUnitLe (List.filter supported files).

End ImageFiles.

(** The copies [createVideo] makes, by name: the image file and the
    [frame_%06d.png] it becomes in the temporary directory. *)
Definition sequenceFiles (imageFiles : list string) : list (string * string) :=
  imap (fun (index : nat) (file : string) =>
          (file,
           ("frame_" ++ padStart 6 (numToString (Int (Z.of_nat index + 1)))
            ++ ".png")%string))
    imageFiles.

End MakeVideo.

(** The names of the frames [first], [first + 1], ... of a zoom sequence,
    [count] of them. *)
Definition frameNames (name extension : string) (first count : Z) : list string :=
  map (fun j => framePath name extension (first + j)) (upto count).

(** ** [zoomImage] *)





(** The line end of a text file written on Windows. *)
Definition crlf : string := String (ascii_of_N 13) (String newline EmptyString).

(** * Properties *)

(** ** Color Matcher *)

Lemma colorDistanceSq_int (c1 c2 : Color) :
  intColor c1 -> intColor c2 -> colorDistanceSq c1 c2 = Int (distZ c1 c2).
Proof.
  intros (x1 & y1 & z1 & ->) (x2 & y2 & z2 & ->). reflexivity.
Qed.

Lemma validTiles_spec (this : MosaicGenerator) (tiles : list TileObj)
  (t : TileObj) :
  In t (validTiles this tiles) <->
  In t tiles /\ path t ∉ corruptedTiles this.
Proof.
  unfold validTiles. rewrite filter_In.
  rewrite negb_true_iff, bool_decide_eq_false. reflexivity.
Qed.

Lemma validTiles_all (this : MosaicGenerator) (tiles : list TileObj) :
  (forall t : TileObj, In t tiles -> path t ∉ corruptedTiles this) ->
  validTiles this tiles = tiles.
Proof.
  intros H. unfold validTiles. induction tiles as [|t ts IH]; [reflexivity|].
  simpl. rewrite bool_decide_eq_false_2 by (apply H; left; reflexivity).
  simpl. f_equal. apply IH. intros u Hu. apply H. right. exact Hu.
Qed.

(** The scan keeps the first element of least distance among those it has
    seen: [pre] holds the elements before the current best (all strictly
    farther), [mid] the ones after it (none closer). *)
Lemma scanBest_first_min (target : Color) :
  intColor target ->
  forall (rest pre mid : list TileObj) (best : TileObj),
    intColor best ->
    (forall u : TileObj, In u rest -> intColor u) ->
    (forall u : TileObj, In u pre -> distZ target best < distZ target u) ->
    (forall u : TileObj, In u mid -> distZ target best <= distZ target u) ->
    exists l1 l2 : list TileObj,
      let t := scanBest target best (Int (distZ target best)) rest in
      pre ++ best :: mid ++ rest = l1 ++ t :: l2 /\
      (forall u : TileObj, In u l1 -> distZ target t < distZ target u) /\
      (forall u : TileObj, In u l2 -> distZ target t <= distZ target u).
Proof.
  intros Htarget rest.
  induction rest as [|tile rest IH]; intros pre mid best Hbest Hrest Hpre Hmid.
  - exists pre, mid. simpl. rewrite app_nil_r. auto.
  - assert (Htile : intColor tile) by (apply Hrest; left; reflexivity).
    assert (Hrest' : forall u : TileObj, In u rest -> intColor u)
      by (intros u Hu; apply Hrest; right; exact Hu).
    simpl. rewrite (colorDistanceSq_int target tile Htarget Htile).
    simpl. destruct (Z.ltb_spec (distZ target tile) (distZ target best)) as [Hlt|Hge].
    + destruct (IH (pre ++ best :: mid) [] tile Htile Hrest') as (l1 & l2 & Heq & H1 & H2).
      * intros u Hu. apply in_app_or in Hu. destruct Hu as [Hu|[<-|Hu]].
        -- specialize (Hpre u Hu). lia.
        -- exact Hlt.
        -- specialize (Hmid u Hu). lia.
      * intros u [].
      * exists l1, l2. simpl in Heq. rewrite <- Heq.
        split; [|split; assumption].
        rewrite <- app_assoc. reflexivity.
    + destruct (IH pre (mid ++ [tile]) best Hbest Hrest' Hpre) as (l1 & l2 & Heq & H1 & H2).
      * intros u Hu. apply in_app_or in Hu. destruct Hu as [Hu|[<-|[]]].
        -- apply Hmid, Hu.
        -- exact Hge.
      * exists l1, l2. rewrite <- Heq.
        split; [|split; assumption].
        rewrite <- app_assoc. reflexivity.
Qed.

Lemma findBestTile_ok_iff (this : MosaicGenerator) (target : Color)
  (tiles : list TileObj) :
  (exists t : TileObj, In t tiles /\ path t ∉ corruptedTiles this) <->
  (exists best : TileObj, findBestTile this target tiles = Ok best).
Proof.
  unfold findBestTile. split.
  - intros (t & Hin & Hok).
    assert (Hv : In t (validTiles this tiles))
      by (apply validTiles_spec; split; assumption).
    destruct (validTiles this tiles) as [|first rest]; [destruct Hv|].
    eexists. reflexivity.
  - intros (best & Hbest).
    destruct (validTiles this tiles) as [|first rest] eqn:Hv;
      [discriminate|].
    exists first. apply validTiles_spec. rewrite Hv. left. reflexivity.
Qed.

(** C1 (as amended): whenever at least one candidate is not corrupted and the
    colours are integers, [findBestTile] returns the first candidate of least
    squared distance among the candidates that are not corrupted: every
    non-corrupted candidate before it is strictly farther from the target and
    every one after it is at least as far.  When no candidate is corrupted
    these are all the candidates; for target (90,90,90) and candidates
    (10,10,10), (200,200,200), (100,100,100) the result is (100,100,100). *)
Theorem findBestTile_first_least_distance :
  (forall (this : MosaicGenerator) (target : Color)
          (tiles : list TileObj),
      intColor target ->
      (forall t : TileObj, In t (validTiles this tiles) -> intColor t) ->
      validTiles this tiles <> [] ->
      exists (t : TileObj) (l1 l2 : list TileObj),
        findBestTile this target tiles = Ok t /\
        validTiles this tiles = l1 ++ t :: l2 /\
        (forall u : TileObj, In u l1 -> distZ target t < distZ target u) /\
        (forall u : TileObj, In u l2 -> distZ target t <= distZ target u)) /\
  (forall (this : MosaicGenerator) (tiles : list TileObj),
      (forall t : TileObj, In t tiles -> path t ∉ corruptedTiles this) ->
      validTiles this tiles = tiles) /\
  findBestTile newMosaicGenerator (rgbColor 90 90 90)
    [tileAt 0 "a" 10 10 10; tileAt 1 "b" 200 200 200; tileAt 2 "c" 100 100 100]
  = Ok (tileAt 2 "c" 100 100 100).
Proof.
  split; [|split].
  - intros this target tiles Htarget Hint Hne.
    unfold findBestTile.
    destruct (validTiles this tiles) as [|first rest]; [congruence|].
    assert (Hfirst : intColor first) by (apply Hint; left; reflexivity).
    destruct (scanBest_first_min target Htarget rest [] [] first Hfirst)
      as (l1 & l2 & Heq & H1 & H2).
    + intros u Hu. apply Hint. right. exact Hu.
    + intros u [].
    + intros u [].
    + rewrite (colorDistanceSq_int target first Htarget Hfirst).
      eexists _, l1, l2. split; [reflexivity|].
      split; [exact Heq|]. split; assumption.
  - exact validTiles_all.
  - vm_compute. reflexivity.
Qed.

Lemma findBestTile_first_least_distance_witness :
  exists (t : TileObj) (l1 l2 : list TileObj),
    findBestTile (withCorrupted {["b"%string]}) (rgbColor 90 90 90)
      [tileAt 0 "a" 10 10 10; tileAt 1 "b" 90 90 90; tileAt 2 "c" 100 100 100;
       tileAt 3 "d" 80 80 80] = Ok t /\
    validTiles (withCorrupted {["b"%string]})
      [tileAt 0 "a" 10 10 10; tileAt 1 "b" 90 90 90; tileAt 2 "c" 100 100 100;
       tileAt 3 "d" 80 80 80] = l1 ++ t :: l2 /\
    (forall u : TileObj, In u l1 ->
       distZ (rgbColor 90 90 90) t < distZ (rgbColor 90 90 90) u) /\
    (forall u : TileObj, In u l2 ->
       distZ (rgbColor 90 90 90) t <= distZ (rgbColor 90 90 90) u).
Proof.
  apply (proj1 findBestTile_first_least_distance).
  - exists 90, 90, 90. reflexivity.
  - vm_compute. intros t [<-|[<-|[<-|[]]]]; eexists _, _, _; reflexivity.
  - vm_compute. discriminate.
Defined.

(** C1 as stated fails when the corrupted set is not empty: the nearest
    candidate of the list is skipped when its path is corrupted, and a
    non-empty list whose candidates are all corrupted gives no tile at all. *)
Lemma findBestTile_not_least_over_list :
  let a := tileAt 0 "a" 0 0 0 in
  let b := tileAt 1 "b" 10 10 10 in
  let target := rgbColor 0 0 0 in
  findBestTile (withCorrupted {["a"%string]}) target [a; b] = Ok b /\
  In a [a; b] /\
  distZ target a < distZ target b /\
  findBestTile (withCorrupted {["a"%string]}) target [a] = Throw noValidTilesMsg.
Proof.
  vm_compute. repeat split; auto.
Qed.

(** C8: [findBestTile] throws exactly when no candidate is left after the
    corrupted ones are removed, the message is then the "No valid tiles
    available" one and there is no other error; with at least one
    non-corrupted candidate it returns a tile. *)
Theorem findBestTile_throws_iff_no_valid_tile (this : MosaicGenerator)
  (target : Color) (tiles : list TileObj) :
  (forall msg : string,
      findBestTile this target tiles = Throw msg <->
      validTiles this tiles = [] /\ msg = noValidTilesMsg) /\
  ((exists t : TileObj, In t tiles /\ path t ∉ corruptedTiles this) <->
   (exists best : TileObj, findBestTile this target tiles = Ok best)) /\
  index 0 "No valid tiles available" noValidTilesMsg = Some 0%nat.
Proof.
  split; [|split].
  - intros msg. unfold findBestTile.
    destruct (validTiles this tiles) as [|first rest].
    + split.
      * intros [= <-]. split; reflexivity.
      * intros [_ ->]. reflexivity.
    + split; [discriminate|]. intros [[=] _].
  - apply findBestTile_ok_iff.
  - reflexivity.
Qed.

(** ** Loops *)

Lemma forPush_Forall {S A : Type} (P : A -> Prop) (body : Z -> M S A) :
  (forall (i : Z) (s s' : S) (a : A), body i s = (Ok a, s') -> P a) ->
  forall (xs : list Z) (s s' : S) (out : list A),
    forPush xs body s = (Ok out, s') -> Forall P out.
Proof.
  intros Hbody xs. induction xs as [|i xs IH]; intros s s' out H.
  - injection H as <- _. constructor.
  - simpl in H. unfold bind in H.
    destruct (body i s) as [[a|msg] s1] eqn:Hb; [|discriminate].
    destruct (forPush xs body s1) as [[out'|msg] s2] eqn:Hf; [|discriminate].
    injection H as <- _. constructor.
    + eapply Hbody, Hb.
    + eapply IH, Hf.
Qed.


Lemma forPush_ext {S A : Type} (body1 body2 : Z -> M S A) :
  (forall (i : Z) (s : S), body1 i s = body2 i s) ->
  forall (xs : list Z) (s : S), forPush xs body1 s = forPush xs body2 s.
Proof.
  intros Hbody xs. induction xs as [|i xs IH]; intros s; [reflexivity|].
  simpl. unfold bind. rewrite Hbody.
  destruct (body2 i s) as [[a|msg] s1]; [|reflexivity].
  rewrite IH. reflexivity.
Qed.

(** An iteration that throws ends the loop with its error. *)
Lemma forPush_throws {S A : Type} (body : Z -> M S A) (before : list Z) (i : Z)
  (after : list Z) (s s1 s2 : S) (out : list A) (msg : string) :
  forPush before body s = (Ok out, s1) ->
  body i s1 = (Throw msg, s2) ->
  forPush (before ++ i :: after) body s = (Throw msg, s2).
Proof.
  revert s out. induction before as [|j before IH]; intros s out Hbefore Hthrow.
  - injection Hbefore as _ <-. simpl. unfold bind. rewrite Hthrow. reflexivity.
  - simpl in Hbefore. unfold bind in Hbefore.
    destruct (body j s) as [[a|m] s'] eqn:Hj; [|discriminate].
    destruct (forPush before body s') as [[out'|m] s''] eqn:Hrest; [|discriminate].
    injection Hbefore as _ <-.
    simpl. unfold bind. rewrite Hj. fold (@bind S (list A) (list A)).
    rewrite (IH s' out' Hrest Hthrow). reflexivity.
Qed.

Lemma allocTiles_fields (next : nat) (records : list TileRecord) :
  map fields (allocTiles next records) = records /\
  map ref (allocTiles next records) = seq next (length records).
Proof.
  revert next. induction records as [|t rest IH]; intros next; [auto|].
  simpl. destruct (IH (S next)) as [Hf Hr]. rewrite Hf, Hr. auto.
Qed.

Lemma length_upto (n : Z) : length (upto n) = Z.to_nat n.
Proof. unfold upto. rewrite length_map, length_seq. reflexivity. Qed.

(** ** Tile assignment *)

Lemma findBestTile_valid (this : MosaicGenerator) (target : Color)
  (tiles : list TileObj) (t : TileObj) :
  findBestTile this target tiles = Ok t ->
  In t tiles /\ path t ∉ corruptedTiles this.
Proof.
  unfold findBestTile.
  destruct (validTiles this tiles) as [|first rest] eqn:Hv; [discriminate|].
  intros [= <-]. apply validTiles_spec. rewrite Hv.
  clear Hv. generalize (colorDistanceSq target first).
  revert first. induction rest as [|u rest IH]; intros first d.
  - left. reflexivity.
  - simpl. destruct (num_ltb (colorDistanceSq target u) d).
    + destruct (IH u (colorDistanceSq target u)) as [<-|Hin].
      * right. left. reflexivity.
      * right. right. exact Hin.
    + destruct (IH first d) as [<-|Hin].
      * left. reflexivity.
      * right. right. exact Hin.
Qed.

Lemma availableTilesFor_incl (reuse : bool) (tiles : list TileObj)
  (usedTiles : gset nat) (t : TileObj) :
  In t (availableTilesFor reuse tiles usedTiles) -> In t tiles.
Proof.
  unfold availableTilesFor. destruct reuse; [auto|].
  destruct (List.filter _ tiles) as [|u rest] eqn:Hf; [auto|].
  intros Hin. rewrite <- Hf in Hin. apply filter_In in Hin. tauto.
Qed.


Lemma assignCell_valid (this : MosaicGenerator) (reuse : bool)
  (tiles : list TileObj) (inputData : list Z) (w y x : Z)
  (used used' : gset nat) (p : string) :
  assignCell this reuse tiles inputData w y x used = (Ok p, used') ->
  (p ∉ corruptedTiles this) /\ exists t : TileObj, In t tiles /\ path t = p.
Proof.
  unfold assignCell, bind, get. simpl.
  destruct (findBestTile this _ _) as [t|msg] eqn:Hbest; [|discriminate].
  apply findBestTile_valid in Hbest. destruct Hbest as [Hin Hok].
  apply availableTilesFor_incl in Hin.
  destruct reuse; simpl; intros [= <- _]; (split; [exact Hok|eauto]).
Qed.

Lemma tileImages_valid (this : MosaicGenerator) (reuse : bool)
  (tiles : list TileObj) (inputData : list Z) (w h : Z)
  (pattern : list (list string)) :
  tileImages this reuse tiles inputData w h = Ok pattern ->
  Forall (Forall (fun p : string =>
            (p ∉ corruptedTiles this) /\
            exists t : TileObj, In t tiles /\ path t = p)) pattern.
Proof.
  unfold tileImages, assignTiles. intros H.
  destruct (forPush (upto h) _ ∅) as [res used'] eqn:Hrows.
  simpl in H. subst res.
  eapply forPush_Forall; [|exact Hrows].
  intros y s s' row Hrow.
  eapply forPush_Forall; [|exact Hrow].
  intros x u u' p Hcell. eapply assignCell_valid, Hcell.
Qed.

Lemma findReplacement_valid (this : MosaicGenerator) (tiles : list TileObj)
  (target : Color) (t : TileObj) :
  findReplacement this tiles target = Ok t ->
  In t tiles /\ path t ∉ corruptedTiles this.
Proof.
  unfold findReplacement.
  destruct (validTiles this tiles) as [|first rest] eqn:Hv; [discriminate|].
  intros H. apply findBestTile_valid in H. destruct H as [Hin Hok].
  split; [|exact Hok]. rewrite <- Hv in Hin. apply validTiles_spec in Hin. tauto.
Qed.

(** C2: a tile is never chosen while its path is in the corrupted set.
    [findBestTile] returns a candidate whose path is not corrupted; every
    path of a tile pattern produced by the assignment loop is the path of a
    corpus tile and is not corrupted; and the replacement chosen by the base
    compositor for a cell whose tile failed is a corpus tile that is not
    corrupted, the failed path included. *)
Theorem chosen_tile_not_corrupted :
  (forall (this : MosaicGenerator) (target : Color) (tiles : list TileObj)
          (t : TileObj),
      findBestTile this target tiles = Ok t ->
      In t tiles /\ path t ∉ corruptedTiles this) /\
  (forall (this : MosaicGenerator) (reuse : bool) (tiles : list TileObj)
          (inputData : list Z) (w h : Z) (pattern : list (list string)),
      tileImages this reuse tiles inputData w h = Ok pattern ->
      forall (row : list string) (p : string),
        In row pattern -> In p row ->
        (p ∉ corruptedTiles this) /\
        exists t : TileObj, In t tiles /\ path t = p) /\
  (forall (this : MosaicGenerator) (tiles : list TileObj) (target : Color)
          (failed : string) (t : TileObj),
      findReplacement (addCorrupted failed this) tiles target = Ok t ->
      In t tiles /\ path t <> failed /\ path t ∉ corruptedTiles this).
Proof.
  split; [|split].
  - exact findBestTile_valid.
  - intros this reuse tiles inputData w h pattern H row p Hrow Hp.
    apply tileImages_valid in H.
    rewrite List.Forall_forall in H. specialize (H row Hrow).
    rewrite List.Forall_forall in H. exact (H p Hp).
  - intros this tiles target failed t H.
    apply findReplacement_valid in H. destruct H as [Hin Hok].
    simpl in Hok. split; [exact Hin|]. set_solver.
Qed.

Lemma chosen_tile_not_corrupted_witness :
  tileImages (withCorrupted {["a"%string]}) true
    [tileAt 0 "a" 0 0 0; tileAt 1 "b" 9 9 9] [0; 0; 0; 0; 0; 0] 2 1
  = Ok [["b"%string; "b"%string]] /\
  ("b"%string ∉ corruptedTiles (withCorrupted {["a"%string]})) /\
  exists t : TileObj,
    In t [tileAt 0 "a" 0 0 0; tileAt 1 "b" 9 9 9] /\ path t = "b"%string.
Proof.
  split; [vm_compute; reflexivity|].
  eapply (proj1 (proj2 chosen_tile_not_corrupted))
    with (reuse := true) (inputData := [0; 0; 0; 0; 0; 0]) (w := 2) (h := 1)
         (pattern := [["b"%string; "b"%string]])
         (row := ["b"%string; "b"%string]).
  - vm_compute. reflexivity.
  - left. reflexivity.
  - left. reflexivity.
Defined.

Lemma forPush_length {S A : Type} (body : Z -> M S A) (xs : list Z) :
  forall (s s' : S) (out : list A),
    forPush xs body s = (Ok out, s') -> length out = length xs.
Proof.
  induction xs as [|i xs IH]; intros s s' out H.
  - injection H as <- _. reflexivity.
  - simpl in H. unfold bind in H.
    destruct (body i s) as [[a|msg] s1]; [|discriminate].
    destruct (forPush xs body s1) as [[out'|msg] s2] eqn:Hf; [|discriminate].
    injection H as <- _. simpl. f_equal. eapply IH, Hf.
Qed.








Lemma findBestTile_indep (this1 this2 : MosaicGenerator) (target : Color)
  (tiles : list TileObj) :
  (forall t : TileObj, In t tiles -> path t ∉ corruptedTiles this1) ->
  (forall t : TileObj, In t tiles -> path t ∉ corruptedTiles this2) ->
  findBestTile this1 target tiles = findBestTile this2 target tiles.
Proof.
  intros H1 H2. unfold findBestTile.
  rewrite (validTiles_all this1 tiles H1), (validTiles_all this2 tiles H2).
  reflexivity.
Qed.

(** C10: matching has no input besides the corpus, the target colours and
    the reuse flag.  For two generator objects, whatever their other fields,
    neither of which holds a corpus path in its corrupted set,
    [findBestTile] returns the same tile and the assignment loop the same
    tile pattern. *)
Theorem matching_is_deterministic (this1 this2 : MosaicGenerator)
  (tiles : list TileObj) :
  (forall t : TileObj, In t tiles -> path t ∉ corruptedTiles this1) ->
  (forall t : TileObj, In t tiles -> path t ∉ corruptedTiles this2) ->
  (forall target : Color,
      findBestTile this1 target tiles = findBestTile this2 target tiles) /\
  (forall (reuse : bool) (inputData : list Z) (w h : Z),
      tileImages this1 reuse tiles inputData w h
      = tileImages this2 reuse tiles inputData w h).
Proof.
  intros H1 H2. split.
  - intros target. apply findBestTile_indep; assumption.
  - intros reuse inputData w h. unfold tileImages, assignTiles. f_equal.
    apply forPush_ext. intros y s. apply forPush_ext. intros x u.
    unfold assignCell, bind, get. simpl.
    rewrite (findBestTile_indep this1 this2).
    + reflexivity.
    + intros t Ht. apply H1. eapply availableTilesFor_incl, Ht.
    + intros t Ht. apply H2. eapply availableTilesFor_incl, Ht.
Qed.

Lemma matching_is_deterministic_witness :
  (forall target : Color,
      findBestTile newMosaicGenerator target
        [tileAt 0 "a" 1 2 3; tileAt 1 "b" 7 8 9]
      = findBestTile (withCorrupted {["z"%string]}) target
          [tileAt 0 "a" 1 2 3; tileAt 1 "b" 7 8 9]) /\
  (forall (reuse : bool) (inputData : list Z) (w h : Z),
      tileImages newMosaicGenerator reuse
        [tileAt 0 "a" 1 2 3; tileAt 1 "b" 7 8 9] inputData w h
      = tileImages (withCorrupted {["z"%string]}) reuse
          [tileAt 0 "a" 1 2 3; tileAt 1 "b" 7 8 9] inputData w h).
Proof.
  apply (matching_is_deterministic newMosaicGenerator
           (withCorrupted {["z"%string]})
           [tileAt 0 "a" 1 2 3; tileAt 1 "b" 7 8 9]).
  - intros t _. vm_compute. set_solver.
  - intros t [<-|[<-|[]]]; vm_compute; intros H; discriminate.
Defined.

(** The hypothesis on corrupted paths cannot be dropped: a corpus entry whose
    path is corrupted is still a candidate of the cell once the other tiles
    are used, so the fallback is not taken and [findBestTile] throws. *)
Example no_reuse_with_corrupted_entry :
  tileImages (withCorrupted {["b"%string]}) false
    [tileAt 0 "a" 1 2 3; tileAt 1 "b" 7 8 9] [0; 0; 0; 0; 0; 0] 2 1
  = Throw noValidTilesMsg.
Proof. vm_compute. reflexivity. Qed.

(** ** Frame Compositor *)

Section CompositorProperties.

Variable sharpRaw : nat -> string -> Z -> result (list Z).

Lemma compositeCell_loaded (tiles : list TileObj) (inputData : list Z)
  (w tsize : Z) (tilePath : string) (y x : Z) (run : Run) (buf : list Z) :
  sharpRaw (sharpCalls run) tilePath tsize = Ok buf ->
  compositeCell sharpRaw tiles inputData w tsize tilePath y x run
  = (Ok buf, {| self := self run; sharpCalls := S (sharpCalls run) |}).
Proof.
  intros H. unfold compositeCell, tryCatch, loadTile. rewrite H. reflexivity.
Qed.

Lemma compositeCell_failed (tiles : list TileObj) (inputData : list Z)
  (w tsize : Z) (tilePath : string) (y x : Z) (run : Run) (msg : string) :
  sharpRaw (sharpCalls run) tilePath tsize = Throw msg ->
  compositeCell sharpRaw tiles inputData w tsize tilePath y x run
  = match findReplacement (addCorrupted tilePath (self run)) tiles
            (targetColorAt inputData w y x) with
    | Throw m =>
        (Throw m, {| self := addCorrupted tilePath (self run);
                     sharpCalls := S (sharpCalls run) |})
    | Ok replacementTile =>
        (sharpRaw (S (sharpCalls run)) (path replacementTile) tsize,
         {| self := addCorrupted tilePath (self run);
            sharpCalls := S (S (sharpCalls run)) |})
    end.
Proof.
  intros H.
  unfold compositeCell, tryCatch, loadTile, markCorrupted, bind, modify, get, throw.
  rewrite H. simpl.
  destruct (findReplacement _ tiles _); reflexivity.
Qed.

Lemma findReplacement_none (this : MosaicGenerator) (tiles : list TileObj)
  (target : Color) :
  validTiles this tiles = [] ->
  findReplacement this tiles target = Throw noReplacementMsg.
Proof. intros H. unfold findReplacement. rewrite H. reflexivity. Qed.

Lemma validTiles_idem (this : MosaicGenerator) (tiles : list TileObj) :
  validTiles this (validTiles this tiles) = validTiles this tiles.
Proof.
  apply validTiles_all. intros t Ht. apply validTiles_spec in Ht. tauto.
Qed.

Lemma findReplacement_some (this : MosaicGenerator) (tiles : list TileObj)
  (target : Color) :
  validTiles this tiles <> [] ->
  findReplacement this tiles target = findBestTile this target tiles /\
  exists t : TileObj, findReplacement this tiles target = Ok t.
Proof.
  intros H. unfold findReplacement.
  destruct (validTiles this tiles) as [|first rest] eqn:Hv; [congruence|].
  rewrite <- Hv. unfold findBestTile at 1 3. rewrite validTiles_idem.
  split; [reflexivity|]. rewrite Hv. eexists. reflexivity.
Qed.

Lemma zoomCell_failed (newTileSize : Z) (tilePath : string) (run : Run)
  (msg : string) :
  sharpRaw (sharpCalls run) tilePath newTileSize = Throw msg ->
  zoomCell sharpRaw newTileSize tilePath run
  = (Ok (repeat 128 (Z.to_nat (newTileSize * newTileSize * 3))),
     {| self := self run; sharpCalls := S (sharpCalls run) |}).
Proof.
  intros H. unfold zoomCell, tryCatch, loadTile. rewrite H. reflexivity.
Qed.

(** C3 (as amended).  Base compositor: when loading the tile of a cell
    fails, the path is added to the corrupted set and the cell's target
    colour is read again from the input data; if no corpus tile is left
    outside the corrupted set the composition throws "No valid tiles
    remaining ..."; otherwise the replacement is the tile [findBestTile]
    picks for that colour among the corpus tiles that are not corrupted,
    and the cell gets the pixels loaded from the replacement's path.  Zoom
    compositor: when loading the tile of a cell fails, the cell gets a
    solid buffer of byte 128 of the new tile size, the corrupted set is
    left as it is, and nothing is thrown. *)
Theorem compositor_tile_failure (tiles : list TileObj) (inputData : list Z)
  (w tsize : Z) (tilePath : string) (y x : Z) (run : Run) (msg : string) :
  sharpRaw (sharpCalls run) tilePath tsize = Throw msg ->
  let this' := addCorrupted tilePath (self run) in
  let target := targetColorAt inputData w y x in
  let cell := compositeCell sharpRaw tiles inputData w tsize tilePath y x run in
  tilePath ∈ corruptedTiles (self (snd cell)) /\
  (validTiles this' tiles = [] ->
   cell = (Throw noReplacementMsg,
           {| self := this'; sharpCalls := S (sharpCalls run) |})) /\
  (validTiles this' tiles <> [] ->
   exists replacementTile : TileObj,
     findBestTile this' target tiles = Ok replacementTile /\
     In replacementTile tiles /\
     (path replacementTile ∉ corruptedTiles this') /\
     cell = (sharpRaw (S (sharpCalls run)) (path replacementTile) tsize,
             {| self := this'; sharpCalls := S (S (sharpCalls run)) |})) /\
  zoomCell sharpRaw tsize tilePath run
  = (Ok (repeat 128 (Z.to_nat (tsize * tsize * 3))),
     {| self := self run; sharpCalls := S (sharpCalls run) |}).
Proof.
  intros H this' target cell. subst cell.
  rewrite (compositeCell_failed tiles inputData w tsize tilePath y x run msg H).
  fold this' target. repeat split.
  - destruct (findReplacement this' tiles target); simpl; set_solver.
  - intros Hnone. rewrite (findReplacement_none this' tiles target Hnone).
    reflexivity.
  - intros Hsome.
    destruct (findReplacement_some this' tiles target Hsome) as [Heq [t Ht]].
    exists t. rewrite Ht. rewrite <- Heq.
    destruct (findReplacement_valid this' tiles target t Ht) as [Hin Hok].
    repeat split; assumption.
  - apply (zoomCell_failed tsize tilePath run msg H).
Qed.

End CompositorProperties.

Lemma compositor_tile_failure_witness :
  let sharpRaw := failingOn "a" [7; 8; 9] in
  let tiles := [tileAt 0 "a" 0 0 0; tileAt 1 "b" 7 8 9] in
  let this' := addCorrupted "a" newMosaicGenerator in
  let target := targetColorAt [0; 0; 0] 1 0 0 in
  let cell := compositeCell sharpRaw tiles [0; 0; 0] 1 1 "a" 0 0 freshRun in
  "a"%string ∈ corruptedTiles (self (snd cell)) /\
  (validTiles this' tiles = [] ->
   cell = (Throw noReplacementMsg, {| self := this'; sharpCalls := 1 |})) /\
  (validTiles this' tiles <> [] ->
   exists replacementTile : TileObj,
     findBestTile this' target tiles = Ok replacementTile /\
     In replacementTile tiles /\
     (path replacementTile ∉ corruptedTiles this') /\
     cell = (sharpRaw 1%nat (path replacementTile) 1,
             {| self := this'; sharpCalls := 2 |})) /\
  zoomCell sharpRaw 1 "a" freshRun
  = (Ok (repeat 128 (Z.to_nat (1 * 1 * 3))),
     {| self := newMosaicGenerator; sharpCalls := 1 |}).
Proof.
  exact (compositor_tile_failure (failingOn "a" [7; 8; 9])
           [tileAt 0 "a" 0 0 0; tileAt 1 "b" 7 8 9] [0; 0; 0] 1 1 "a" 0 0
           freshRun "Input file is missing" eq_refl).
Defined.

(** The base compositor on a one-cell grid whose tile fails to load: the
    raster holds the replacement's pixels and the failed path is corrupted. *)
Example generateMosaic_substitutes_replacement :
  let out := generateMosaic (failingOn "a" [7; 8; 9]) (fun _ _ => [0; 0; 0])
               [tileAt 0 "a" 0 0 0; tileAt 1 "b" 7 8 9]
               (mkMetadata 1 1) oneCell freshRun in
  fst out = Ok ({| width := 1; height := 1; tilesUsed := 1;
                   availableTiles := 2; corruptedCount := 1 |},
                {| rasterWidth := 1; rasterHeight := 1;
                   rasterData := [7; 8; 9] |}) /\
  lastTilePattern (self (snd out)) = Some [["a"%string]] /\
  "a"%string ∈ corruptedTiles (self (snd out)).
Proof. vm_compute. repeat split. Qed.

(** With no other tile in the corpus the whole composition throws. *)
Example generateMosaic_no_replacement :
  fst (generateMosaic (failingOn "a" [7; 8; 9]) (fun _ _ => [0; 0; 0])
         [tileAt 0 "a" 0 0 0] (mkMetadata 1 1) oneCell freshRun)
  = Throw noReplacementMsg.
Proof. vm_compute. reflexivity. Qed.

(** A 2 x 2 grid of 10-pixel tiles over four tiles of one colour each: the
    raster is 20 x 20 and each 10 x 10 quadrant has the colour of the tile
    matching that quadrant of the input. *)
Example generateMosaic_quadrants :
  let out := generateMosaic (solidTiles quadrantCorpus) (fun _ _ => quadrantInput)
               (allocTiles 0 quadrantCorpus) (mkMetadata 2 2) quadrantOptions
               freshRun in
  exists (summary : MosaicResult) (image : Raster),
    fst out = Ok (summary, image) /\
    width summary = 20 /\ height summary = 20 /\ tilesUsed summary = 4 /\
    length (rasterData image) = 1200%nat /\
    lastTilePattern (self (snd out))
    = Some [["blue.png"; "white.png"]; ["green.png"; "red.png"]]%string /\
    forallb (fun y =>
      forallb (fun x =>
        bool_decide
          (pixelAt image x y
           = firstn 3 (skipn (Z.to_nat ((y / 10 * 2 + x / 10) * 3)) quadrantInput)))
        (upto 20))
      (upto 20) = true.
Proof.
  eexists _, _. split; [vm_compute; reflexivity|]. vm_compute. repeat split.
Qed.

(** C3 as stated fails for the zoom-step compositor: with the tile of the
    only cell failing to load, the pass returns a raster of byte 128, throws
    nothing although no replacement exists, and leaves the corrupted set
    empty. *)
Lemma zoom_compositor_uses_gray :
  let out := generateZoomedMosaicFromPattern (failingOn "a" [7; 8; 9])
               [["a"%string]] 1 1 2 2 2 freshRun in
  fst out = Ok ({| rasterWidth := 2; rasterHeight := 2;
                   rasterData := repeat 128 12 |}, None) /\
  corruptedTiles (self (snd out)) = ∅ /\
  sharpCalls (snd out) = 1%nat.
Proof. vm_compute. repeat split. Qed.

(** ** Rounding *)


Lemma Qdiv_inject (a d : Z) :
  0 < d -> (inject_Z a / inject_Z d == a # Z.to_pos d)%Q.
Proof.
  intros Hd. destruct d as [|p|p]; try lia.
  unfold Qdiv, Qinv, Qmult, Qeq, inject_Z. simpl. lia.
Qed.

Lemma Math_floor_div (a d : Z) :
  0 < d -> Math_floor (inject_Z a / inject_Z d) = a / d.
Proof.
  intros Hd. unfold Math_floor. rewrite (Qdiv_inject a d Hd).
  unfold Qfloor. destruct d; try lia. reflexivity.
Qed.

Lemma Math_round_div (a d : Z) :
  0 < d -> Math_round (inject_Z a / inject_Z d) = (2 * a + d) / (2 * d).
Proof.
  intros Hd. unfold Math_round.
  assert (H : (inject_Z a / inject_Z d + (1 # 2)
               == (2 * a + d) # Z.to_pos (2 * d))%Q).
  { rewrite (Qdiv_inject a d Hd). destruct d as [|p|p]; try lia.
    unfold Qplus, Qeq. simpl. lia. }
  rewrite H. unfold Qfloor. destruct d; try lia. reflexivity.
Qed.


Lemma Qltb_div (a d m : Z) :
  0 < d -> Qltb (inject_Z a / inject_Z d) (inject_Z m) = (a <? m * d).
Proof.
  intros Hd. unfold Qltb.
  destruct (Z.ltb_spec a (m * d)) as [H|H].
  - apply negb_true_iff. apply not_true_is_false. intros Hle.
    apply Qle_bool_iff in Hle. rewrite (Qdiv_inject a d Hd) in Hle.
    unfold Qle, inject_Z in Hle. simpl in Hle.
    destruct d; try lia. simpl in Hle. lia.
  - apply negb_false_iff. apply Qle_bool_iff. rewrite (Qdiv_inject a d Hd).
    unfold Qle, inject_Z. simpl. destruct d; try lia. simpl. lia.
Qed.

Lemma nearest_quotient (a d : Z) :
  0 < d ->
  2 * a - d < 2 * d * ((2 * a + d) / (2 * d)) <= 2 * a + d.
Proof.
  intros Hd.
  pose proof (Z.mul_div_le (2 * a + d) (2 * d) ltac:(lia)).
  pose proof (Z.mul_succ_div_gt (2 * a + d) (2 * d) ltac:(lia)).
  lia.
Qed.

(** ** Grid Planner *)



(** ** Zoom tile size *)



(** ** Zoom Sequence Controller *)

Lemma upto_succ (n : Z) :
  0 <= n -> upto (n + 1) = 0 :: map (Z.add 1) (upto n).
Proof.
  intros Hn. unfold upto.
  replace (Z.to_nat (n + 1)) with (S (Z.to_nat n)) by lia.
  simpl. f_equal. rewrite <- seq_shift, !map_map.
  apply map_ext. intros j. lia.
Qed.

Lemma seq_shift_by (a start len : nat) :
  seq (a + start) len = map (Nat.add a) (seq start len).
Proof.
  revert start. induction len as [|len IH]; intros start; [reflexivity|].
  simpl. f_equal. rewrite <- IH. f_equal. lia.
Qed.

Arguments Math_floor : simpl never.
Arguments framePath : simpl never.

Section ZoomSequenceProperties.

Variable renderMosaic : Z -> string -> string -> result MosaicWithPattern.
Variable renderZoom :
  Z -> MosaicWithPattern -> Z -> Z -> Z -> string -> result unit.
Variables (baseOutputPath extension : string).
Variable options : ZoomOptions.

Hypothesis renderMosaic_returns :
  forall (n : Z) (input output : string),
    exists r : MosaicWithPattern, renderMosaic n input output = Ok r.
Hypothesis renderZoom_returns :
  forall (n : Z) (r : MosaicWithPattern) (tsize w h : Z) (output : string),
    renderZoom n r tsize w h output = Ok tt.
Hypothesis zoomSteps_nonneg : 0 <= zoomSteps options.

Let perIteration : Z := zoomSteps options + 1.

(** The frame of zoom step [1 + j] when the base mosaic of the iteration
    is frame [base]. *)
Let stepFrame (i base : Z) (j : nat) : Frame :=
  {| frameIteration := i;
     frameNumber := base + 1 + Z.of_nat j;
     frameStep := 1 + Z.of_nat j;
     frameFile := framePath baseOutputPath extension (base + 1 + Z.of_nat j) |}.

Lemma zoom_steps_run (i base : Z) (r : MosaicWithPattern) (n : nat) :
  forall (a : nat) (st : Controller),
    globalFrameNumber st = base + Z.of_nat a ->
    exists out : list unit,
      forPush (map (Z.add 1) (map Z.of_nat (seq a n)))
        (zoomStepBody renderZoom baseOutputPath extension options i r) st
      = (Ok out,
         {| currentInputPath := currentInputPath st;
            globalFrameNumber := base + Z.of_nat (a + n);
            written := written st ++ map (stepFrame i base) (seq a n) |}).
Proof.
  induction n as [|n IH]; intros a st Hg.
  - exists []. simpl. unfold ret. destruct st as [cur g w]. simpl in *.
    rewrite Nat.add_0_r, app_nil_r, Hg. reflexivity.
  - simpl forPush. unfold bind at 1.
    unfold zoomStepBody at 1. unfold bind, nextFrame, call, frameWritten, modify.
    rewrite renderZoom_returns. simpl.
    match goal with |- context [forPush _ _ ?s] =>
      destruct (IH (S a) s) as (out & ->); [simpl; lia|] end.
    exists (tt :: out). unfold ret. simpl. f_equal. f_equal.
    + f_equal. lia.
    + rewrite <- app_assoc. f_equal. simpl. f_equal.
      unfold stepFrame. rewrite Hg. f_equal; [lia|f_equal; lia].
Qed.

Lemma specIteration_unfold (i : Z) :
  specIteration baseOutputPath extension options i
  = specFrame baseOutputPath extension options i 0
    :: map (stepFrame i ((i - 1) * perIteration + 1))
         (seq 0 (Z.to_nat (zoomSteps options))).
Proof.
  unfold specIteration. rewrite (upto_succ _ zoomSteps_nonneg).
  simpl. f_equal. unfold upto. rewrite !map_map. apply map_ext.
  intros j. unfold specFrame, stepFrame, perIteration.
  f_equal; try lia. f_equal. lia.
Qed.

Lemma iteration_run (i : Z) (st : Controller) :
  1 <= i ->
  globalFrameNumber st = (i - 1) * perIteration ->
  exists st' : Controller,
    iteration renderMosaic renderZoom baseOutputPath extension options st
    = (Ok tt, st') /\
    globalFrameNumber st' = i * perIteration /\
    currentInputPath st'
    = framePath baseOutputPath extension (i * perIteration) /\
    written st'
    = written st ++ specIteration baseOutputPath extension options i.
Proof.
  intros Hi Hg. unfold iteration.
  unfold bind at 1. unfold get at 1.
  unfold bind at 1. unfold nextFrame at 1.
  unfold bind at 1. unfold call at 1.
  destruct (renderMosaic_returns (globalFrameNumber st + 1)
              (currentInputPath st)
              (framePath baseOutputPath extension (globalFrameNumber st + 1)))
    as (r & ->).
  unfold bind at 1. unfold frameWritten at 1, modify at 1.
  unfold bind at 1. unfold upto.
  match goal with |- context [forPush _ ?body ?s] =>
    destruct (zoom_steps_run
                (Math_floor (inject_Z (globalFrameNumber st)
                             / inject_Z (zoomSteps options + 1)) + 1)
                (globalFrameNumber st + 1) r
                (Z.to_nat (zoomSteps options)) 0%nat s) as (out & ->);
      [simpl; lia|]
  end.
  unfold modify. simpl.
  eexists. split; [reflexivity|]. simpl.
  assert (Hfloor : Math_floor (inject_Z (globalFrameNumber st)
                               / inject_Z (zoomSteps options + 1)) + 1 = i).
  { rewrite Math_floor_div by lia. rewrite Hg. unfold perIteration.
    rewrite Z.div_mul by lia. lia. }
  assert (Hend : globalFrameNumber st + 1
                 + Z.of_nat (Z.to_nat (zoomSteps options))
                 = i * perIteration).
  { rewrite Hg. unfold perIteration. lia. }
  rewrite Hend. split; [reflexivity|]. split; [reflexivity|].
  rewrite <- app_assoc. f_equal. rewrite specIteration_unfold.
  simpl. rewrite Hfloor. f_equal.
  - unfold specFrame. rewrite Hg. fold perIteration.
    replace ((i - 1) * perIteration + 1 + 0) with ((i - 1) * perIteration + 1)
      by lia.
    reflexivity.
  - rewrite Hg. reflexivity.
Qed.

(** The loop goes on exactly while fewer than [limit] whole iterations are
    counted in [globalFrameNumber]. *)
Lemma loopCondition_floor (limit : Z) (st : Controller) :
  maxIterations options = Some limit ->
  loopCondition options st
  = (Math_floor (inject_Z (globalFrameNumber st) / inject_Z perIteration)
     <? limit).
Proof.
  intros Hmax. unfold loopCondition. rewrite Hmax. fold perIteration.
  assert (Hper : 0 < perIteration) by (unfold perIteration; lia).
  rewrite (Qltb_div _ _ _ Hper), (Math_floor_div _ _ Hper).
  destruct (Z.ltb_spec (globalFrameNumber st) (limit * perIteration)) as [H|H];
    symmetry.
  - apply Z.ltb_lt. apply Z.div_lt_upper_bound; lia.
  - apply Z.ltb_ge. apply Z.div_le_lower_bound; lia.
Qed.

Lemma zoomLoop_run (limit : Z) :
  maxIterations options = Some limit ->
  forall (fuel : nat) (done : Z) (st : Controller),
    0 <= done <= limit ->
    globalFrameNumber st = done * perIteration ->
    (Z.to_nat (limit - done) <= fuel)%nat ->
    exists st' : Controller,
      zoomLoop renderMosaic renderZoom baseOutputPath extension options fuel st
      = (Ok Finished, st') /\
      globalFrameNumber st' = limit * perIteration /\
      written st'
      = written st ++
        flat_map (specIteration baseOutputPath extension options)
          (map (fun j : nat => done + 1 + Z.of_nat j)
             (seq 0 (Z.to_nat (limit - done)))).
Proof.
  intros Hmax fuel.
  assert (Hper : 0 < perIteration) by (unfold perIteration; lia).
  assert (Hcond : forall (done : Z) (st : Controller),
             globalFrameNumber st = done * perIteration ->
             loopCondition options st = (done <? limit)).
  { intros done st Hg. rewrite (loopCondition_floor limit st Hmax).
    rewrite (Math_floor_div _ _ Hper), Hg, Z.div_mul by lia. reflexivity. }
  induction fuel as [|fuel IH]; intros done st Hdone Hg Hfuel.
  - assert (done = limit) by lia. subst done.
    exists st. simpl. unfold bind, get.
    rewrite (Hcond limit st Hg), Z.ltb_irrefl. unfold ret.
    rewrite Z.sub_diag. simpl. rewrite app_nil_r. auto.
  - simpl. unfold bind at 1. unfold get at 1.
    rewrite (Hcond done st Hg).
    destruct (Z.ltb_spec done limit) as [Hlt|Hge].
    + destruct (iteration_run (done + 1) st) as (st1 & Hrun & Hg1 & _ & Hw1).
      * lia.
      * rewrite Hg. f_equal. lia.
      * unfold bind. rewrite Hrun.
        destruct (IH (done + 1) st1) as (st' & Hloop & Hg' & Hw').
        -- lia.
        -- exact Hg1.
        -- lia.
        -- exists st'. split; [exact Hloop|]. split; [exact Hg'|].
           rewrite Hw', Hw1, <- app_assoc. f_equal.
           replace (Z.to_nat (limit - done))
             with (S (Z.to_nat (limit - (done + 1)))) by lia.
           simpl. rewrite Z.add_0_r. f_equal.
           rewrite <- seq_shift, map_map. f_equal.
           apply map_ext. intros j. lia.
    + assert (done = limit) by lia. subst done.
      exists st. unfold ret. rewrite Z.sub_diag. simpl.
      rewrite app_nil_r. auto.
Qed.

Lemma specIteration_frames (i : Z) (f : Frame) :
  In f (specIteration baseOutputPath extension options i) ->
  frameIteration f = i /\
  0 <= frameStep f <= zoomSteps options /\
  frameNumber f = (i - 1) * perIteration + 1 + frameStep f /\
  frameFile f = framePath baseOutputPath extension (frameNumber f).
Proof.
  unfold specIteration, upto. rewrite map_map. intros Hin.
  apply in_map_iff in Hin. destruct Hin as (j & <- & Hj).
  apply in_seq in Hj. unfold specFrame, perIteration. simpl.
  repeat split; lia.
Qed.

Lemma specIteration_numbers (i : Z) :
  map frameNumber (specIteration baseOutputPath extension options i)
  = map (Z.add ((i - 1) * perIteration + 1)) (upto perIteration).
Proof.
  unfold specIteration. rewrite map_map. apply map_ext. intros j.
  unfold specFrame, perIteration. simpl. lia.
Qed.

Lemma upto_app (a c : Z) :
  0 <= a -> 0 <= c -> upto (a + c) = upto a ++ map (Z.add a) (upto c).
Proof.
  intros Ha Hc. unfold upto.
  replace (Z.to_nat (a + c)) with (Z.to_nat a + Z.to_nat c)%nat by lia.
  rewrite seq_app, map_app. f_equal. simpl.
  rewrite <- (Nat.add_0_r (Z.to_nat a)) at 1.
  rewrite seq_shift_by, !map_map. apply map_ext. intros j. lia.
Qed.

Lemma specSequence_numbers (count : nat) :
  map frameNumber
    (flat_map (specIteration baseOutputPath extension options)
       (map (fun j : nat => 0 + 1 + Z.of_nat j) (seq 0 count)))
  = map (Z.add 1) (upto (Z.of_nat count * perIteration)).
Proof.
  assert (Hper : 0 < perIteration) by (unfold perIteration; lia).
  induction count as [|count IH]; [reflexivity|].
  rewrite seq_S, map_app, flat_map_app, map_app, IH. simpl.
  rewrite app_nil_r, specIteration_numbers.
  replace (Z.of_nat (S count) * perIteration)
    with (Z.of_nat count * perIteration + perIteration) by lia.
  rewrite upto_app by lia. rewrite map_app. f_equal.
  rewrite !map_map. apply map_ext. intros j. lia.
Qed.

Lemma zoom_sequence_run (limit : Z) (inputImagePath : string) (fuel : nat) :
  maxIterations options = Some limit ->
  0 <= limit ->
  (Z.to_nat limit <= fuel)%nat ->
  exists st' : Controller,
    generateInfiniteZoomMosaic renderMosaic renderZoom baseOutputPath
      extension options inputImagePath fuel = (Ok Finished, st') /\
    globalFrameNumber st' = limit * (zoomSteps options + 1) /\
    written st' = specSequence baseOutputPath extension options limit /\
    map frameNumber (written st')
    = map (Z.add 1) (upto (limit * (zoomSteps options + 1))) /\
    (forall f : Frame, In f (written st') ->
       1 <= frameIteration f <= limit /\
       0 <= frameStep f <= zoomSteps options /\
       frameNumber f
       = (frameIteration f - 1) * (zoomSteps options + 1) + 1 + frameStep f /\
       frameFile f = framePath baseOutputPath extension (frameNumber f)).
Proof.
  intros Hmax Hlimit Hfuel. unfold generateInfiniteZoomMosaic.
  destruct (zoomLoop_run limit Hmax fuel 0
              {| currentInputPath := inputImagePath;
                 globalFrameNumber := 0; written := [] |})
    as (st' & Hrun & Hg & Hw); [lia|reflexivity|rewrite Z.sub_0_r; exact Hfuel|].
  simpl in Hw. rewrite Z.sub_0_r in Hw.
  exists st'. split; [exact Hrun|]. split; [exact Hg|].
  assert (Hspec : written st'
                  = specSequence baseOutputPath extension options limit).
  { rewrite Hw. unfold specSequence, upto. rewrite map_map. reflexivity. }
  split; [exact Hspec|]. split.
  - rewrite Hw, specSequence_numbers. fold perIteration.
    rewrite Z2Nat.id by lia. reflexivity.
  - intros f Hf. rewrite Hspec in Hf. unfold specSequence in Hf.
    apply in_flat_map in Hf. destruct Hf as (i & Hi & Hf).
    apply in_map_iff in Hi. destruct Hi as (j & <- & Hj).
    unfold upto in Hj. apply in_map_iff in Hj. destruct Hj as (k & <- & Hk).
    apply in_seq in Hk.
    destruct (specIteration_frames _ _ Hf) as (Hit & Hstep & Hnum & Hfile).
    rewrite Hit. fold perIteration. repeat split; try assumption; lia.
Qed.

End ZoomSequenceProperties.

Lemma string_length_app (s1 s2 : string) :
  String.length (s1 ++ s2) = (String.length s1 + String.length s2)%nat.
Proof.
  induction s1 as [|c s1 IH]; [reflexivity|]. simpl. rewrite IH. reflexivity.
Qed.

Lemma string_length_zeros (n : nat) :
  String.length (string_of_list_ascii (repeat "0"%char n)) = n.
Proof.
  induction n as [|n IH]; [reflexivity|]. simpl. rewrite IH. reflexivity.
Qed.

Lemma padStart_length (targetLength : nat) (s : string) :
  (targetLength <= String.length (padStart targetLength s))%nat /\
  (String.length s <= String.length (padStart targetLength s))%nat.
Proof.
  unfold padStart. rewrite string_length_app, string_length_zeros. lia.
Qed.

(** C7: the frames of a bounded zoom sequence.  With [zoomSteps = S >= 0],
    [maxIterations = M >= 0] and renderers that return, the loop ends after
    [M] iterations with the counter at [M*(S+1)]; the frames written are
    numbered 1, 2, ..., [M*(S+1)] in the order written, the counter starting
    at 0 and growing by one before each frame; iteration [i] writes the
    frames [(i-1)*(S+1)+1] to [i*(S+1)], its base mosaic first and its zoom
    step [k] as frame [(i-1)*(S+1)+1+k]; every file name is the base path,
    an underscore, the frame number padded with zeros to at least 4
    characters, and the extension.  The loop goes on exactly while
    [floor(globalFrameNumber/(S+1)) < M].  With [S = 4], iteration 1 writes
    0001 to 0005 and iteration 2 starts at 0006. *)
Theorem zoom_sequence_frame_numbering :
  (forall (renderMosaic : Z -> string -> string -> result MosaicWithPattern)
          (renderZoom : Z -> MosaicWithPattern -> Z -> Z -> Z -> string
                        -> result unit)
          (baseOutputPath extension : string) (options : ZoomOptions)
          (limit : Z) (inputImagePath : string) (fuel : nat),
      (forall (n : Z) (input output : string),
          exists r : MosaicWithPattern, renderMosaic n input output = Ok r) ->
      (forall (n : Z) (r : MosaicWithPattern) (tsize w h : Z) (output : string),
          renderZoom n r tsize w h output = Ok tt) ->
      0 <= zoomSteps options ->
      maxIterations options = Some limit ->
      0 <= limit ->
      (Z.to_nat limit <= fuel)%nat ->
      exists st' : Controller,
        generateInfiniteZoomMosaic renderMosaic renderZoom baseOutputPath
          extension options inputImagePath fuel = (Ok Finished, st') /\
        globalFrameNumber st' = limit * (zoomSteps options + 1) /\
        written st' = specSequence baseOutputPath extension options limit /\
        map frameNumber (written st')
        = map (Z.add 1) (upto (limit * (zoomSteps options + 1))) /\
        (forall f : Frame, In f (written st') ->
           1 <= frameIteration f <= limit /\
           0 <= frameStep f <= zoomSteps options /\
           frameNumber f
           = (frameIteration f - 1) * (zoomSteps options + 1) + 1 + frameStep f /\
           frameFile f = framePath baseOutputPath extension (frameNumber f))) /\
  (forall (options : ZoomOptions) (limit : Z) (st : Controller),
      0 <= zoomSteps options ->
      maxIterations options = Some limit ->
      loopCondition options st
      = (Math_floor (inject_Z (globalFrameNumber st)
                     / inject_Z (zoomSteps options + 1)) <? limit)) /\
  (forall (baseOutputPath extension : string) (n : Z),
      framePath baseOutputPath extension n
      = (baseOutputPath ++ "_" ++ padStart 4 (numToString (Int n))
         ++ extension)%string /\
      (4 <= String.length (padStart 4 (numToString (Int n))))%nat) /\
  map (fun f : Frame => (frameIteration f, frameStep f, frameFile f))
    (written (snd (generateInfiniteZoomMosaic
                     (fun (_ : Z) (_ _ : string) =>
                        Ok (mkWithPattern (mkResult 0 0 0 0 0) None None None))
                     (fun (_ : Z) (_ : MosaicWithPattern) (_ _ _ : Z)
                          (_ : string) => Ok tt)
                     "zoom" ".png" (mkZoomOptions (9 # 10) (Some 2) 4 None)
                     "photo.jpg" 2)))
  = [(1, 0, "zoom_0001.png"); (1, 1, "zoom_0002.png"); (1, 2, "zoom_0003.png");
     (1, 3, "zoom_0004.png"); (1, 4, "zoom_0005.png"); (2, 0, "zoom_0006.png");
     (2, 1, "zoom_0007.png"); (2, 2, "zoom_0008.png"); (2, 3, "zoom_0009.png");
     (2, 4, "zoom_0010.png")]%string /\
  map frameNumber
    (specIteration "zoom" ".png" (mkZoomOptions (9 # 10) (Some 2) 4 None) 1)
  = [1; 2; 3; 4; 5] /\
  map frameNumber
    (specIteration "zoom" ".png" (mkZoomOptions (9 # 10) (Some 2) 4 None) 2)
  = [6; 7; 8; 9; 10].
Proof.
  split; [|split; [|split; [|split; [|split]]]].
  - intros renderMosaic renderZoom baseOutputPath extension options limit
      inputImagePath fuel Hmosaic Hzoom Hsteps Hmax Hlimit Hfuel.
    apply zoom_sequence_run; assumption.
  - intros options limit st Hsteps Hmax.
    apply loopCondition_floor; assumption.
  - intros baseOutputPath extension n. split; [reflexivity|].
    apply padStart_length.
  - vm_compute. reflexivity.
  - vm_compute. reflexivity.
  - vm_compute. reflexivity.
Qed.

Lemma zoom_sequence_frame_numbering_witness :
  let renderMosaic := fun (_ : Z) (_ _ : string) =>
    Ok (mkWithPattern (mkResult 0 0 0 0 0) None None None) in
  let renderZoom := fun (_ : Z) (_ : MosaicWithPattern) (_ _ _ : Z) (_ : string) =>
    Ok tt in
  let options := mkZoomOptions (9 # 10) (Some 3) 8 None in
  exists st' : Controller,
    generateInfiniteZoomMosaic renderMosaic renderZoom "out/zoom" ".png"
      options "photo.jpg" 5 = (Ok Finished, st') /\
    globalFrameNumber st' = 3 * (zoomSteps options + 1) /\
    written st' = specSequence "out/zoom" ".png" options 3 /\
    map frameNumber (written st')
    = map (Z.add 1) (upto (3 * (zoomSteps options + 1))) /\
    (forall f : Frame, In f (written st') ->
       1 <= frameIteration f <= 3 /\
       0 <= frameStep f <= zoomSteps options /\
       frameNumber f
       = (frameIteration f - 1) * (zoomSteps options + 1) + 1 + frameStep f /\
       frameFile f = framePath "out/zoom" ".png" (frameNumber f)).
Proof.
  apply (proj1 zoom_sequence_frame_numbering).
  - intros n input output. eexists. reflexivity.
  - intros n r tsize w h output. reflexivity.
  - simpl. lia.
  - reflexivity.
  - lia.
  - simpl. lia.
Defined.

(** ** Strings *)

Lemma split_plain (c : ascii) (s : string) :
  hasChar c s = false -> split c s = [s].
Proof.
  induction s as [|c' s IH]; [reflexivity|].
  simpl. destruct (Ascii.eqb c' c); [discriminate|]. simpl.
  intros H. rewrite (IH H). reflexivity.
Qed.

Lemma split_app (c : ascii) (s rest : string) :
  hasChar c s = false ->
  split c (s ++ String c rest) = s :: split c rest.
Proof.
  induction s as [|c' s IH]; simpl.
  - rewrite Ascii.eqb_refl. reflexivity.
  - destruct (Ascii.eqb c' c); [discriminate|]. simpl.
    intros H. rewrite (IH H). reflexivity.
Qed.

Lemma split_join (c : ascii) (parts : list string) :
  parts <> [] ->
  Forall (fun part => hasChar c part = false) parts ->
  split c (join (String c EmptyString) parts) = parts.
Proof.
  intros Hne Hall. induction Hall as [|part rest Hpart Hrest IH]; [congruence|].
  destruct rest as [|next rest].
  - simpl. apply split_plain, Hpart.
  - change (join (String c EmptyString) (part :: next :: rest))
      with (part ++ String c (join (String c EmptyString) (next :: rest)))%string.
    rewrite (split_app c part _ Hpart). f_equal. apply IH. discriminate.
Qed.

Lemma trimEnd_plain (s : string) :
  allChars (fun c => negb (isWhiteSpace c)) s = true -> trimEnd s = s.
Proof.
  induction s as [|c s IH]; [reflexivity|].
  simpl. intros H. apply andb_prop in H. destruct H as [Hc Hs].
  rewrite (IH Hs). apply negb_true_iff in Hc. rewrite Hc.
  destruct s; reflexivity.
Qed.

Lemma trimStart_plain (s : string) :
  allChars (fun c => negb (isWhiteSpace c)) s = true -> trimStart s = s.
Proof.
  destruct s as [|c s]; [reflexivity|].
  simpl. intros H. apply andb_prop in H. destruct H as [Hc _].
  apply negb_true_iff in Hc. rewrite Hc. reflexivity.
Qed.

Lemma trim_plain (s : string) :
  allChars (fun c => negb (isWhiteSpace c)) s = true -> trim s = s.
Proof.
  intros H. unfold trim. rewrite (trimStart_plain s H). apply trimEnd_plain, H.
Qed.

Lemma trimEnd_app (s1 s2 : string) :
  s2 <> EmptyString -> trimEnd s2 = s2 -> trimEnd (s1 ++ s2) = (s1 ++ s2)%string.
Proof.
  intros Hne Hkeep. induction s1 as [|c s1 IH]; [exact Hkeep|].
  change (trimEnd (String c (s1 ++ s2)) = String c (s1 ++ s2)).
  simpl. rewrite IH. destruct (s1 ++ s2)%string eqn:Happ; [|reflexivity].
  destruct s1; [|discriminate Happ]. change (s2 = EmptyString) in Happ.
  congruence.
Qed.

Lemma allChars_impl (p q : ascii -> bool) (s : string) :
  (forall c, p c = true -> q c = true) ->
  allChars p s = true -> allChars q s = true.
Proof.
  intros Hpq. induction s as [|c s IH]; [reflexivity|].
  simpl. intros H. apply andb_prop in H. destruct H as [Hc Hs].
  rewrite (Hpq c Hc), (IH Hs). reflexivity.
Qed.

Lemma allChars_hasChar (c : ascii) (s : string) :
  allChars (fun c' => negb (Ascii.eqb c' c)) s = true -> hasChar c s = false.
Proof.
  induction s as [|c' s IH]; [reflexivity|].
  simpl. intros H. apply andb_prop in H. destruct H as [Hc Hs].
  apply negb_true_iff in Hc. rewrite Hc, (IH Hs). reflexivity.
Qed.

(** ** Numbers as text *)


Lemma digitChar_code (d : Z) :
  0 <= d < 10 -> N_of_ascii (digitChar d) = (48 + Z.to_N d)%N.
Proof.
  intros Hd. unfold digitChar. apply N_ascii_embedding. lia.
Qed.

Lemma digitChar_isDigit (d : Z) : 0 <= d < 10 -> isDigit (digitChar d) = true.
Proof.
  intros Hd. unfold isDigit. rewrite (digitChar_code d Hd).
  apply andb_true_intro. split; apply N.leb_le; lia.
Qed.

Lemma digitChar_value (d : Z) :
  0 <= d < 10 -> digitValue 10 (digitChar d) = Some d.
Proof.
  intros Hd. unfold digitValue. rewrite (digitChar_code d Hd).
  replace (Z.of_N (48 + Z.to_N d)) with (48 + d) by lia.
  replace ((48 <=? 48 + d) && (48 + d <=? 57)) with true
    by (symmetry; apply andb_true_intro; split; apply Z.leb_le; lia).
  replace (48 + d - 48) with d by lia.
  replace (d <? 10) with true by (symmetry; apply Z.ltb_lt; lia).
  reflexivity.
Qed.

Lemma digitsAcc_isDigit (fuel : nat) :
  forall (n : Z) (acc : string),
    0 <= n ->
    allChars isDigit acc = true ->
    allChars isDigit (digitsAcc fuel n acc) = true.
Proof.
  induction fuel as [|fuel IH]; intros n acc Hn Hacc.
  - simpl. rewrite Hacc. fold (digitChar (n mod 10)).
    rewrite digitChar_isDigit by (apply Z.mod_pos_bound; lia). reflexivity.
  - simpl. fold (digitChar (n mod 10)).
    assert (Hacc' : allChars isDigit (String (digitChar (n mod 10)) acc) = true).
    { simpl. rewrite Hacc.
      rewrite digitChar_isDigit by (apply Z.mod_pos_bound; lia). reflexivity. }
    destruct (n <? 10); [exact Hacc'|].
    apply IH; [apply Z.div_pos; lia|exact Hacc'].
Qed.

Lemma digitsAcc_nonempty (fuel : nat) (n : Z) (acc : string) :
  digitsAcc fuel n acc <> EmptyString.
Proof.
  revert n acc. induction fuel as [|fuel IH]; intros n acc; simpl.
  - discriminate.
  - destruct (n <? 10); [discriminate|apply IH].
Qed.

Lemma readDigits_digitsAcc (fuel : nat) :
  forall (n : Z) (acc : string) (v0 : option Z),
    0 <= n < 2 ^ (Z.of_nat fuel + 1) ->
    default 0 v0 = 0 ->
    readDigits 10 v0 (digitsAcc fuel n acc) = readDigits 10 (Some n) acc.
Proof.
  induction fuel as [|fuel IH]; intros n acc v0 Hn Hv0.
  - simpl digitsAcc. fold (digitChar (n mod 10)). simpl readDigits.
    change (2 ^ (Z.of_nat 0 + 1)) with 2 in Hn.
    rewrite Z.mod_small by lia.
    rewrite digitChar_value by lia. rewrite Hv0. reflexivity.
  - simpl digitsAcc. fold (digitChar (n mod 10)).
    destruct (Z.ltb_spec n 10) as [Hlt|Hge].
    + simpl readDigits. rewrite Z.mod_small by lia.
      rewrite digitChar_value by lia. rewrite Hv0. reflexivity.
    + rewrite IH; [|split|exact Hv0].
      * simpl readDigits.
        rewrite digitChar_value by (apply Z.mod_pos_bound; lia).
        simpl default. f_equal. f_equal.
        pose proof (Z.div_mod n 10 ltac:(lia)). lia.
      * apply Z.div_pos; lia.
      * apply Z.div_lt_upper_bound; [lia|].
        replace (Z.of_nat (S fuel) + 1) with (Z.succ (Z.of_nat fuel + 1)) in Hn by lia.
        rewrite Z.pow_succ_r in Hn by lia. lia.
Qed.

Lemma digits_bound (n : Z) : 0 <= n -> 0 <= n < 2 ^ (Z.of_nat (Z.to_nat (Z.log2 n)) + 1).
Proof.
  intros Hn. rewrite Z2Nat.id by apply Z.log2_nonneg.
  destruct (Z.eq_dec n 0) as [->|Hne]; [simpl; lia|].
  pose proof (Z.log2_spec n ltac:(lia)) as H.
  replace (Z.log2 n + 1) with (Z.succ (Z.log2 n)) by lia. lia.
Qed.

Lemma readDigits_digits (n : Z) :
  0 <= n -> readDigits 10 None (digits n) = Some n.
Proof.
  intros Hn. unfold digits.
  rewrite readDigits_digitsAcc; [reflexivity|apply digits_bound, Hn|reflexivity].
Qed.

Lemma digits_isDigit (n : Z) : 0 <= n -> allChars isDigit (digits n) = true.
Proof. intros Hn. apply digitsAcc_isDigit; [exact Hn|reflexivity]. Qed.

Lemma isDigit_cases (c : ascii) :
  isDigit c = true ->
  isWhiteSpace c = false /\ Ascii.eqb c "-" = false /\ Ascii.eqb c "+" = false /\
  Ascii.eqb c "x" = false /\ Ascii.eqb c "X" = false /\
  Ascii.eqb c comma = false /\ Ascii.eqb c newline = false.
Proof.
  destruct c as [[] [] [] [] [] [] [] []]; vm_compute; intros H;
    try discriminate H; repeat split.
Qed.

Lemma radixOf_digits (n : Z) : 0 <= n -> radixOf (digits n) = (10, digits n).
Proof.
  intros Hn. pose proof (digits_isDigit n Hn) as Hall. unfold radixOf.
  destruct (digits n) as [|c0 [|c1 rest]]; try reflexivity.
  simpl in Hall. apply andb_prop in Hall. destruct Hall as [_ Hrest].
  apply andb_prop in Hrest. destruct Hrest as [Hc1 _].
  destruct (isDigit_cases c1 Hc1) as (_ & _ & _ & Hx & HX & _).
  rewrite Hx, HX, andb_false_r. reflexivity.
Qed.

Lemma signOf_digits (n : Z) : 0 <= n -> signOf (digits n) = (1, digits n).
Proof.
  intros Hn. pose proof (digits_isDigit n Hn) as Hall. unfold signOf.
  destruct (digits n) as [|c rest]; [reflexivity|].
  simpl in Hall. apply andb_prop in Hall. destruct Hall as [Hc _].
  destruct (isDigit_cases c Hc) as (_ & Hminus & Hplus & _).
  rewrite Hminus, Hplus. reflexivity.
Qed.

Lemma trimStart_digits (n : Z) : 0 <= n -> trimStart (digits n) = digits n.
Proof.
  intros Hn. apply trimStart_plain.
  apply (allChars_impl isDigit); [|apply digits_isDigit, Hn].
  intros c Hc. destruct (isDigit_cases c Hc) as (Hws & _). rewrite Hws. reflexivity.
Qed.

Lemma parseInt_numToString (n : num) : parseInt (numToString n) = n.
Proof.
  destruct n as [z|]; [|reflexivity].
  unfold numToString. destruct (Z.ltb_spec z 0) as [Hneg|Hpos].
  - unfold parseInt. change (trimStart (String "-" (digits (- z))))
      with (String "-" (digits (- z))).
    change (signOf (String "-" (digits (- z)))) with (-1, digits (- z)).
    cbv beta iota. rewrite radixOf_digits by lia.
    cbv beta iota. rewrite readDigits_digits by lia. f_equal. lia.
  - unfold parseInt. rewrite trimStart_digits, signOf_digits by lia.
    cbv beta iota. rewrite radixOf_digits by lia.
    cbv beta iota. rewrite readDigits_digits by lia. f_equal. lia.
Qed.

Lemma numToString_plain (n : num) : allChars plainChar (numToString n) = true.
Proof.
  assert (Hdigits : forall m : Z, 0 <= m -> allChars plainChar (digits m) = true).
  { intros m Hm. apply (allChars_impl isDigit); [|apply digits_isDigit, Hm].
    intros c Hc. destruct (isDigit_cases c Hc) as (Hws & _ & _ & _ & _ & Hcomma & Hnl).
    unfold plainChar. rewrite Hws, Hcomma, Hnl. reflexivity. }
  destruct n as [z|]; [|reflexivity].
  unfold numToString. destruct (Z.ltb_spec z 0).
  - simpl. rewrite Hdigits by lia. reflexivity.
  - apply Hdigits. lia.
Qed.

Lemma numToString_nonempty (n : num) : numToString n <> EmptyString.
Proof.
  destruct n as [z|]; [|discriminate].
  unfold numToString. destruct (z <? 0); [discriminate|apply digitsAcc_nonempty].
Qed.

Lemma plain_no_comma (s : string) :
  allChars plainChar s = true -> hasChar comma s = false.
Proof.
  intros H. apply allChars_hasChar. revert H. apply allChars_impl.
  intros c Hc. unfold plainChar in Hc.
  apply andb_prop in Hc. destruct Hc as [Hc _].
  apply andb_prop in Hc. destruct Hc as [_ Hc]. exact Hc.
Qed.

Lemma plain_no_newline (s : string) :
  allChars plainChar s = true -> hasChar newline s = false.
Proof.
  intros H. apply allChars_hasChar. revert H. apply allChars_impl.
  intros c Hc. unfold plainChar in Hc.
  apply andb_prop in Hc. destruct Hc as [_ Hc]. exact Hc.
Qed.

Lemma plain_trim (s : string) : allChars plainChar s = true -> trim s = s.
Proof.
  intros H. apply trim_plain. revert H. apply allChars_impl.
  intros c Hc. unfold plainChar in Hc.
  apply andb_prop in Hc. destruct Hc as [Hc _].
  apply andb_prop in Hc. destruct Hc as [Hc _]. exact Hc.
Qed.

Lemma hasChar_app (c : ascii) (s1 s2 : string) :
  hasChar c (s1 ++ s2) = hasChar c s1 || hasChar c s2.
Proof.
  induction s1 as [|c' s1 IH]; [reflexivity|].
  change (hasChar c (String c' (s1 ++ s2)) = hasChar c (String c' s1) || hasChar c s2).
  simpl. rewrite IH, orb_assoc. reflexivity.
Qed.

(** ** Tile cache *)

Lemma csvLine_join (t : TileRecord) :
  csvLine t
  = join (String comma EmptyString)
      [path t; numToString (r t); numToString (g t); numToString (b t)].
Proof. reflexivity. Qed.

Lemma parseCsvLine_csvLine (t : TileRecord) :
  cacheRecord t -> parseCsvLine (csvLine t) = Some t.
Proof.
  intros ((Hne & Hcomma & _ & Htrim) & _). unfold parseCsvLine.
  rewrite csvLine_join, split_join; [|discriminate|].
  - destruct t as [p [cr cg cb]]. simpl in *.
    pose proof (numToString_nonempty cr) as Hr.
    pose proof (numToString_nonempty cg) as Hg.
    pose proof (numToString_nonempty cb) as Hb.
    destruct p as [|pc prest]; [congruence|].
    destruct (numToString cr) as [|c1 s1] eqn:Er; [congruence|].
    destruct (numToString cg) as [|c2 s2] eqn:Eg; [congruence|].
    destruct (numToString cb) as [|c3 s3] eqn:Eb; [congruence|].
    rewrite Htrim, <- Er, <- Eg, <- Eb.
    rewrite !plain_trim by apply numToString_plain.
    rewrite !parseInt_numToString. reflexivity.
  - repeat constructor; try exact Hcomma;
      apply plain_no_comma, numToString_plain.
Qed.

Lemma append_nonempty_r (s1 s2 : string) :
  s2 <> EmptyString -> (s1 ++ s2)%string <> EmptyString.
Proof.
  intros Hne. destruct s1; [exact Hne|discriminate].
Qed.

Lemma keptByTrimEnd_app (s1 s2 : string) :
  keptByTrimEnd s2 -> keptByTrimEnd (s1 ++ s2).
Proof.
  intros [Hne Hkeep]. split.
  - apply append_nonempty_r, Hne.
  - apply trimEnd_app; assumption.
Qed.

Lemma keptByTrimEnd_plain (s : string) :
  s <> EmptyString -> allChars plainChar s = true -> keptByTrimEnd s.
Proof.
  intros Hne Hplain. split; [exact Hne|].
  apply trimEnd_plain. revert Hplain. apply allChars_impl.
  intros c Hc. unfold plainChar in Hc.
  apply andb_prop in Hc. destruct Hc as [Hc _].
  apply andb_prop in Hc. destruct Hc as [Hc _]. exact Hc.
Qed.

Lemma keptByTrimEnd_join (sep : string) (parts : list string) :
  parts <> [] ->
  Forall keptByTrimEnd parts ->
  keptByTrimEnd (join sep parts).
Proof.
  intros Hne Hall. induction Hall as [|part rest Hpart Hrest IH]; [congruence|].
  destruct rest as [|next rest]; [exact Hpart|].
  change (join sep (part :: next :: rest))
    with (part ++ (sep ++ join sep (next :: rest)))%string.
  apply keptByTrimEnd_app, keptByTrimEnd_app, IH. discriminate.
Qed.

Lemma csvLine_kept (t : TileRecord) : keptByTrimEnd (csvLine t).
Proof.
  unfold csvLine. do 6 apply keptByTrimEnd_app.
  apply keptByTrimEnd_plain; [apply numToString_nonempty|apply numToString_plain].
Qed.

Lemma csvLine_no_newline (t : TileRecord) :
  cacheRecord t -> hasChar newline (csvLine t) = false.
Proof.
  intros ((_ & _ & Hnl & _) & _). unfold csvLine.
  rewrite !hasChar_app, Hnl.
  rewrite !(plain_no_newline _ (numToString_plain _)). reflexivity.
Qed.

Lemma omap_parseCsvLine (tiles : list TileRecord) :
  Forall cacheRecord tiles -> omap parseCsvLine (map csvLine tiles) = tiles.
Proof.
  intros Hall. induction Hall as [|t rest Ht Hrest IH]; [reflexivity|].
  cbn. rewrite (parseCsvLine_csvLine t Ht). cbn. f_equal. exact IH.
Qed.

Lemma parseTileCache_save (tiles : list TileRecord) :
  Forall cacheRecord tiles ->
  parseTileCache (saveTileCacheToCSV tiles) = tiles.
Proof.
  intros Hall. unfold parseTileCache, saveTileCacheToCSV.
  set (text := join (String newline EmptyString) (csvHeader :: map csvLine tiles)).
  assert (Htrim : trim text = text).
  { unfold trim.
    assert (Hstart : trimStart text = text).
    { unfold text. destruct (map csvLine tiles); reflexivity. }
    rewrite Hstart.
    assert (Hkept : keptByTrimEnd text).
    { unfold text. apply keptByTrimEnd_join; [discriminate|]. constructor.
      - unfold csvHeader. split; [discriminate|reflexivity].
      - apply Forall_map. apply List.Forall_forall. intros t _.
        apply csvLine_kept. }
    exact (proj2 Hkept). }
  rewrite Htrim. unfold text. rewrite split_join.
  - simpl. apply omap_parseCsvLine, Hall.
  - discriminate.
  - constructor; [reflexivity|].
    apply Forall_map. eapply Forall_impl; [exact Hall|].
    intros t Ht. apply csvLine_no_newline, Ht.
Qed.

(** C5 (as amended): for every list of records whose paths are not empty,
    hold no comma and no line feed and have no white space at either end,
    and whose colours are integers a double holds exactly (or [NaN]), the
    text written by the cache writer, read back by the cache loader, gives
    the same records in the same order: as many, with the same path, r, g
    and b. *)
Theorem cache_round_trip (tiles : list TileRecord) (this : MosaicGenerator) :
  Forall cacheRecord tiles ->
  parseTileCache (saveTileCacheToCSV tiles) = tiles /\
  fst (loadTileCacheFromCSV (Some (saveTileCacheToCSV tiles)) this) = Some tiles /\
  (forall loaded : list TileRecord,
      fst (loadTileCacheFromCSV (Some (saveTileCacheToCSV tiles)) this)
      = Some loaded ->
      length loaded = length tiles /\
      map path loaded = map path tiles /\
      map rgb loaded = map rgb tiles).
Proof.
  intros Hall. pose proof (parseTileCache_save tiles Hall) as Hparse.
  split; [exact Hparse|]. unfold loadTileCacheFromCSV. simpl. rewrite Hparse.
  split; [reflexivity|]. intros loaded [= <-]. auto.
Qed.

Lemma cache_round_trip_witness :
  let tiles := [mkTile "tiles/a b.jpg" (rgbColor 0 128 255);
                mkTile "tiles/sub/x.png" (rgbColor 17 4 99)] in
  parseTileCache (saveTileCacheToCSV tiles) = tiles /\
  fst (loadTileCacheFromCSV (Some (saveTileCacheToCSV tiles)) newMosaicGenerator)
  = Some tiles /\
  (forall loaded : list TileRecord,
      fst (loadTileCacheFromCSV (Some (saveTileCacheToCSV tiles)) newMosaicGenerator)
      = Some loaded ->
      length loaded = length tiles /\
      map path loaded = map path tiles /\
      map rgb loaded = map rgb tiles).
Proof.
  apply (cache_round_trip
           [mkTile "tiles/a b.jpg" (rgbColor 0 128 255);
            mkTile "tiles/sub/x.png" (rgbColor 17 4 99)] newMosaicGenerator).
  repeat constructor; simpl; try discriminate; lia.
Defined.

(** C5 as stated fails: a path with a comma comes back cut at the comma with
    the colours shifted, a path with a leading space comes back trimmed, and
    a record with an empty path does not come back at all. *)
Lemma cache_round_trip_loses_comma_paths :
  parseTileCache (saveTileCacheToCSV [mkTile "a,b.jpg" (rgbColor 1 2 3)])
  = [mkTile "a" (mkColor NaN (Int 1) (Int 2))] /\
  parseTileCache (saveTileCacheToCSV [mkTile " a.jpg" (rgbColor 1 2 3)])
  = [mkTile "a.jpg" (rgbColor 1 2 3)] /\
  parseTileCache (saveTileCacheToCSV [mkTile "" (rgbColor 1 2 3)]) = [].
Proof. vm_compute. repeat split. Qed.

(** ** More on the Color Matcher *)

Lemma num_sub_swap_sq (a c : num) :
  num_mul (num_sub a c) (num_sub a c) = num_mul (num_sub c a) (num_sub c a).
Proof. destruct a, c; simpl; try reflexivity. f_equal. ring. Qed.

Lemma colorDistanceSq_NaN (c1 c2 : Color) :
  colorDistanceSq c1 c2 = NaN <-> ~ (intColor c1 /\ intColor c2).
Proof.
  split.
  - intros H [H1 H2]. rewrite (colorDistanceSq_int c1 c2 H1 H2) in H. discriminate.
  - intros H. destruct c1 as [[r1|] [g1|] [b1|]], c2 as [[r2|] [g2|] [b2|]];
      try reflexivity.
    exfalso. apply H. split; eexists _, _, _; reflexivity.
Qed.

(** X1: colorDistanceSq is symmetric in its two colours; on colours whose
    three channels are all integers it returns a non-negative integer that is
    0 exactly when the two colours are equal; and it returns NaN exactly when
    some channel of one of the two colours is not an integer. *)
Theorem colorDistanceSq_distance :
  (forall c1 c2 : Color, colorDistanceSq c1 c2 = colorDistanceSq c2 c1) /\
  (forall c1 c2 : Color,
      intColor c1 -> intColor c2 ->
      exists d : Z,
        colorDistanceSq c1 c2 = Int d /\ 0 <= d /\ (d = 0 <-> c1 = c2)) /\
  (forall c1 c2 : Color,
      colorDistanceSq c1 c2 = NaN <-> ~ (intColor c1 /\ intColor c2)).
Proof.
  split; [|split].
  - intros c1 c2. unfold colorDistanceSq. cbv zeta.
    rewrite (num_sub_swap_sq (r c1)), (num_sub_swap_sq (g c1)),
      (num_sub_swap_sq (b c1)). reflexivity.
  - intros c1 c2 H1 H2. exists (distZ c1 c2).
    split; [apply colorDistanceSq_int; assumption|].
    destruct H1 as (x1 & y1 & z1 & ->), H2 as (x2 & y2 & z2 & ->).
    unfold distZ. cbn [chan r g b rgb].
    pose proof (Z.square_nonneg (x1 - x2)) as Hx.
    pose proof (Z.square_nonneg (y1 - y2)) as Hy.
    pose proof (Z.square_nonneg (z1 - z2)) as Hz.
    split; [lia|]. split.
    + intros H.
      assert (Hx0 : (x1 - x2) * (x1 - x2) = 0) by lia.
      assert (Hy0 : (y1 - y2) * (y1 - y2) = 0) by lia.
      assert (Hz0 : (z1 - z2) * (z1 - z2) = 0) by lia.
      apply Z.mul_eq_0 in Hx0, Hy0, Hz0.
      assert (x1 = x2) as -> by lia. assert (y1 = y2) as -> by lia.
      assert (z1 = z2) as -> by lia. reflexivity.
    + intros [= -> -> ->]. ring.
  - exact colorDistanceSq_NaN.
Qed.

Lemma colorDistanceSq_distance_witness :
  exists d : Z,
    colorDistanceSq (rgbColor 0 0 0) (rgbColor 255 255 255) = Int d /\ 0 <= d /\
    (d = 0 <-> rgbColor 0 0 0 = rgbColor 255 255 255).
Proof.
  apply (proj1 (proj2 colorDistanceSq_distance));
    eexists _, _, _; reflexivity.
Defined.

Lemma scanBest_NaN (target : Color) (best : TileObj) (rest : list TileObj) :
  scanBest target best NaN rest = best.
Proof.
  induction rest as [|u rest IH]; [reflexivity|].
  simpl. destruct (colorDistanceSq target u); simpl; exact IH.
Qed.

Lemma scanBest_result (target : Color) (rest : list TileObj) :
  forall (best : TileObj) (d : num),
    scanBest target best d rest = best \/
    exists z : Z,
      colorDistanceSq target (scanBest target best d rest) = Int z /\
      In (scanBest target best d rest) rest.
Proof.
  induction rest as [|u rest IH]; intros best d; [left; reflexivity|].
  simpl. destruct (num_ltb (colorDistanceSq target u) d) eqn:Hlt.
  - right.
    assert (Hu : exists z : Z, colorDistanceSq target u = Int z).
    { destruct (colorDistanceSq target u) as [z|]; [eauto|discriminate Hlt]. }
    destruct (IH u (colorDistanceSq target u)) as [->|(z & Hz & Hin)].
    + destruct Hu as (z & Hu). exists z. split; [exact Hu|left; reflexivity].
    + exists z. split; [exact Hz|right; exact Hin].
  - destruct (IH best d) as [->|(z & Hz & Hin)]; [left; reflexivity|].
    right. exists z. split; [exact Hz|right; exact Hin].
Qed.

(** X2: A candidate whose distance to the target is NaN (a tile with a NaN
    channel) never replaces the current best in findBestTile, and is never
    replaced when it is the current best: if the first non-corrupted candidate
    has a NaN distance, findBestTile returns it whatever the other candidates
    are, and a tile with a NaN distance is returned only when it is that first
    non-corrupted candidate. *)
Theorem findBestTile_NaN_candidates (this : MosaicGenerator) (target : Color)
  (tiles : list TileObj) (first : TileObj) (rest : list TileObj) :
  validTiles this tiles = first :: rest ->
  (colorDistanceSq target first = NaN ->
   findBestTile this target tiles = Ok first) /\
  (forall t : TileObj,
      findBestTile this target tiles = Ok t ->
      colorDistanceSq target t = NaN -> t = first).
Proof.
  intros Hv. unfold findBestTile. rewrite Hv. split.
  - intros ->. rewrite scanBest_NaN. reflexivity.
  - intros t [= <-] Hnan.
    destruct (scanBest_result target rest first (colorDistanceSq target first))
      as [H|(z & Hz & _)]; [exact H|congruence].
Qed.

Lemma findBestTile_NaN_candidates_witness :
  (colorDistanceSq (rgbColor 5 5 5)
     (mkObj 0 (mkTile "bad" (mkColor NaN (Int 1) (Int 2)))) = NaN ->
   findBestTile newMosaicGenerator (rgbColor 5 5 5)
     [mkObj 0 (mkTile "bad" (mkColor NaN (Int 1) (Int 2))); tileAt 1 "b" 5 5 5]
   = Ok (mkObj 0 (mkTile "bad" (mkColor NaN (Int 1) (Int 2))))) /\
  (forall t : TileObj,
      findBestTile newMosaicGenerator (rgbColor 5 5 5)
        [mkObj 0 (mkTile "bad" (mkColor NaN (Int 1) (Int 2))); tileAt 1 "b" 5 5 5]
      = Ok t ->
      colorDistanceSq (rgbColor 5 5 5) t = NaN ->
      t = mkObj 0 (mkTile "bad" (mkColor NaN (Int 1) (Int 2)))).
Proof.
  apply (findBestTile_NaN_candidates newMosaicGenerator (rgbColor 5 5 5)
           [mkObj 0 (mkTile "bad" (mkColor NaN (Int 1) (Int 2))); tileAt 1 "b" 5 5 5]
           (mkObj 0 (mkTile "bad" (mkColor NaN (Int 1) (Int 2))))
           [tileAt 1 "b" 5 5 5]).
  vm_compute. reflexivity.
Defined.

(** ** More on loops *)

Lemma forPush_nth {S A : Type} (body : Z -> M S A) (xs : list Z) :
  forall (s s' : S) (out : list A),
    forPush xs body s = (Ok out, s') ->
    forall (k : nat) (i : Z),
      nth_error xs k = Some i ->
      exists (s1 s2 : S) (a : A),
        body i s1 = (Ok a, s2) /\ nth_error out k = Some a.
Proof.
  induction xs as [|j xs IH]; intros s s' out H k i Hk.
  - destruct k; discriminate.
  - simpl in H. unfold bind in H.
    destruct (body j s) as [[a|msg] s1] eqn:Hb; [|discriminate].
    destruct (forPush xs body s1) as [[out'|msg] s2] eqn:Hf; [|discriminate].
    injection H as <- _. destruct k as [|k].
    + injection Hk as <-. exists s, s1, a. auto.
    + simpl in Hk. destruct (IH s1 s2 out' Hf k i Hk) as (t1 & t2 & b & Hb' & Hn).
      exists t1, t2, b. auto.
Qed.

Lemma forPush_invariant {S A : Type} (I : S -> list A -> Prop)
  (body : Z -> M S A) :
  (forall (i : Z) (s s' : S) (a : A) (acc : list A),
      I s acc -> body i s = (Ok a, s') -> I s' (acc ++ [a])) ->
  forall (xs : list Z) (s s' : S) (acc out : list A),
    I s acc -> forPush xs body s = (Ok out, s') -> I s' (acc ++ out).
Proof.
  intros Hstep xs. induction xs as [|j xs IH]; intros s s' acc out HI H.
  - injection H as <- <-. rewrite app_nil_r. exact HI.
  - simpl in H. unfold bind in H.
    destruct (body j s) as [[a|msg] s1] eqn:Hb; [|discriminate].
    destruct (forPush xs body s1) as [[out'|msg] s2] eqn:Hf; [|discriminate].
    injection H as <- <-.
    replace (acc ++ a :: out') with ((acc ++ [a]) ++ out')
      by (rewrite <- app_assoc; reflexivity).
    eapply IH; [|exact Hf]. eapply Hstep; eassumption.
Qed.

Lemma nth_error_upto (n : Z) (k : nat) :
  (k < Z.to_nat n)%nat -> nth_error (upto n) k = Some (Z.of_nat k).
Proof.
  intros Hk. unfold upto. rewrite nth_error_map, nth_error_seq.
  destruct (Nat.ltb_spec k (Z.to_nat n)); [reflexivity|lia].
Qed.

(** ** More on tile assignment *)

Lemma assignCell_reuse (this : MosaicGenerator) (tiles : list TileObj)
  (inputData : list Z) (w y x : Z) (used : gset nat) :
  assignCell this true tiles inputData w y x used
  = match findBestTile this (targetColorAt inputData w y x) tiles with
    | Ok t => (Ok (path t), used)
    | Throw msg => (Throw msg, used)
    end.
Proof.
  unfold assignCell, bind, get. simpl.
  destruct (findBestTile this _ tiles); reflexivity.
Qed.

Lemma tileImages_cell (this : MosaicGenerator) (reuse : bool)
  (tiles : list TileObj) (inputData : list Z) (w h : Z)
  (pattern : list (list string)) (y x : Z) :
  tileImages this reuse tiles inputData w h = Ok pattern ->
  0 <= y < h -> 0 <= x < w ->
  exists (used used' : gset nat),
    assignCell this reuse tiles inputData w y x used
    = (Ok (patternAt pattern y x), used').
Proof.
  unfold tileImages, assignTiles. intros H Hy Hx.
  destruct (forPush (upto h) _ ∅) as [res s'] eqn:Hrows. simpl in H. subst res.
  destruct (forPush_nth _ _ _ _ _ Hrows (Z.to_nat y) y) as (s1 & s2 & row & Hrow & Hnth).
  { rewrite nth_error_upto by lia. f_equal. lia. }
  destruct (forPush_nth _ _ _ _ _ Hrow (Z.to_nat x) x) as (u1 & u2 & p & Hcell & Hp).
  { rewrite nth_error_upto by lia. f_equal. lia. }
  exists u1, u2. rewrite Hcell. f_equal. f_equal. unfold patternAt.
  rewrite (nth_error_nth _ _ _ Hnth). symmetry. apply nth_error_nth, Hp.
Qed.

(** X3: With allowReuse = true, every cell (x, y) of the tile pattern built by
    generateMosaic holds the path of the tile findBestTile returns for that
    cell's target colour over the whole corpus: when the colours are integers,
    the first non-corrupted tile of the corpus at the least squared distance
    from the pixel of the resized input at (x, y). *)
Theorem reuse_assignment_is_nearest (this : MosaicGenerator)
  (tiles : list TileObj) (inputData : list Z) (w h : Z)
  (pattern : list (list string)) (y x : Z) :
  tileImages this true tiles inputData w h = Ok pattern ->
  0 <= y < h -> 0 <= x < w ->
  intColor (targetColorAt inputData w y x) ->
  (forall t : TileObj, In t (validTiles this tiles) -> intColor t) ->
  exists (t : TileObj) (l1 l2 : list TileObj),
    patternAt pattern y x = path t /\
    findBestTile this (targetColorAt inputData w y x) tiles = Ok t /\
    validTiles this tiles = l1 ++ t :: l2 /\
    (forall u : TileObj, In u l1 ->
       distZ (targetColorAt inputData w y x) t
       < distZ (targetColorAt inputData w y x) u) /\
    (forall u : TileObj, In u l2 ->
       distZ (targetColorAt inputData w y x) t
       <= distZ (targetColorAt inputData w y x) u).
Proof.
  intros H Hy Hx Htarget Hint.
  destruct (tileImages_cell this true tiles inputData w h pattern y x H Hy Hx)
    as (used & used' & Hcell).
  rewrite assignCell_reuse in Hcell.
  set (target := targetColorAt inputData w y x) in *.
  unfold findBestTile in *.
  destruct (validTiles this tiles) as [|first rest] eqn:Hv; [discriminate|].
  injection Hcell as Hpath _.
  assert (Hfirst : intColor first) by (apply Hint; left; reflexivity).
  destruct (scanBest_first_min target Htarget rest [] [] first Hfirst)
    as (l1 & l2 & Heq & H1 & H2).
  - intros u Hu. apply Hint. right. exact Hu.
  - intros u [].
  - intros u [].
  - rewrite (colorDistanceSq_int target first Htarget Hfirst) in *.
    eexists _, l1, l2. split; [symmetry; exact Hpath|].
    split; [reflexivity|]. split; [exact Heq|]. split; assumption.
Qed.

Lemma NoDup_map_inj {A B : Type} (f : A -> B) (l : list A) (a1 a2 : A) :
  List.NoDup (map f l) -> In a1 l -> In a2 l -> f a1 = f a2 -> a1 = a2.
Proof.
  induction l as [|c l IH]; intros Hnd H1 H2 Hf; [destruct H1|].
  simpl in Hnd. apply List.NoDup_cons_iff in Hnd. destruct Hnd as [Hnotin Hnd].
  destruct H1 as [<-|H1], H2 as [<-|H2].
  - reflexivity.
  - exfalso. apply Hnotin. rewrite Hf. apply in_map, H2.
  - exfalso. apply Hnotin. rewrite <- Hf. apply in_map, H1.
  - apply IH; assumption.
Qed.

Lemma assignCell_noReuse_step (this : MosaicGenerator) (tiles : list TileObj)
  (inputData : list Z) (w y x : Z) (used used' : gset nat) (p : string)
  (chosen : list string) :
  List.NoDup (map ref tiles) ->
  List.NoDup (map (fun t : TileObj => path t) tiles) ->
  noReuseInvariant tiles used chosen ->
  assignCell this false tiles inputData w y x used = (Ok p, used') ->
  noReuseInvariant tiles used' (chosen ++ [p]).
Proof.
  intros Hrefs Hpaths [Hnd Hiff] Hcell.
  unfold assignCell, bind, get in Hcell. simpl in Hcell.
  destruct (findBestTile this _ _) as [best|msg] eqn:Hbest; [|discriminate].
  simpl in Hcell. injection Hcell as <- <-.
  destruct (Nat.le_gt_cases (length tiles) (length chosen)) as [Hfull|Hroom].
  - split.
    + rewrite firstn_app. replace (length tiles - length chosen)%nat with 0%nat by lia.
      simpl. rewrite app_nil_r. exact Hnd.
    + rewrite length_app. simpl. lia.
  - specialize (Hiff ltac:(lia)).
    rewrite firstn_all2 in Hnd by lia.
    apply findBestTile_valid in Hbest. destruct Hbest as [Hin _].
    unfold availableTilesFor in Hin.
    destruct (List.filter _ tiles) as [|f fs] eqn:Hfilter.
    + exfalso.
      assert (Hincl : incl (map (fun t : TileObj => path t) tiles) chosen).
      { intros q Hq. apply in_map_iff in Hq. destruct Hq as (t & <- & Ht).
        apply Hiff; [exact Ht|].
        destruct (decide (ref t ∈ used)) as [Hd|Hd]; [exact Hd|].
        assert (Hf : In t (List.filter
                  (fun tile : TileObj => negb (bool_decide (ref tile ∈ used))) tiles)).
        { apply filter_In. split; [exact Ht|].
          apply negb_true_iff, bool_decide_eq_false, Hd. }
        rewrite Hfilter in Hf. destruct Hf. }
      pose proof (List.NoDup_incl_length Hpaths Hincl) as Hlen.
      rewrite length_map in Hlen. lia.
    + rewrite <- Hfilter in Hin. apply filter_In in Hin.
      destruct Hin as [Hbin Hunused].
      apply negb_true_iff, bool_decide_eq_false in Hunused.
      assert (Hnew : ~ In (path best) chosen)
        by (intros Hc; apply Hunused, Hiff; assumption).
      split.
      * rewrite firstn_all2 by (rewrite length_app; simpl; lia).
        apply List.NoDup_app; [exact Hnd|repeat constructor; intros []|].
        intros q Hq [<-|[]]. exact (Hnew Hq).
      * intros _ t Ht. rewrite in_app_iff. split.
        -- intros Hu. apply elem_of_union in Hu. destruct Hu as [Hu|Hu].
           ++ apply elem_of_singleton in Hu.
              right. left.
              rewrite (NoDup_map_inj ref tiles t best Hrefs Ht Hbin Hu).
              reflexivity.
           ++ left. apply Hiff; assumption.
        -- intros [Hc|[Hc|[]]].
           ++ apply elem_of_union. right. apply Hiff; assumption.
           ++ apply elem_of_union. left. apply elem_of_singleton.
              rewrite (NoDup_map_inj (fun t : TileObj => path t) tiles t best
                         Hpaths Ht Hbin (eq_sym Hc)).
              reflexivity.
Qed.

(** X4: With allowReuse = false and a corpus of distinct tile objects with
    distinct paths, the first K cells of the tile pattern in row-major order,
    K being the corpus size, hold K distinct paths; in particular a grid of at
    most K cells uses no tile twice. *)
Theorem no_reuse_uses_each_tile_once (this : MosaicGenerator)
  (tiles : list TileObj) (inputData : list Z) (w h : Z)
  (pattern : list (list string)) :
  List.NoDup (map ref tiles) ->
  List.NoDup (map (fun t : TileObj => path t) tiles) ->
  tileImages this false tiles inputData w h = Ok pattern ->
  List.NoDup (firstn (length tiles) (concat pattern)) /\
  ((length (concat pattern) <= length tiles)%nat -> List.NoDup (concat pattern)).
Proof.
  intros Hrefs Hpaths H. unfold tileImages, assignTiles in H.
  destruct (forPush (upto h) _ ∅) as [res used'] eqn:Hrows. simpl in H. subst res.
  assert (Hinv : noReuseInvariant tiles used' (concat ([] ++ pattern))).
  { eapply (forPush_invariant
              (fun (s : gset nat) (rows : list (list string)) =>
                 noReuseInvariant tiles s (concat rows)));
      [| |exact Hrows].
    - intros y s s' row rows HI Hrow.
      rewrite concat_app. simpl. rewrite app_nil_r.
      eapply (forPush_invariant (noReuseInvariant tiles)); [|exact HI|exact Hrow].
      intros x u u' p chosen HI' Hcell.
      eapply assignCell_noReuse_step; eassumption.
    - split; [simpl; rewrite firstn_nil; constructor|].
      intros _ t _. simpl. split; [set_solver|intros []]. }
  simpl in Hinv. destruct Hinv as [Hnd _]. split; [exact Hnd|].
  intros Hlen. rewrite firstn_all2 in Hnd by exact Hlen. exact Hnd.
Qed.

Lemma no_reuse_uses_each_tile_once_witness :
  List.NoDup (firstn 2 (concat [["b"; "a"; "b"]]))%string /\
  ((length (concat [["b"; "a"; "b"]]) <= 2)%nat ->
   List.NoDup (concat [["b"; "a"; "b"]]))%string.
Proof.
  apply (no_reuse_uses_each_tile_once newMosaicGenerator
           [tileAt 0 "a" 0 0 0; tileAt 1 "b" 9 9 9]
           [9; 9; 9; 9; 9; 9; 9; 9; 9] 3 1).
  - repeat constructor; simpl; intuition discriminate.
  - repeat constructor; simpl; intuition discriminate.
  - vm_compute. reflexivity.
Defined.

Lemma reuse_assignment_is_nearest_witness :
  let tiles := [tileAt 0 "a" 0 0 0; tileAt 1 "b" 9 9 9] in
  let target := targetColorAt [9; 9; 9; 0; 0; 0] 2 0 1 in
  exists (t : TileObj) (l1 l2 : list TileObj),
    patternAt [["b"; "a"]%string] 0 1 = path t /\
    findBestTile newMosaicGenerator target tiles = Ok t /\
    validTiles newMosaicGenerator tiles = l1 ++ t :: l2 /\
    (forall u : TileObj, In u l1 -> distZ target t < distZ target u) /\
    (forall u : TileObj, In u l2 -> distZ target t <= distZ target u).
Proof.
  apply (reuse_assignment_is_nearest newMosaicGenerator
           [tileAt 0 "a" 0 0 0; tileAt 1 "b" 9 9 9] [9; 9; 9; 0; 0; 0] 2 1
           [["b"; "a"]%string] 0 1).
  - vm_compute. reflexivity.
  - lia.
  - lia.
  - exists 0, 0, 0. reflexivity.
  - intros t Ht. vm_compute in Ht.
    destruct Ht as [<-|[<-|[]]]; eexists _, _, _; reflexivity.
Defined.

(** ** More on the compositors *)

Lemma copyPixel_length (rowWidth tsize x : Z) (tileBuffer rowBuffer : list Z)
  (ty tx : Z) :
  length (copyPixel rowWidth tsize x tileBuffer rowBuffer ty tx) = length rowBuffer.
Proof. unfold copyPixel. rewrite !length_insert. reflexivity. Qed.

Lemma fold_left_length {A B : Type} (f : list A -> B -> list A) (xs : list B) :
  (forall (buf : list A) (i : B), length (f buf i) = length buf) ->
  forall buf : list A, length (fold_left f xs buf) = length buf.
Proof.
  intros Hf. induction xs as [|i xs IH]; intros buf; [reflexivity|].
  simpl. rewrite IH. apply Hf.
Qed.

Lemma copyTile_length (rowWidth tsize : Z) (rowBuffer : list Z) (x : Z)
  (tileBuffer : list Z) :
  length (copyTile rowWidth tsize rowBuffer x tileBuffer) = length rowBuffer.
Proof.
  unfold copyTile. apply fold_left_length. intros buf ty.
  apply fold_left_length. intros buf' tx. apply copyPixel_length.
Qed.

Lemma combineRow_length (columns tsize : Z) (tileBuffers : list (list Z)) :
  length (combineRow columns tsize tileBuffers)
  = Z.to_nat (columns * tsize * tsize * 3).
Proof.
  unfold combineRow. rewrite fold_left_length.
  - apply repeat_length.
  - intros buf x. apply copyTile_length.
Qed.

Lemma concat_length_uniform {A : Type} (n : nat) (rows : list (list A)) :
  Forall (fun row => length row = n) rows ->
  length (concat rows) = (length rows * n)%nat.
Proof.
  induction 1 as [|row rows Hrow _ IH]; [reflexivity|].
  simpl. rewrite length_app, IH, Hrow. reflexivity.
Qed.

(** A loop whose body always returns and moves the state by [next]. *)
Lemma forPush_steps {S A : Type} (P : A -> Prop) (next : S -> S)
  (body : Z -> M S A) :
  (forall (i : Z) (s : S), exists a : A, body i s = (Ok a, next s) /\ P a) ->
  forall (xs : list Z) (s : S),
    exists out : list A,
      forPush xs body s = (Ok out, Nat.iter (length xs) next s) /\
      length out = length xs /\ Forall P out.
Proof.
  intros Hbody xs. induction xs as [|i xs IH]; intros s.
  - exists []. repeat split. constructor.
  - destruct (Hbody i s) as (a & Hb & Ha).
    destruct (IH (next s)) as (out & Hf & Hlen & Hall).
    exists (a :: out). simpl forPush. unfold bind. rewrite Hb, Hf.
    split; [|split; [simpl; congruence|constructor; assumption]].
    unfold ret. f_equal. simpl. apply Nat.iter_swap.
Qed.

Lemma iter_oneMoreCall (n : nat) (run : Run) :
  Nat.iter n oneMoreCall run
  = {| self := self run; sharpCalls := (n + sharpCalls run)%nat |}.
Proof.
  induction n as [|n IH]; [destruct run; reflexivity|].
  simpl. rewrite IH. reflexivity.
Qed.

Lemma zoomCell_returns (sharpRaw : nat -> string -> Z -> result (list Z))
  (newTileSize : Z) (tilePath : string) (run : Run) :
  exists buf : list Z,
    zoomCell sharpRaw newTileSize tilePath run = (Ok buf, oneMoreCall run) /\ True.
Proof.
  unfold zoomCell, tryCatch, loadTile.
  destruct (sharpRaw (sharpCalls run) tilePath newTileSize) as [buf|msg];
    eexists; split; reflexivity || exact I.
Qed.

Lemma zoom_rows_run (sharpRaw : nat -> string -> Z -> result (list Z))
  (pattern : list (list string)) (columns rows newTileSize : Z) (run : Run) :
  exists rowBuffers : list (list Z),
    forPush (upto rows) (fun y =>
      let* tileBuffers :=
        forPush (upto columns) (fun x =>
          zoomCell sharpRaw newTileSize (patternAt pattern y x)) in
      ret (combineRow columns newTileSize tileBuffers)) run
    = (Ok rowBuffers,
       {| self := self run;
          sharpCalls := (Z.to_nat rows * Z.to_nat columns + sharpCalls run)%nat |}) /\
    length (concat rowBuffers)
    = (Z.to_nat rows * Z.to_nat (columns * newTileSize * newTileSize * 3))%nat.
Proof.
  destruct (forPush_steps
              (fun row : list Z =>
                 length row = Z.to_nat (columns * newTileSize * newTileSize * 3))
              (Nat.iter (Z.to_nat columns) oneMoreCall)
              (fun y =>
                 let* tileBuffers :=
                   forPush (upto columns) (fun x =>
                     zoomCell sharpRaw newTileSize (patternAt pattern y x)) in
                 ret (combineRow columns newTileSize tileBuffers)))
    with (xs := upto rows) (s := run) as (out & Hrun & Hlen & Hall).
  - intros y s.
    destruct (forPush_steps (fun _ : list Z => True) oneMoreCall
                (fun x => zoomCell sharpRaw newTileSize (patternAt pattern y x)))
      with (xs := upto columns) (s := s) as (bufs & Hbufs & _ & _).
    + intros x s0. apply zoomCell_returns.
    + eexists. unfold bind. rewrite Hbufs. rewrite length_upto.
      split; [reflexivity|]. apply combineRow_length.
  - exists out. rewrite Hrun. split.
    + f_equal. rewrite length_upto.
      clear. induction (Z.to_nat rows) as [|n IH]; [destruct run; reflexivity|].
      simpl. rewrite IH, iter_oneMoreCall. simpl. f_equal. lia.
    + rewrite (concat_length_uniform _ _ Hall), Hlen, length_upto. reflexivity.
Qed.

Lemma Math_round_half (a : Z) : Math_round (inject_Z a / 2) = (a + 1) / 2.
Proof.
  change 2%Q with (inject_Z 2). rewrite Math_round_div by lia.
  Z.div_mod_to_equations. lia.
Qed.



(** X6: generateZoomedMosaicFromPattern crops exactly when the full raster is
    wider or higher than the target; the crop rectangle then lies inside the
    raster (left >= 0, left + width <= fullWidth, and the same vertically),
    has width min(targetWidth, fullWidth) and height min(targetHeight,
    fullHeight), and is centred to within one pixel in each direction where
    the raster is at least as large as the target. When the raster is no
    larger than the target it is written uncropped. *)
Theorem zoom_crop_within_raster
  (sharpRaw : nat -> string -> Z -> result (list Z))
  (pattern : list (list string))
  (columns rows newTileSize targetWidth targetHeight : Z) (run : Run)
  (image : Raster) (crop : option Crop) :
  0 <= targetWidth -> 0 <= targetHeight ->
  0 <= columns * newTileSize -> 0 <= rows * newTileSize ->
  fst (generateZoomedMosaicFromPattern sharpRaw pattern columns rows newTileSize
         targetWidth targetHeight run) = Ok (image, crop) ->
  match crop with
  | None => rasterWidth image <= targetWidth /\ rasterHeight image <= targetHeight
  | Some c =>
      (targetWidth < rasterWidth image \/ targetHeight < rasterHeight image) /\
      0 <= cropLeft c /\ cropLeft c + cropWidth c <= rasterWidth image /\
      0 <= cropTop c /\ cropTop c + cropHeight c <= rasterHeight image /\
      cropWidth c = Z.min targetWidth (rasterWidth image) /\
      cropHeight c = Z.min targetHeight (rasterHeight image) /\
      (targetWidth <= rasterWidth image ->
       rasterWidth image - targetWidth <= 2 * cropLeft c
       <= rasterWidth image - targetWidth + 1) /\
      (targetHeight <= rasterHeight image ->
       rasterHeight image - targetHeight <= 2 * cropTop c
       <= rasterHeight image - targetHeight + 1)
  end.
Proof.
  intros Htw Hth Hfw Hfh. unfold generateZoomedMosaicFromPattern.
  destruct (zoom_rows_run sharpRaw pattern columns rows newTileSize run)
    as (rowBuffers & Hrun & _).
  unfold bind at 1. rewrite Hrun.
  set (fullWidth := columns * newTileSize) in *.
  set (fullHeight := rows * newTileSize) in *.
  destruct ((targetWidth <? fullWidth) || (targetHeight <? fullHeight)) eqn:Hbig.
  - unfold ret. simpl. intros [= <- <-]. simpl.
    rewrite !Math_round_half.
    apply orb_true_iff in Hbig. rewrite !Z.ltb_lt in Hbig.
    split; [exact Hbig|]. Z.div_mod_to_equations. lia.
  - unfold ret. simpl. intros [= <- <-]. simpl.
    apply orb_false_iff in Hbig. rewrite !Z.ltb_ge in Hbig. exact Hbig.
Qed.

Lemma zoom_crop_within_raster_witness :
  let out := generateZoomedMosaicFromPattern (failingOn "a" [7; 8; 9])
               [["a"; "b"]; ["b"; "a"]]%string 2 2 5 7 6 freshRun in
  exists (image : Raster) (c : Crop),
    fst out = Ok (image, Some c) /\
    (7 < rasterWidth image \/ 6 < rasterHeight image) /\
    0 <= cropLeft c /\ cropLeft c + cropWidth c <= rasterWidth image /\
    0 <= cropTop c /\ cropTop c + cropHeight c <= rasterHeight image /\
    cropWidth c = Z.min 7 (rasterWidth image) /\
    cropHeight c = Z.min 6 (rasterHeight image) /\
    (7 <= rasterWidth image ->
     rasterWidth image - 7 <= 2 * cropLeft c <= rasterWidth image - 7 + 1) /\
    (6 <= rasterHeight image ->
     rasterHeight image - 6 <= 2 * cropTop c <= rasterHeight image - 6 + 1).
Proof.
  eexists _, _. split; [vm_compute; reflexivity|].
  refine (zoom_crop_within_raster (failingOn "a" [7; 8; 9])
            [["a"; "b"]; ["b"; "a"]]%string 2 2 5 7 6 freshRun _ (Some _)
            _ _ _ _ _); [lia|lia|lia|lia|vm_compute; reflexivity].
Defined.

(** A relation between the state before and after, kept by every pass of a
    loop, whether it returns or throws. *)
Lemma forPush_rel {S A : Type} (R : S -> S -> Prop) (body : Z -> M S A) :
  (forall s : S, R s s) ->
  (forall s1 s2 s3 : S, R s1 s2 -> R s2 s3 -> R s1 s3) ->
  (forall (i : Z) (s : S), R s (snd (body i s))) ->
  forall (xs : list Z) (s : S), R s (snd (forPush xs body s)).
Proof.
  intros Hrefl Htrans Hbody xs. induction xs as [|i xs IH]; intros s.
  - apply Hrefl.
  - simpl forPush. unfold bind. specialize (Hbody i s).
    destruct (body i s) as [[a|msg] s1]; simpl in Hbody; [|exact Hbody].
    specialize (IH s1). destruct (forPush xs body s1) as [[out|msg] s2];
      simpl in *; eapply Htrans; eassumption.
Qed.

Lemma forPush_cost {S A : Type} (cost : S -> nat) (c : nat) (body : Z -> M S A) :
  (forall (i : Z) (s : S), (cost (snd (body i s)) <= cost s + c)%nat) ->
  forall (xs : list Z) (s : S),
    (cost (snd (forPush xs body s)) <= cost s + length xs * c)%nat.
Proof.
  intros Hbody xs. induction xs as [|i xs IH]; intros s.
  - simpl. lia.
  - simpl forPush. unfold bind. specialize (Hbody i s).
    destruct (body i s) as [[a|msg] s1]; simpl in Hbody; [|simpl; lia].
    specialize (IH s1). destruct (forPush xs body s1) as [[out|msg] s2];
      simpl in *; lia.
Qed.

Lemma forPush_cost_min {S A : Type} (cost : S -> nat) (c : nat)
  (body : Z -> M S A) :
  (forall (i : Z) (s s' : S) (a : A),
     body i s = (Ok a, s') -> (cost s + c <= cost s')%nat) ->
  forall (xs : list Z) (s s' : S) (out : list A),
    forPush xs body s = (Ok out, s') ->
    (cost s + length xs * c <= cost s')%nat.
Proof.
  intros Hbody xs. induction xs as [|i xs IH]; intros s s' out H.
  - injection H as _ <-. simpl. lia.
  - simpl in H. unfold bind in H.
    destruct (body i s) as [[a|msg] s1] eqn:Hb; [|discriminate].
    destruct (forPush xs body s1) as [[out'|msg] s2] eqn:Hf; [|discriminate].
    injection H as _ <-. specialize (Hbody _ _ _ _ Hb). specialize (IH _ _ _ Hf).
    simpl. lia.
Qed.

Section BaseCompositorProperties.

Variable sharpRaw : nat -> string -> Z -> result (list Z).

Lemma blacklistGrows_refl (tsize : Z) (run : Run) : blacklistGrows sharpRaw tsize run run.
Proof. repeat split; auto. Qed.

Lemma blacklistGrows_trans (tsize : Z) (r1 r2 r3 : Run) :
  blacklistGrows sharpRaw tsize r1 r2 -> blacklistGrows sharpRaw tsize r2 r3 ->
  blacklistGrows sharpRaw tsize r1 r3.
Proof.
  intros (Hc1 & Ht1 & Hs1 & Hp1 & Hw1 & Hh1 & Hsub1 & Hnew1)
         (Hc2 & Ht2 & Hs2 & Hp2 & Hw2 & Hh2 & Hsub2 & Hnew2).
  repeat split; try congruence; [lia|set_solver|].
  intros p Hp. destruct (Hnew2 p Hp) as [Hin|(n & msg & Hn & Hthrow)].
  - destruct (Hnew1 p Hin) as [Hin1|(n & msg & Hn & Hthrow)]; [left; exact Hin1|].
    right. exists n, msg. split; [lia|exact Hthrow].
  - right. exists n, msg. split; [lia|exact Hthrow].
Qed.

Lemma compositeCell_blacklist (tiles : list TileObj) (inputData : list Z)
  (finalMosaicWidth tsize : Z) (tilePath : string) (y x : Z) (run : Run) :
  blacklistGrows sharpRaw tsize run
    (snd (compositeCell sharpRaw tiles inputData finalMosaicWidth tsize
            tilePath y x run)).
Proof.
  unfold compositeCell, tryCatch, loadTile.
  destruct (sharpRaw (sharpCalls run) tilePath tsize) as [buf|msg] eqn:Hload.
  - simpl. repeat split; simpl; auto.
  - unfold bind, markCorrupted, modify, get. simpl.
    assert (Hadd : forall calls : nat,
      (sharpCalls run < calls)%nat ->
      blacklistGrows sharpRaw tsize run
        {| self := addCorrupted tilePath (self run); sharpCalls := calls |}).
    { intros calls Hcalls. repeat split; simpl; [lia|set_solver|].
      intros p Hp. apply elem_of_union in Hp as [Hp|Hp]; [|left; exact Hp].
      apply elem_of_singleton in Hp as ->.
      right. exists (sharpCalls run), msg. split; [lia|exact Hload]. }
    destruct (findReplacement (addCorrupted tilePath (self run)) tiles _)
      as [replacementTile|msg']; simpl; apply Hadd; lia.
Qed.

Lemma compositeCell_calls (tiles : list TileObj) (inputData : list Z)
  (finalMosaicWidth tsize : Z) (tilePath : string) (y x : Z) (run run' : Run)
  (buf : list Z) :
  compositeCell sharpRaw tiles inputData finalMosaicWidth tsize tilePath y x run
  = (Ok buf, run') ->
  (sharpCalls run + 1 <= sharpCalls run')%nat.
Proof.
  intros H.
  pose proof (compositeCell_blacklist tiles inputData finalMosaicWidth tsize
                tilePath y x run) as (Hcalls & _).
  rewrite H in Hcalls. simpl in Hcalls.
  unfold compositeCell, tryCatch, loadTile in H.
  destruct (sharpRaw (sharpCalls run) tilePath tsize) as [buf'|msg].
  - injection H as _ <-. simpl. lia.
  - unfold bind, markCorrupted, modify, get in H. simpl in H.
    destruct (findReplacement (addCorrupted tilePath (self run)) tiles _)
      as [replacementTile|msg']; simpl in H; injection H as _ <-; simpl; lia.
Qed.

Lemma compositeCell_cost (tiles : list TileObj) (inputData : list Z)
  (finalMosaicWidth tsize : Z) (tilePath : string) (y x : Z) (run : Run) :
  (sharpCalls (snd (compositeCell sharpRaw tiles inputData finalMosaicWidth tsize
                      tilePath y x run)) <= sharpCalls run + 2)%nat.
Proof.
  unfold compositeCell, tryCatch, loadTile.
  destruct (sharpRaw (sharpCalls run) tilePath tsize) as [buf|msg]; [simpl; lia|].
  unfold bind, markCorrupted, modify, get. simpl.
  destruct (findReplacement (addCorrupted tilePath (self run)) tiles _)
    as [replacementTile|msg']; simpl; lia.
Qed.

Variable resizeInput : Z -> Z -> list Z.

Lemma composite_rows_blacklist (tiles : list TileObj) (inputData : list Z)
  (pattern : list (list string)) (w h tsize : Z) (run : Run) :
  let out :=
    forPush (upto h) (fun y =>
      let* tileBuffers :=
        forPush (upto w) (fun x =>
          compositeCell sharpRaw tiles inputData w tsize (patternAt pattern y x) y x) in
      ret (combineRow w tsize tileBuffers)) run in
  blacklistGrows sharpRaw tsize run (snd out) /\
  (sharpCalls (snd out) <= sharpCalls run + Z.to_nat h * (Z.to_nat w * 2))%nat /\
  forall rowBuffers : list (list Z),
    fst out = Ok rowBuffers ->
    length (concat rowBuffers) = (Z.to_nat h * Z.to_nat (w * tsize * tsize * 3))%nat /\
    (sharpCalls run + Z.to_nat h * Z.to_nat w <= sharpCalls (snd out))%nat.
Proof.
  intros out. subst out. split; [|split].
  - apply (forPush_rel (blacklistGrows sharpRaw tsize));
      [apply blacklistGrows_refl|apply blacklistGrows_trans|].
    intros y s. unfold bind.
    pose proof (forPush_rel (blacklistGrows sharpRaw tsize)
                  (fun x => compositeCell sharpRaw tiles inputData w tsize
                              (patternAt pattern y x) y x)
                  (blacklistGrows_refl tsize) (blacklistGrows_trans tsize)
                  (fun x s0 => compositeCell_blacklist tiles inputData w tsize
                                 (patternAt pattern y x) y x s0)
                  (upto w) s) as H.
    destruct (forPush (upto w) _ s) as [[bufs|msg] s1]; exact H.
  - rewrite <- (length_upto h), <- (length_upto w).
    apply (forPush_cost sharpCalls). intros y s. unfold bind.
    pose proof (forPush_cost sharpCalls 2
                  (fun x => compositeCell sharpRaw tiles inputData w tsize
                              (patternAt pattern y x) y x)
                  (fun x s0 => compositeCell_cost tiles inputData w tsize
                                 (patternAt pattern y x) y x s0)
                  (upto w) s) as H.
    destruct (forPush (upto w) _ s) as [[bufs|msg] s1]; exact H.
  - intros rowBuffers Hrows.
    destruct (forPush (upto h) _ run) as [res run'] eqn:Hrun. simpl in Hrows. subst res.
    assert (Hall : Forall (fun row => length row = Z.to_nat (w * tsize * tsize * 3))
                     rowBuffers).
    { eapply forPush_Forall; [|exact Hrun].
      intros y s s' row Hrow. unfold bind in Hrow.
      destruct (forPush (upto w) _ s) as [[bufs|msg] s1]; [|discriminate].
      injection Hrow as <- _. apply combineRow_length. }
    split.
    + rewrite (concat_length_uniform _ _ Hall).
      rewrite (forPush_length _ _ _ _ _ Hrun), length_upto. reflexivity.
    + simpl. rewrite <- (length_upto h) at 1.
      eapply (forPush_cost_min sharpCalls); [|exact Hrun].
      intros y s s' row Hrow. unfold bind in Hrow.
      destruct (forPush (upto w) _ s) as [[bufs|msg] s1] eqn:Hcells; [|discriminate].
      injection Hrow as _ <-. rewrite <- (Nat.mul_1_r (Z.to_nat w)).
      rewrite <- (length_upto w) at 1.
      eapply (forPush_cost_min sharpCalls); [|exact Hcells].
      intros x s0 s0' buf Hbuf. eapply compositeCell_calls, Hbuf.
Qed.

Lemma tileImages_shape (this : MosaicGenerator) (reuse : bool)
  (tiles : list TileObj) (inputData : list Z) (w h : Z)
  (pattern : list (list string)) :
  tileImages this reuse tiles inputData w h = Ok pattern ->
  length pattern = Z.to_nat h /\
  Forall (fun row : list string => length row = Z.to_nat w) pattern.
Proof.
  unfold tileImages, assignTiles. intros H.
  destruct (forPush (upto h) _ ∅) as [res used] eqn:Hrows. simpl in H. subst res.
  split.
  - rewrite (forPush_length _ _ _ _ _ Hrows). apply length_upto.
  - eapply forPush_Forall; [|exact Hrows].
    intros y s s' row Hrow. simpl in Hrow.
    rewrite (forPush_length _ _ _ _ _ Hrow). apply length_upto.
Qed.

(** X7: Whether the compositing of generateMosaic returns or throws, it leaves
    this.tileCache unchanged, sets this.tileSize to the tile size option, only
    adds to this.corruptedTiles, adds a path only if a codec call of this pass
    on that path at that tile size threw, and makes at most two codec calls
    per cell of the grid. *)
Theorem generateMosaic_blacklists_failed_loads (tiles : list TileObj)
  (inputMetadata : Metadata) (options : MosaicOptions) (run run' : Run)
  (outcome : result (MosaicResult * Raster)) :
  generateMosaic sharpRaw resizeInput tiles inputMetadata options run
  = (outcome, run') ->
  let w := finalMosaicWidthOf options in
  let h := finalMosaicHeightOf options inputMetadata w in
  tileCache (self run') = tileCache (self run) /\
  tileSize (self run') = optTileSize options /\
  corruptedTiles (self run) ⊆ corruptedTiles (self run') /\
  (forall p : string,
     p ∈ corruptedTiles (self run') ->
     p ∈ corruptedTiles (self run) \/
     exists (n : nat) (msg : string),
       (sharpCalls run <= n < sharpCalls run')%nat /\
       sharpRaw n p (optTileSize options) = Throw msg) /\
  (sharpCalls run <= sharpCalls run'
   <= sharpCalls run + Z.to_nat h * (Z.to_nat w * 2))%nat.
Proof.
  intros H w h. unfold generateMosaic in H. fold w h in H.
  unfold bind at 1 in H. unfold modify at 1 in H.
  destruct tiles as [|tile tiles'].
  { injection H as _ <-. simpl. repeat split; auto; lia. }
  set (tiles := tile :: tiles') in *.
  unfold bind at 1 in H. unfold get at 1 in H. cbn [self] in H.
  destruct (tileImages _ (allowReuse options) tiles _ w h) as [pattern|msg].
  2:{ injection H as _ <-. simpl. repeat split; auto; lia. }
  unfold bind at 1 in H. unfold modify at 1 in H.
  unfold bind at 1 in H.
  match type of H with
  | context [forPush (upto h) ?body ?s] =>
      destruct (composite_rows_blacklist tiles
                  (resizeInput w h) pattern w h (optTileSize options) s)
        as ((Hcalls & Hcache & Hsize & _ & _ & _ & Hsub & Hnew) & Hcost & _);
      destruct (forPush (upto h) body s) as [[rowBuffers|msg] s'] eqn:Hrows
  end;
  simpl in Hcalls, Hcache, Hsize, Hsub, Hnew, Hcost.
  - unfold bind, get, ret in H. injection H as _ <-.
    repeat split; auto; lia.
  - injection H as _ <-. repeat split; auto; lia.
Qed.

(** X8: When generateMosaic returns, the reported width and height are the
    grid width and height times the tile size, tilesUsed is the number of
    cells, availableTiles the corpus size and corruptedTiles the size of the
    corrupted set at the end; the raster handed to the encoder has these
    dimensions and a buffer of exactly width * height * 3 bytes; at least one
    codec call per cell was made; and the generator stores the grid dimensions
    and a tile pattern with one row per grid row and one path per grid column.
    *)
Theorem generateMosaic_output_shape (tiles : list TileObj)
  (inputMetadata : Metadata) (options : MosaicOptions) (run run' : Run)
  (summary : MosaicResult) (image : Raster) :
  generateMosaic sharpRaw resizeInput tiles inputMetadata options run
  = (Ok (summary, image), run') ->
  let w := finalMosaicWidthOf options in
  let h := finalMosaicHeightOf options inputMetadata w in
  let tsize := optTileSize options in
  width summary = w * tsize /\ height summary = h * tsize /\
  tilesUsed summary = w * h /\
  availableTiles summary = Z.of_nat (length tiles) /\
  corruptedCount summary = Z.of_nat (size (corruptedTiles (self run'))) /\
  rasterWidth image = w * tsize /\ rasterHeight image = h * tsize /\
  (0 <= w -> 0 <= h -> 0 <= tsize ->
   Z.of_nat (length (rasterData image))
   = rasterWidth image * rasterHeight image * 3) /\
  (Z.to_nat h * Z.to_nat w <= sharpCalls run' - sharpCalls run)%nat /\
  lastMosaicWidth (self run') = Some w /\
  lastMosaicHeight (self run') = Some h /\
  exists pattern : list (list string),
    lastTilePattern (self run') = Some pattern /\
    length pattern = Z.to_nat h /\
    Forall (fun row : list string => length row = Z.to_nat w) pattern.
Proof.
  intros H w h tsize. unfold generateMosaic in H. fold w h tsize in H.
  unfold bind at 1 in H. unfold modify at 1 in H.
  destruct tiles as [|tile tiles']; [discriminate|].
  set (tiles := tile :: tiles') in *.
  unfold bind at 1 in H. unfold get at 1 in H. cbn [self] in H.
  destruct (tileImages _ (allowReuse options) tiles _ w h) as [pattern|msg] eqn:Hpat;
    [|discriminate].
  unfold bind at 1 in H. unfold modify at 1 in H.
  unfold bind at 1 in H.
  match type of H with
  | context [forPush (upto h) ?body ?s] =>
      destruct (composite_rows_blacklist tiles
                  (resizeInput w h) pattern w h tsize s)
        as ((Hcalls & _ & _ & Hp & Hw & Hh & _) & _ & Hok);
      destruct (forPush (upto h) body s) as [[rowBuffers|msg] s'] eqn:Hrows;
      [|discriminate]
  end.
  destruct (Hok rowBuffers eq_refl) as [Hlen Hmin].
  simpl in Hcalls, Hp, Hw, Hh, Hmin.
  unfold bind, get, ret in H. injection H as <- <- <-. simpl.
  repeat split; auto; try lia.
  destruct (tileImages_shape _ _ _ _ _ _ _ Hpat) as [Hrowsn Hcols].
  exists pattern. repeat split; assumption.
Qed.

End BaseCompositorProperties.

Lemma generateMosaic_blacklists_failed_loads_witness :
  let sharpRaw := failingOn "a" [7; 8; 9] in
  let run' := snd (generateMosaic sharpRaw (fun _ _ => [0; 0; 0])
                     [tileAt 0 "a" 0 0 0; tileAt 1 "b" 7 8 9]
                     (mkMetadata 1 1) oneCell freshRun) in
  tileCache (self run') = tileCache (self freshRun) /\
  tileSize (self run') = 1 /\
  corruptedTiles (self freshRun) ⊆ corruptedTiles (self run') /\
  (forall p : string,
     p ∈ corruptedTiles (self run') ->
     p ∈ corruptedTiles (self freshRun) \/
     exists (n : nat) (msg : string),
       (sharpCalls freshRun <= n < sharpCalls run')%nat /\
       sharpRaw n p 1 = Throw msg) /\
  (sharpCalls freshRun <= sharpCalls run' <= sharpCalls freshRun + 1 * (1 * 2))%nat.
Proof.
  exact (generateMosaic_blacklists_failed_loads (failingOn "a" [7; 8; 9])
           (fun _ _ => [0; 0; 0]) [tileAt 0 "a" 0 0 0; tileAt 1 "b" 7 8 9]
           (mkMetadata 1 1) oneCell freshRun _ _ (surjective_pairing _)).
Defined.

Lemma generateMosaic_output_shape_witness :
  let out := generateMosaic (solidTiles quadrantCorpus) (fun _ _ => quadrantInput)
               (allocTiles 0 quadrantCorpus) (mkMetadata 2 2) quadrantOptions
               freshRun in
  exists (summary : MosaicResult) (image : Raster),
    fst out = Ok (summary, image) /\
    width summary = 2 * 10 /\ height summary = 2 * 10 /\
    tilesUsed summary = 2 * 2 /\
    availableTiles summary = 4 /\
    corruptedCount summary = Z.of_nat (size (corruptedTiles (self (snd out)))) /\
    rasterWidth image = 2 * 10 /\ rasterHeight image = 2 * 10 /\
    (0 <= 2 -> 0 <= 2 -> 0 <= 10 ->
     Z.of_nat (length (rasterData image))
     = rasterWidth image * rasterHeight image * 3) /\
    (2 * 2 <= sharpCalls (snd out) - sharpCalls freshRun)%nat /\
    lastMosaicWidth (self (snd out)) = Some 2 /\
    lastMosaicHeight (self (snd out)) = Some 2 /\
    exists pattern : list (list string),
      lastTilePattern (self (snd out)) = Some pattern /\
      length pattern = 2%nat /\
      Forall (fun row : list string => length row = 2%nat) pattern.
Proof.
  eexists _, _. split; [vm_compute; reflexivity|].
  refine (generateMosaic_output_shape (solidTiles quadrantCorpus)
            (fun _ _ => quadrantInput) (allocTiles 0 quadrantCorpus)
            (mkMetadata 2 2) quadrantOptions freshRun _ _ _ _).
  vm_compute. reflexivity.
Defined.

(** ** Tile analysis *)

Section TileAnalysisProperties.

Variable sharpRaw : nat -> string -> Z -> result (list Z).

Lemma processImage_step (retriesLeft : nat) (imagePath : string)
  (retryCount : Z) (run : Run) :
  processImage sharpRaw retriesLeft imagePath retryCount run
  = match sharpRaw (sharpCalls run) imagePath (tileSize (self run)) with
    | Ok data =>
        (Ok (averageColor imagePath data),
         {| self := cacheTile imagePath (averageColor imagePath data) (self run);
            sharpCalls := S (sharpCalls run) |})
    | Throw message =>
        if (retryCount <? 2) && retryable message
        then match retriesLeft with
             | O => (Throw message, oneMoreCall run)
             | S retriesLeft' =>
                 processImage sharpRaw retriesLeft' imagePath (retryCount + 1)
                   (oneMoreCall run)
             end
        else (Throw message, oneMoreCall run)
    end.
Proof.
  destruct retriesLeft; simpl; unfold tryCatch, bind, get, loadTile; simpl;
    destruct (sharpRaw (sharpCalls run) imagePath (tileSize (self run)))
      as [data|message];
    try reflexivity;
    destruct ((retryCount <? 2) && retryable message); reflexivity.
Qed.

(** [processImage] calls the codec until a call returns, a call throws
    something it does not retry, or no retry is left; [k] is the number of
    retries made. *)
Lemma processImage_run (retriesLeft : nat) (imagePath : string) :
  forall (retryCount : Z) (run : Run),
    exists k : nat,
      (k <= retriesLeft)%nat /\
      (retryCount <= 2 -> retryCount + Z.of_nat k <= 2) /\
      (forall j : nat, (j < k)%nat ->
         exists message : string,
           sharpRaw (sharpCalls run + j) imagePath (tileSize (self run))
           = Throw message /\ retryable message = true) /\
      match sharpRaw (sharpCalls run + k) imagePath (tileSize (self run)) with
      | Ok data =>
          processImage sharpRaw retriesLeft imagePath retryCount run
          = (Ok (averageColor imagePath data),
             {| self := cacheTile imagePath (averageColor imagePath data) (self run);
                sharpCalls := S (sharpCalls run + k) |})
      | Throw message =>
          processImage sharpRaw retriesLeft imagePath retryCount run
          = (Throw message,
             {| self := self run; sharpCalls := S (sharpCalls run + k) |}) /\
          (retryable message = false \/ 2 <= retryCount + Z.of_nat k
           \/ k = retriesLeft)
      end.
Proof.
  induction retriesLeft as [|fuel IH]; intros retryCount run.
  - exists 0%nat. rewrite Nat.add_0_r, processImage_step. split; [lia|].
    split; [lia|]. split; [intros j Hj; lia|].
    destruct (sharpRaw (sharpCalls run) imagePath (tileSize (self run)))
      as [data|message]; [reflexivity|].
    split; [|auto]. destruct ((retryCount <? 2) && retryable message); reflexivity.
  - destruct (sharpRaw (sharpCalls run) imagePath (tileSize (self run)))
      as [data|message] eqn:Hfirst.
    + exists 0%nat. rewrite Nat.add_0_r, processImage_step, Hfirst.
      split; [lia|]. split; [lia|]. split; [intros j Hj; lia|]. reflexivity.
    + destruct ((retryCount <? 2) && retryable message) eqn:Hretry.
      * apply andb_true_iff in Hretry as [Hcount Hmsg].
        destruct (IH (retryCount + 1) (oneMoreCall run))
          as (k & Hk & Hbound & Hbefore & Hlast).
        cbn [self sharpCalls oneMoreCall] in Hbefore, Hlast.
        exists (S k). rewrite processImage_step, Hfirst, Hcount, Hmsg.
        cbn [andb]. apply Z.ltb_lt in Hcount.
        split; [lia|]. split; [lia|]. split.
        { intros [|j] Hj.
          - exists message. rewrite Nat.add_0_r. split; assumption.
          - destruct (Hbefore j ltac:(lia)) as (m & Hm & Hr).
            exists m. replace (sharpCalls run + S j)%nat with (S (sharpCalls run) + j)%nat
              by lia. split; assumption. }
        replace (sharpCalls run + S k)%nat with (S (sharpCalls run) + k)%nat by lia.
        destruct (sharpRaw (S (sharpCalls run) + k) imagePath (tileSize (self run)))
          as [data|message'].
        { exact Hlast. }
        destruct Hlast as [Hlast Hwhy]. split; [exact Hlast|].
        destruct Hwhy as [Hwhy|[Hwhy|Hwhy]];
          [left; exact Hwhy|right; left; lia|right; right; lia].
      * exists 0%nat. rewrite Nat.add_0_r, processImage_step, Hfirst, Hretry.
        split; [lia|]. split; [lia|].
        split; [intros j Hj; lia|]. split; [reflexivity|].
        apply andb_false_iff in Hretry as [Hcount|Hmsg]; [|auto].
        apply Z.ltb_ge in Hcount. right. left. lia.
Qed.

Lemma getAverageColor_unfold (imagePath : string) (run : Run) :
  getAverageColor sharpRaw imagePath run
  = if bool_decide (imagePath ∈ corruptedTiles (self run)) then (Ok None, run)
    else match tileCache (self run) !! imagePath with
         | Some cached => (Ok (Some cached), run)
         | None =>
             match processImage sharpRaw 2 imagePath 0 run with
             | (Ok avgColor, run') => (Ok (Some avgColor), run')
             | (Throw _, run') =>
                 (Ok None,
                  {| self := addCorrupted imagePath (self run');
                     sharpCalls := sharpCalls run' |})
             end
         end.
Proof.
  unfold getAverageColor, bind at 1, get at 1.
  destruct (bool_decide (imagePath ∈ corruptedTiles (self run))); [reflexivity|].
  destruct (tileCache (self run) !! imagePath); [reflexivity|].
  unfold tryCatch, bind.
  destruct (processImage sharpRaw 2 imagePath 0 run) as [[avgColor|message] run'];
    reflexivity.
Qed.

(** X9: getAverageColor never throws. For a path in corruptedTiles it returns
    null, and for a cached path the cached record, in both cases without
    calling the codec or changing the generator. Otherwise it calls the codec
    at most three times: it retries only after an error whose message contains
    'Premature end' or 'truncated', and at most twice; the first call that
    returns gives the record of the average colour, which is cached under the
    path; a call that throws an error it does not retry, or the third failure,
    adds the path to corruptedTiles and gives null. *)
Theorem getAverageColor_outcome (imagePath : string) (run : Run) :
  let attempt (j : nat) :=
    sharpRaw (sharpCalls run + j) imagePath (tileSize (self run)) in
  (imagePath ∈ corruptedTiles (self run) ->
   getAverageColor sharpRaw imagePath run = (Ok None, run)) /\
  (imagePath ∉ corruptedTiles (self run) ->
   forall cached : TileRecord,
     tileCache (self run) !! imagePath = Some cached ->
     getAverageColor sharpRaw imagePath run = (Ok (Some cached), run)) /\
  (imagePath ∉ corruptedTiles (self run) ->
   tileCache (self run) !! imagePath = None ->
   exists k : nat,
     (k <= 2)%nat /\
     (forall j : nat, (j < k)%nat ->
        exists message : string,
          attempt j = Throw message /\ retryable message = true) /\
     match attempt k with
     | Ok data =>
         getAverageColor sharpRaw imagePath run
         = (Ok (Some (averageColor imagePath data)),
            {| self := cacheTile imagePath (averageColor imagePath data) (self run);
               sharpCalls := S (sharpCalls run + k) |})
     | Throw message =>
         getAverageColor sharpRaw imagePath run
         = (Ok None,
            {| self := addCorrupted imagePath (self run);
               sharpCalls := S (sharpCalls run + k) |}) /\
         (retryable message = false \/ k = 2%nat)
     end).
Proof.
  intros attempt. rewrite getAverageColor_unfold.
  split; [|split].
  - intros Hin. rewrite bool_decide_eq_true_2 by exact Hin. reflexivity.
  - intros Hnot cached Hcached.
    rewrite bool_decide_eq_false_2 by exact Hnot. rewrite Hcached. reflexivity.
  - intros Hnot Hnone.
    rewrite bool_decide_eq_false_2 by exact Hnot. rewrite Hnone.
    destruct (processImage_run 2 imagePath 0 run)
      as (k & Hk & _ & Hbefore & Hlast).
    exists k. split; [exact Hk|]. split; [exact Hbefore|].
    subst attempt. cbv beta.
    destruct (sharpRaw (sharpCalls run + k) imagePath (tileSize (self run)))
      as [data|message].
    + rewrite Hlast. reflexivity.
    + destruct Hlast as [Hlast Hwhy]. rewrite Hlast. split; [reflexivity|].
      destruct Hwhy as [Hwhy|[Hwhy|Hwhy]]; [left; exact Hwhy|right; lia|right; exact Hwhy].
Qed.

Lemma getAverageColor_cases (imagePath : string) (run : Run) :
  exists (tile : option TileRecord) (run' : Run),
    getAverageColor sharpRaw imagePath run = (Ok tile, run') /\
    (sharpCalls run <= sharpCalls run' <= sharpCalls run + 3)%nat /\
    match tile with
    | None =>
        imagePath ∈ corruptedTiles (self run') /\
        (self run' = self run \/
         tileCache (self run) !! imagePath = None /\
         self run' = addCorrupted imagePath (self run))
    | Some t =>
        (imagePath ∉ corruptedTiles (self run)) /\
        tileCache (self run') !! imagePath = Some t /\
        (self run' = self run \/
         tileCache (self run) !! imagePath = None /\
         exists data : list Z,
           t = averageColor imagePath data /\
           self run' = cacheTile imagePath t (self run))
    end.
Proof.
  destruct (getAverageColor_outcome imagePath run) as (Hbad & Hhit & Hmiss).
  destruct (decide (imagePath ∈ corruptedTiles (self run))) as [Hin|Hnot].
  { exists None, run. rewrite (Hbad Hin). split; [reflexivity|].
    split; [lia|]. split; [exact Hin|left; reflexivity]. }
  destruct (tileCache (self run) !! imagePath) as [cached|] eqn:Hcache.
  { exists (Some cached), run. rewrite (Hhit Hnot cached eq_refl).
    split; [reflexivity|]. split; [lia|]. repeat split; auto. }
  destruct (Hmiss Hnot eq_refl) as (k & Hk & _ & Hlast).
  destruct (sharpRaw (sharpCalls run + k) imagePath (tileSize (self run)))
    as [data|message].
  - eexists _, _. split; [exact Hlast|]. cbn [self sharpCalls].
    split; [lia|]. split; [exact Hnot|]. split.
    + simpl. apply lookup_insert_eq.
    + right. split; [reflexivity|]. exists data. split; reflexivity.
  - destruct Hlast as [Hlast _].
    eexists _, _. split; [exact Hlast|]. cbn [self sharpCalls].
    split; [lia|]. split.
    + simpl. set_solver.
    + right. split; reflexivity.
Qed.

(** X10: Calling getAverageColor a second time on the same path, right after a
    first call, returns the same value as the first call (the same record, or
    null again) without calling the codec and without changing the generator.
    *)
Theorem getAverageColor_memoised (imagePath : string) (run : Run) :
  let first := getAverageColor sharpRaw imagePath run in
  getAverageColor sharpRaw imagePath (snd first) = (fst first, snd first).
Proof.
  intros first. subst first.
  destruct (getAverageColor_cases imagePath run)
    as (tile & run' & Hrun & _ & Hcase).
  rewrite Hrun. cbn [fst snd].
  destruct (getAverageColor_outcome imagePath run') as (Hbad & Hhit & _).
  destruct tile as [t|].
  - destruct Hcase as (Hnot & Hcached & Hself).
    apply Hhit; [|exact Hcached].
    destruct Hself as [->|(_ & data & _ & ->)]; exact Hnot.
  - destruct Hcase as (Hin & _). apply Hbad, Hin.
Qed.

End TileAnalysisProperties.

(** ** The average colour *)

Lemma readByte_app (pre post : list Z) (k : nat) :
  readByte (pre ++ post) (Z.of_nat (length pre) + Z.of_nat k)
  = match nth_error post k with
    | Some v => Int v
    | None => NaN
    end.
Proof.
  unfold readByte.
  destruct (Z.ltb_spec (Z.of_nat (length pre) + Z.of_nat k) 0) as [H|H]; [lia|].
  replace (Z.to_nat (Z.of_nat (length pre) + Z.of_nat k)) with (length pre + k)%nat
    by lia.
  rewrite nth_error_app2 by lia.
  replace (length pre + k - length pre)%nat with k by lia. reflexivity.
Qed.

Lemma channelSums_from (pixels : list (Z * Z * Z)) :
  forall (pre : list Z) (x y z : Z),
    fold_left
      (fun (sums : Color) (i : Z) =>
         {| r := num_add (r sums) (readByte (pre ++ rawBytes pixels) i);
            g := num_add (g sums) (readByte (pre ++ rawBytes pixels) (i + 1));
            b := num_add (b sums) (readByte (pre ++ rawBytes pixels) (i + 2)) |})
      (map (fun k => Z.of_nat (length pre) + 3 * k)
         (upto (Z.of_nat (length pixels))))
      (rgbColor x y z)
    = rgbColor (x + total red pixels) (y + total green pixels)
        (z + total blue pixels).
Proof.
  induction pixels as [|[[px py] pz] pixels IH]; intros pre x y z.
  - simpl. unfold total. simpl. rewrite !Z.add_0_r. reflexivity.
  - replace (Z.of_nat (length ((px, py, pz) :: pixels)))
      with (Z.of_nat (length pixels) + 1) by (simpl length; lia).
    rewrite upto_succ by lia. cbn [map fold_left].
    change (rawBytes ((px, py, pz) :: pixels))
      with ([px; py; pz] ++ rawBytes pixels).
    rewrite Z.mul_0_r.
    pose proof (readByte_app pre ([px; py; pz] ++ rawBytes pixels) 0) as H0.
    pose proof (readByte_app pre ([px; py; pz] ++ rawBytes pixels) 1) as H1.
    pose proof (readByte_app pre ([px; py; pz] ++ rawBytes pixels) 2) as H2.
    simpl in H0, H1, H2.
    change (Z.of_nat 0) with 0 in H0. change (Z.of_nat 1) with 1 in H1.
    change (Z.of_nat 2) with 2 in H2.
    replace (Z.of_nat (length pre) + 0 + 1) with (Z.of_nat (length pre) + 1) by lia.
    replace (Z.of_nat (length pre) + 0 + 2) with (Z.of_nat (length pre) + 2) by lia.
    cbn [app]. rewrite H0, H1, H2. cbn [r g b rgbColor num_add num_lift2].
    rewrite map_map.
    specialize (IH (pre ++ [px; py; pz]) (x + px) (y + py) (z + pz)).
    rewrite <- app_assoc in IH.
    rewrite (map_ext _ (fun k => Z.of_nat (length (pre ++ [px; py; pz])) + 3 * k)).
    2:{ intros k. rewrite length_app. simpl length. lia. }
    fold (rgbColor (x + px) (y + py) (z + pz)).
    etransitivity; [exact IH|]. unfold total, red, green, blue. simpl.
    unfold rgbColor. f_equal; f_equal; lia.
Qed.

Lemma length_rawBytes (pixels : list (Z * Z * Z)) :
  length (rawBytes pixels) = (3 * length pixels)%nat.
Proof.
  induction pixels as [|[[x y] z] pixels IH]; [reflexivity|].
  change (rawBytes ((x, y, z) :: pixels)) with ([x; y; z] ++ rawBytes pixels).
  rewrite length_app, IH. simpl. lia.
Qed.

Lemma channelSums_rawBytes (pixels : list (Z * Z * Z)) :
  channelSums (rawBytes pixels)
  = rgbColor (total red pixels) (total green pixels) (total blue pixels).
Proof.
  unfold channelSums. rewrite length_rawBytes.
  replace ((Z.of_nat (3 * length pixels) + 2) / 3) with (Z.of_nat (length pixels))
    by (Z.div_mod_to_equations; lia).
  exact (channelSums_from pixels [] 0 0 0).
Qed.

Lemma averageChannel_mean (sum : Z) (n : nat) :
  (0 < n)%nat ->
  averageChannel (Int sum) (3 * n)
  = Int ((2 * sum + Z.of_nat n) / (2 * Z.of_nat n)).
Proof.
  intros Hn. unfold averageChannel.
  destruct (3 * n)%nat as [|m] eqn:Hm; [lia|]. rewrite <- Hm. f_equal.
  rewrite <- (Math_round_div sum (Z.of_nat n)) by lia.
  unfold Math_round. apply Qfloor_comp.
  apply Qplus_comp; [|reflexivity]. apply Qdiv_comp; [reflexivity|].
  rewrite Nat2Z.inj_mul, inject_Z_mult. change (inject_Z (Z.of_nat 3)) with 3%Q.
  field.
Qed.

Lemma total_bounds (channel : Z * Z * Z -> Z) (lo hi : Z)
  (pixels : list (Z * Z * Z)) :
  Forall (fun px => lo <= channel px <= hi) pixels ->
  lo * Z.of_nat (length pixels) <= total channel pixels
  <= hi * Z.of_nat (length pixels).
Proof.
  unfold total. induction 1 as [|px pixels Hpx _ IH]; simpl length; simpl; lia.
Qed.

Lemma rounded_mean_bounds (sum n lo hi : Z) :
  0 < n -> lo * n <= sum <= hi * n ->
  lo <= (2 * sum + n) / (2 * n) <= hi.
Proof.
  intros Hn Hsum. pose proof (nearest_quotient sum n Hn). nia.
Qed.

(** X11: For a raw buffer of n >= 1 whole RGB pixels, the record
    getAverageColor computes holds, for each channel, the integer nearest to
    the mean of that channel over the pixels (within one half, as Math.round
    gives it), under the path of the image; when every byte is between 0 and
    255 so is every channel of the average. *)
Theorem average_color_is_rounded_mean (imagePath : string)
  (pixels : list (Z * Z * Z)) :
  pixels <> [] ->
  let n := Z.of_nat (length pixels) in
  exists x y z : Z,
    averageColor imagePath (rawBytes pixels) = mkTile imagePath (rgbColor x y z) /\
    (2 * total red pixels - n < 2 * n * x <= 2 * total red pixels + n) /\
    (2 * total green pixels - n < 2 * n * y <= 2 * total green pixels + n) /\
    (2 * total blue pixels - n < 2 * n * z <= 2 * total blue pixels + n) /\
    (Forall (fun v => 0 <= v <= 255) (rawBytes pixels) ->
     0 <= x <= 255 /\ 0 <= y <= 255 /\ 0 <= z <= 255).
Proof.
  intros Hne n.
  assert (Hn : 0 < n) by (destruct pixels; [congruence|simpl in n; lia]).
  assert (Hlen : (0 < length pixels)%nat) by lia.
  exists ((2 * total red pixels + n) / (2 * n)),
         ((2 * total green pixels + n) / (2 * n)),
         ((2 * total blue pixels + n) / (2 * n)).
  split; [|split; [|split; [|split]]].
  - unfold averageColor. rewrite channelSums_rawBytes, length_rawBytes.
    cbn [r g b rgbColor]. rewrite !(averageChannel_mean _ _ Hlen). reflexivity.
  - apply nearest_quotient, Hn.
  - apply nearest_quotient, Hn.
  - apply nearest_quotient, Hn.
  - intros Hbytes.
    assert (Hpx : Forall (fun px => (0 <= red px <= 255) /\ (0 <= green px <= 255)
                                    /\ (0 <= blue px <= 255)) pixels).
    { clear -Hbytes. induction pixels as [|[[x y] z] pixels IH]; constructor.
      - change (rawBytes ((x, y, z) :: pixels)) with (x :: y :: z :: rawBytes pixels)
          in Hbytes.
        inversion Hbytes as [|? ? Hx H1]; subst.
        inversion H1 as [|? ? Hy H2]; subst.
        inversion H2 as [|? ? Hz H3]; subst. simpl. auto.
      - apply IH.
        change (rawBytes ((x, y, z) :: pixels)) with (x :: y :: z :: rawBytes pixels)
          in Hbytes.
        inversion Hbytes as [|? ? _ H1]; subst.
        inversion H1 as [|? ? _ H2]; subst.
        inversion H2 as [|? ? _ H3]; subst. exact H3. }
    split; [|split]; apply rounded_mean_bounds; try exact Hn;
      apply total_bounds; eapply List.Forall_impl; try exact Hpx;
      simpl; intros px Hp; tauto.
Qed.

Lemma readByte_past_end (data : list Z) (i : Z) :
  Z.of_nat (length data) <= i -> readByte data i = NaN.
Proof.
  intros Hi. unfold readByte. destruct (i <? 0); [reflexivity|].
  destruct (nth_error data (Z.to_nat i)) as [v|] eqn:Hnth; [|reflexivity].
  assert (Hlt : (Z.to_nat i < length data)%nat).
  { apply nth_error_Some. rewrite Hnth. discriminate. }
  lia.
Qed.

Lemma upto_snoc (n : Z) : 0 <= n -> upto (n + 1) = upto n ++ [n].
Proof.
  intros Hn. unfold upto.
  replace (Z.to_nat (n + 1)) with (S (Z.to_nat n)) by lia.
  rewrite seq_S, map_app. simpl. f_equal. f_equal. lia.
Qed.

Lemma num_add_NaN_r (a : num) : num_add a NaN = NaN.
Proof. destruct a; reflexivity. Qed.

(** X12: The average colour computed from an empty raw buffer has r, g and b
    all NaN (0 / 0), and the one computed from a buffer whose length is not a
    multiple of 3 has b NaN, since the loop then reads past the end of the
    buffer. *)
Theorem average_color_of_ragged_buffer (imagePath : string) (data : list Z) :
  (data = [] ->
   rgb (averageColor imagePath data) = mkColor NaN NaN NaN) /\
  (Z.of_nat (length data) mod 3 <> 0 ->
   b (averageColor imagePath data) = NaN).
Proof.
  split.
  - intros ->. reflexivity.
  - intros Hragged. unfold averageColor. cbn [b rgb].
    assert (Hb : b (channelSums data) = NaN); [|rewrite Hb; reflexivity].
    unfold channelSums.
    set (q := Z.of_nat (length data) / 3).
    assert (Hq : Z.of_nat (length data) = 3 * q + Z.of_nat (length data) mod 3).
    { apply Z.div_mod. lia. }
    pose proof (Z.mod_pos_bound (Z.of_nat (length data)) 3 ltac:(lia)) as Hrem.
    assert (Hq0 : 0 <= q) by (subst q; apply Z.div_pos; lia).
    set (rest := Z.of_nat (length data) mod 3) in *. clearbody q rest.
    replace ((Z.of_nat (length data) + 2) / 3) with (q + 1)
      by (apply (Z.div_unique _ _ (q + 1) (rest - 1)); lia).
    rewrite upto_snoc by lia.
    rewrite map_app, fold_left_app. cbn [map fold_left b].
    rewrite (readByte_past_end data (3 * q + 2)) by lia.
    apply num_add_NaN_r.
Qed.

Lemma average_color_is_rounded_mean_witness :
  let pixels := [(10, 20, 30); (30, 40, 51); (0, 255, 7)] in
  let n := Z.of_nat (length pixels) in
  exists x y z : Z,
    averageColor "a.jpg" (rawBytes pixels) = mkTile "a.jpg" (rgbColor x y z) /\
    (2 * total red pixels - n < 2 * n * x <= 2 * total red pixels + n) /\
    (2 * total green pixels - n < 2 * n * y <= 2 * total green pixels + n) /\
    (2 * total blue pixels - n < 2 * n * z <= 2 * total blue pixels + n) /\
    (Forall (fun v => 0 <= v <= 255) (rawBytes pixels) ->
     0 <= x <= 255 /\ 0 <= y <= 255 /\ 0 <= z <= 255).
Proof.
  apply (average_color_is_rounded_mean "a.jpg"
           [(10, 20, 30); (30, 40, 51); (0, 255, 7)]).
  discriminate.
Defined.

(** ** Validation with retries *)

Lemma validateAttempts_run (sharpRaw : nat -> string -> Z -> result (list Z))
  (imagePath : string) (n : nat) :
  forall (a : nat) (run : Run),
    exists k : nat,
      (k < S n)%nat /\
      (forall j : nat, (j < k)%nat ->
         exists message : string,
           sharpRaw (sharpCalls run + j)%nat imagePath (tileSize (self run))
           = Throw message) /\
      validateAttempts sharpRaw (map Z.of_nat (seq (S a) (S n))) imagePath
        (Z.of_nat (a + S n)) run
      = (match sharpRaw (sharpCalls run + k)%nat imagePath (tileSize (self run)) with
         | Ok _ => Ok tt
         | Throw message => Throw message
         end,
         {| self := self run; sharpCalls := S (sharpCalls run + k) |}) /\
      (forall message : string,
         sharpRaw (sharpCalls run + k)%nat imagePath (tileSize (self run))
         = Throw message -> k = n).
Proof.
  induction n as [|n IH]; intros a run.
  - exists 0%nat. rewrite Nat.add_0_r. split; [lia|].
    split; [intros j Hj; lia|]. split; [|reflexivity].
    cbn [seq map validateAttempts]. unfold loadTile.
    destruct (sharpRaw (sharpCalls run) imagePath (tileSize (self run)))
      as [buf|message]; [reflexivity|].
    replace (Z.of_nat (S a) =? Z.of_nat (a + 1)) with true
      by (symmetry; apply Z.eqb_eq; lia).
    reflexivity.
  - destruct (sharpRaw (sharpCalls run) imagePath (tileSize (self run)))
      as [buf|message] eqn:Hfirst.
    + exists 0%nat. rewrite Nat.add_0_r, Hfirst. split; [lia|].
      split; [intros j Hj; lia|]. split; [|discriminate].
      cbn [seq map validateAttempts]. unfold loadTile. rewrite Hfirst. reflexivity.
    + destruct (IH (S a) (oneMoreCall run)) as (k & Hk & Hbefore & Hrun & Hlast).
      cbn [self sharpCalls oneMoreCall] in Hbefore, Hrun, Hlast.
      exists (S k). split; [lia|]. split; [|split].
      * intros [|j] Hj.
        -- exists message. rewrite Nat.add_0_r. exact Hfirst.
        -- destruct (Hbefore j ltac:(lia)) as (m & Hm). exists m.
           replace (sharpCalls run + S j)%nat with (S (sharpCalls run) + j)%nat
             by lia. exact Hm.
      * replace (sharpCalls run + S k)%nat with (S (sharpCalls run) + k)%nat by lia.
        rewrite <- Hrun.
        change (seq (S a) (S (S n))) with (S a :: seq (S (S a)) (S n)).
        cbn [map validateAttempts]. unfold loadTile at 1. rewrite Hfirst.
        replace (Z.of_nat (S a) =? Z.of_nat (a + S (S n))) with false
          by (symmetry; apply Z.eqb_neq; lia).
        replace (a + S (S n))%nat with (S a + S n)%nat by lia. reflexivity.
      * intros m Hm. f_equal. apply (Hlast m).
        replace (S (sharpCalls run) + k)%nat with (sharpCalls run + S k)%nat
          by lia. exact Hm.
Qed.

(** X13: validateTileWithRetry with maxRetries >= 1 calls the codec until a
    call returns, at most maxRetries times: it returns after the first
    successful call, and throws the error of call number maxRetries when all
    of them fail; the generator is unchanged. With maxRetries <= 0 it returns
    at once, without any codec call, so the tile counts as valid unchecked. *)
Theorem validateTileWithRetry_outcome
  (sharpRaw : nat -> string -> Z -> result (list Z))
  (imagePath : string) (maxRetries : Z) (run : Run) :
  let attempt (j : nat) :=
    sharpRaw (sharpCalls run + j)%nat imagePath (tileSize (self run)) in
  (maxRetries <= 0 ->
   validateTileWithRetry sharpRaw imagePath maxRetries run = (Ok tt, run)) /\
  (0 < maxRetries ->
   exists k : nat,
     (Z.of_nat k < maxRetries) /\
     (forall j : nat, (j < k)%nat ->
        exists message : string, attempt j = Throw message) /\
     validateTileWithRetry sharpRaw imagePath maxRetries run
     = (match attempt k with
        | Ok _ => Ok tt
        | Throw message => Throw message
        end,
        {| self := self run; sharpCalls := S (sharpCalls run + k) |}) /\
     (forall message : string,
        attempt k = Throw message -> Z.of_nat k + 1 = maxRetries)).
Proof.
  intros attempt. unfold validateTileWithRetry. split.
  - intros Hle. unfold upto.
    replace (Z.to_nat maxRetries) with 0%nat by lia. reflexivity.
  - intros Hpos.
    destruct (validateAttempts_run sharpRaw imagePath
                (Nat.pred (Z.to_nat maxRetries)) 0 run)
      as (k & Hk & Hbefore & Hrun & Hlast).
    exists k. split; [lia|]. split; [exact Hbefore|]. split.
    + subst attempt. cbv beta. rewrite <- Hrun. f_equal.
      * unfold upto. rewrite map_map.
        replace (S (Nat.pred (Z.to_nat maxRetries))) with (Z.to_nat maxRetries) by lia.
        rewrite <- seq_shift, map_map. apply map_ext. intros i. lia.
      * lia.
    + intros m Hm. specialize (Hlast m Hm). lia.
Qed.

(** ** Directory scan *)

Lemma FsNode_nested_ind (P : FsNode -> Prop) :
  P FileNode ->
  (forall message : string, P (BrokenNode message)) ->
  (forall message : string, P (DirNode (Throw message))) ->
  (forall items : list (string * FsNode),
     Forall (fun entry => P (snd entry)) items -> P (DirNode (Ok items))) ->
  forall node : FsNode, P node.
Proof.
  intros Hfile Hbroken Hunreadable Hdir. fix IH 1.
  intros [|[items|message]|message];
    [apply Hfile| |apply Hunreadable|apply Hbroken].
  apply Hdir. induction items as [|[item child] items IHitems]; constructor.
  - apply IH.
  - exact IHitems.
Qed.

Section DirectoryScanProperties.

Variable path_join : string -> string -> string.
Variable path_extname : string -> string.
Variable toLowerCase : string -> string.

Lemma Reached_inv (currentDir : string) (items : list (string * FsNode))
  (file : string) :
  Reached path_join path_extname toLowerCase currentDir (DirNode (Ok items)) file
  <-> exists (before : list (string * FsNode)) (item : string) (child : FsNode)
        (after : list (string * FsNode)),
        items = before ++ (item, child) :: after /\
        Forall statWorks before /\
        (child = FileNode /\
         isImageName path_extname toLowerCase item = true /\
         file = path_join currentDir item
         \/ exists listing : result (list (string * FsNode)),
              child = DirNode listing /\
              Reached path_join path_extname toLowerCase
                (path_join currentDir item) child file).
Proof.
  split.
  - intros H. inversion H as [dir item before after Hb Himg
                             |dir item listing before after f Hb Hsub]; subst.
    + exists before, item, FileNode, after. repeat split; auto.
    + exists before, item, (DirNode listing), after.
      repeat split; auto. right. exists listing. split; [reflexivity|exact Hsub].
  - intros (before & item & child & after & -> & Hb & [(-> & Himg & ->)|(l & -> & Hsub)]).
    + apply Reached_file; assumption.
    + apply Reached_below; assumption.
Qed.

Lemma scanItems_run (items : list (string * FsNode)) :
  Forall
    (fun entry =>
       forall (dir : string) (files : list string),
         exists found : list string,
           scanDirectory path_join path_extname toLowerCase dir (snd entry) files
           = (Ok tt, files ++ found) /\
           forall file : string,
             In file found
             <-> Reached path_join path_extname toLowerCase dir (snd entry) file)
    items ->
  forall (currentDir : string) (files : list string),
    exists (outcome : result unit) (found : list string),
      scanItems path_join path_extname toLowerCase
        (scanDirectory path_join path_extname toLowerCase) currentDir items files
      = (outcome, files ++ found) /\
      forall file : string,
        In file found
        <-> Reached path_join path_extname toLowerCase currentDir
              (DirNode (Ok items)) file.
Proof.
  induction 1 as [|[item child] items Hchild _ IH]; intros currentDir files.
  - exists (Ok tt), []. rewrite app_nil_r. split; [reflexivity|].
    intros file. rewrite Reached_inv. split; [intros []|].
    intros (before & i & c & after & Heq & _). destruct before; discriminate.
  - destruct child as [|listing|message].
    + (* a file *)
      set (fullPath := path_join currentDir item).
      set (pushed := if isImageName path_extname toLowerCase item
                     then [fullPath] else []).
      destruct (IH currentDir (files ++ pushed)) as (outcome & found & Hrun & Hfound).
      exists outcome, (pushed ++ found). split.
      * cbn [scanItems]. fold fullPath. unfold bind at 1.
        replace ((if isImageName path_extname toLowerCase item
                  then modify (fun files0 => files0 ++ [fullPath])
                  else ret tt) files)
          with (Ok tt, files ++ pushed).
        2:{ subst pushed. destruct (isImageName _ _ item); [reflexivity|].
            unfold ret. rewrite app_nil_r. reflexivity. }
        rewrite app_assoc. exact Hrun.
      * intros file. rewrite in_app_iff, Hfound, !Reached_inv. split.
        -- intros [Hin|(before & i & c & after & -> & Hb & Hc)].
           ++ exists [], item, FileNode, items. split; [reflexivity|].
              split; [constructor|]. left. subst pushed.
              destruct (isImageName _ _ item) eqn:Himg; [|destruct Hin].
              destruct Hin as [<-|[]]. auto.
           ++ exists ((item, FileNode) :: before), i, c, after.
              split; [reflexivity|]. split; [|exact Hc].
              constructor; [intros m; discriminate|exact Hb].
        -- intros (before & i & c & after & Heq & Hb & Hc).
           destruct before as [|entry before].
           ++ injection Heq as <- <- <-.
              destruct Hc as [(_ & Himg & ->)|(l & Hl & _)]; [|discriminate].
              left. subst pushed. rewrite Himg. left. reflexivity.
           ++ injection Heq as <- ->. right.
              exists before, i, c, after. split; [reflexivity|].
              split; [|exact Hc]. inversion Hb; assumption.
    + (* a directory *)
      set (fullPath := path_join currentDir item).
      destruct (Hchild fullPath files) as (below & Hsub & Hbelow).
      cbn [snd] in Hsub, Hbelow.
      destruct (IH currentDir (files ++ below)) as (outcome & found & Hrun & Hfound).
      exists outcome, (below ++ found). split.
      * cbn [scanItems]. fold fullPath. unfold bind at 1. rewrite Hsub.
        rewrite app_assoc. exact Hrun.
      * intros file. rewrite in_app_iff, Hfound, Hbelow, !(Reached_inv currentDir).
        split.
        -- intros [Hin|(before & i & c & after & -> & Hb & Hc)].
           ++ exists [], item, (DirNode listing), items. split; [reflexivity|].
              split; [constructor|]. right. exists listing. auto.
           ++ exists ((item, DirNode listing) :: before), i, c, after.
              split; [reflexivity|]. split; [|exact Hc].
              constructor; [intros m; discriminate|exact Hb].
        -- intros (before & i & c & after & Heq & Hb & Hc).
           destruct before as [|entry before].
           ++ injection Heq as <- <- <-.
              destruct Hc as [(Hl & _)|(l & _ & Hsub')]; [discriminate|].
              left. exact Hsub'.
           ++ injection Heq as <- ->. right.
              exists before, i, c, after. split; [reflexivity|].
              split; [|exact Hc]. inversion Hb; assumption.
    + (* stat throws: the rest of the directory is left out *)
      exists (Throw message), []. rewrite app_nil_r. split; [reflexivity|].
      intros file. rewrite Reached_inv. split; [intros []|].
      intros (before & i & c & after & Heq & Hb & Hc).
      destruct before as [|entry before].
      * injection Heq as <- <- <-.
        destruct Hc as [(Hc & _)|(l & Hc & _)]; discriminate.
      * injection Heq as <- ->. inversion Hb as [|? ? Hentry _]; subst.
        exfalso. exact (Hentry message eq_refl).
Qed.

Lemma scanDirectory_run (node : FsNode) :
  forall (dir : string) (files : list string),
    exists found : list string,
      scanDirectory path_join path_extname toLowerCase dir node files
      = (Ok tt, files ++ found) /\
      forall file : string,
        In file found
        <-> Reached path_join path_extname toLowerCase dir node file.
Proof.
  induction node as [|message|message|items Hitems] using FsNode_nested_ind;
    intros dir files.
  - exists []. rewrite app_nil_r. split; [reflexivity|].
    intros file. split; [intros []|intros H; inversion H].
  - exists []. rewrite app_nil_r. split; [reflexivity|].
    intros file. split; [intros []|intros H; inversion H].
  - exists []. rewrite app_nil_r. split; [reflexivity|].
    intros file. split; [intros []|intros H; inversion H].
  - destruct (scanItems_run items Hitems dir files) as (outcome & found & Hrun & Hfound).
    exists found. split; [|exact Hfound].
    cbn [scanDirectory]. unfold tryCatch. rewrite Hrun.
    destruct outcome as [[]|message]; reflexivity.
Qed.

(** X14: getImageFiles returns exactly the files reached by its scan: a path
    is returned if and only if it is a file whose extension, lower-cased, is
    one of .jpg, .jpeg, .png, .gif, .bmp, .webp, every directory on the way to
    it can be listed, and neither it nor any of these directories comes, in
    the listing of its parent, after an entry whose stat throws. So a
    directory that cannot be listed contributes nothing, and an entry whose
    stat throws hides the entries listed after it in the same directory, not
    those before it nor those of other directories. *)
Theorem getImageFiles_finds_reached (dir : string) (root : FsNode) (file : string) :
  In file (getImageFiles path_join path_extname toLowerCase dir root)
  <-> Reached path_join path_extname toLowerCase dir root file.
Proof.
  unfold getImageFiles.
  destruct (scanDirectory_run root dir []) as (found & Hrun & Hfound).
  rewrite Hrun. exact (Hfound file).
Qed.

End DirectoryScanProperties.

(** ** Tile corpus *)

Lemma filter_not_in_own_set (l : list string) :
  List.filter
    (fun file => negb (bool_decide (file ∈ (list_to_set l : gset string)))) l
  = [].
Proof.
  assert (H : forall l' : list string,
             (forall f, In f l' -> f ∈ (list_to_set l : gset string)) ->
             List.filter
               (fun file => negb (bool_decide (file ∈ (list_to_set l : gset string))))
               l' = []).
  { induction l' as [|f l' IH]; intros Hin; [reflexivity|].
    simpl. rewrite bool_decide_eq_true_2 by (apply Hin; left; reflexivity).
    simpl. apply IH. intros f' Hf'. apply Hin. right. exact Hf'. }
  apply H. intros f Hf. apply elem_of_list_to_set, list_elem_of_In, Hf.
Qed.

Section TileCorpusProperties.

Variable sharpRaw : nat -> string -> Z -> result (list Z).
Variable path_join : string -> string -> string.
Variable path_extname : string -> string.
Variable toLowerCase : string -> string.
Variable cacheWritable : bool.

Lemma loadTiles_cached (tilesDirectory : string) (root : FsNode)
  (tsize : Z) (ws : Workspace) (csvData : string) :
  cacheFile ws = Some csvData ->
  loadTiles sharpRaw path_join path_extname toLowerCase cacheWritable
    tilesDirectory root tsize ws
  = (match parseTileCache csvData with
     | [] => Throw noTileImagesMsg
     | tiles => Ok tiles
     end,
     {| wsRun :=
          {| self :=
               fold_left (fun this' file => addCorrupted file this')
                 knownCorruptedFiles
                 (snd (loadTileCacheFromCSV (Some csvData)
                         (setTileSize tsize (self (wsRun ws)))));
             sharpCalls := sharpCalls (wsRun ws) |};
        cacheFile := Some csvData |}).
Proof.
  intros Hfile. unfold loadTiles.
  unfold bind at 1. unfold onGenerator at 1, onRun at 1, modify at 1.
  unfold bind at 1. unfold get at 1. cbn [wsRun cacheFile self sharpCalls].
  rewrite Hfile. cbn [loadTileCacheFromCSV fst snd].
  unfold bind at 1. unfold onGenerator at 1, onRun at 1, modify at 1.
  cbn [wsRun cacheFile self sharpCalls].
  unfold bind at 1. unfold onGenerator at 1, onRun at 1, modify at 1.
  cbn [wsRun cacheFile self sharpCalls].
  rewrite filter_not_in_own_set.
  unfold bind at 1, ret at 1.
  destruct (parseTileCache csvData) as [|tile tiles]; reflexivity.
Qed.

Lemma tileCache_after_load (tiles : list TileRecord) :
  forall (cache : gmap string TileRecord) (tile : TileRecord),
    In tile tiles \/
    (exists x : TileRecord, cache !! path tile = Some x /\ path x = path tile) ->
    exists cached : TileRecord,
      fold_left (fun cache0 tileData => <[path tileData := tileData]> cache0)
        tiles cache !! path tile = Some cached /\
      path cached = path tile.
Proof.
  induction tiles as [|t tiles IH]; intros cache tile Hin.
  - destruct Hin as [[]|Hx]. exact Hx.
  - simpl. apply IH. destruct Hin as [[->|Hin]|(x & Hx & Hpath)].
    + right. exists tile. split; [apply lookup_insert_eq|reflexivity].
    + left. exact Hin.
    + right. destruct (decide (path t = path tile)) as [Heq|Hne].
      * exists t. split; [rewrite Heq; apply lookup_insert_eq|exact Heq].
      * exists x. split; [|exact Hpath].
        rewrite lookup_insert_ne by exact Hne. exact Hx.
Qed.

(** X15: When tiles.csv can be read, generateMosaic takes its tiles from the
    cache alone: the tiles are the records parsed from the file, the tiles
    directory is not scanned, no tile image is decoded (no codec call), the
    cache file is not rewritten (the list of new tile files is always empty),
    every record is stored in this.tileCache under its path, and the known
    corrupted file is added to this.corruptedTiles. It throws 'No valid tile
    images could be processed' exactly when the file holds no record. *)
Theorem loadTiles_from_cache (tilesDirectory : string) (root : FsNode)
  (tsize : Z) (ws : Workspace) (csvData : string) :
  cacheFile ws = Some csvData ->
  let out := loadTiles sharpRaw path_join path_extname toLowerCase cacheWritable
               tilesDirectory root tsize ws in
  fst out = match parseTileCache csvData with
            | [] => Throw noTileImagesMsg
            | tiles => Ok tiles
            end /\
  sharpCalls (wsRun (snd out)) = sharpCalls (wsRun ws) /\
  cacheFile (snd out) = Some csvData /\
  tileSize (self (wsRun (snd out))) = tsize /\
  corruptedTiles (self (wsRun (snd out)))
  = list_to_set knownCorruptedFiles ∪ corruptedTiles (self (wsRun ws)) /\
  forall tile : TileRecord,
    In tile (parseTileCache csvData) ->
    exists cached : TileRecord,
      tileCache (self (wsRun (snd out))) !! path tile = Some cached /\
      path cached = path tile.
Proof.
  intros Hfile out. subst out. rewrite (loadTiles_cached _ _ _ _ _ Hfile).
  cbn [fst snd wsRun cacheFile self sharpCalls].
  split; [reflexivity|]. split; [reflexivity|]. split; [reflexivity|].
  split; [reflexivity|]. split.
  - cbn. set_solver.
  - intros tile Hin. cbn [fold_left knownCorruptedFiles addCorrupted tileCache
                          loadTileCacheFromCSV snd].
    apply tileCache_after_load. left. exact Hin.
Qed.

Lemma getAverageColor_keeps (imagePath : string) (run : Run) :
  cacheConsistent (self run) ->
  exists (tile : option TileRecord) (run' : Run),
    getAverageColor sharpRaw imagePath run = (Ok tile, run') /\
    cacheConsistent (self run') /\
    (forall (q : string) (t : TileRecord),
       tileCache (self run) !! q = Some t -> tileCache (self run') !! q = Some t) /\
    corruptedTiles (self run) ⊆ corruptedTiles (self run') /\
    tileSize (self run') = tileSize (self run) /\
    (sharpCalls run <= sharpCalls run' <= sharpCalls run + 3)%nat /\
    match tile with
    | Some t => path t = imagePath /\ tileCache (self run') !! imagePath = Some t
    | None => imagePath ∈ corruptedTiles (self run')
    end.
Proof.
  intros Hcons.
  destruct (getAverageColor_cases sharpRaw imagePath run)
    as (tile & run' & Hrun & Hcalls & Hcase).
  exists tile, run'. split; [exact Hrun|].
  destruct tile as [t|].
  - destruct Hcase as (Hnot & Hcached & [Hself|(Hnone & data & Ht & Hself)]).
    + rewrite Hself in *.
      split; [|split; [|split; [|split; [|split; [|split]]]]];
        auto; try lia.
      apply (Hcons _ _ Hcached).
    + rewrite Hself in *. cbn [cacheTile tileCache corruptedTiles tileSize] in *.
      split; [|split; [|split; [|split; [|split; [|split]]]]];
        auto; try lia.
      * intros q u Hq. cbn [tileCache corruptedTiles cacheTile] in *.
        destruct (decide (imagePath = q)) as [<-|Hne].
        -- rewrite lookup_insert_eq in Hq. injection Hq as <-.
           split; [rewrite Ht; reflexivity|exact Hnot].
        -- rewrite lookup_insert_ne in Hq by exact Hne. apply (Hcons _ _ Hq).
      * intros q u Hq. destruct (decide (imagePath = q)) as [<-|Hne];
          [congruence|]. rewrite lookup_insert_ne by exact Hne. exact Hq.
      * rewrite Ht. reflexivity.
  - destruct Hcase as (Hin & [Hself|(Hnone & Hself)]).
    + rewrite Hself in *.
      split; [|split; [|split; [|split; [|split]]]]; auto; lia.
    + rewrite Hself in *. cbn [addCorrupted tileCache corruptedTiles tileSize] in *.
      split; [|split; [|split; [|split; [|split]]]]; auto; try lia.
      * intros q u Hq. cbn [tileCache corruptedTiles addCorrupted] in *.
        destruct (Hcons _ _ Hq) as [Hpath Hq'].
        split; [exact Hpath|]. intros Hbad.
        apply elem_of_union in Hbad as [Hbad|Hbad]; [|contradiction].
        apply elem_of_singleton in Hbad. subst q. congruence.
      * apply union_subseteq_r.
Qed.

Lemma processTiles_run (files : list string) :
  forall (tiles : list TileRecord) (run : Run),
    cacheConsistent (self run) ->
    (forall t : TileRecord,
       In t tiles -> tileCache (self run) !! path t = Some t) ->
    exists (more : list TileRecord) (run' : Run),
      processTiles sharpRaw files tiles run = (Ok (tiles ++ more), run') /\
      cacheConsistent (self run') /\
      (forall (q : string) (t : TileRecord),
         tileCache (self run) !! q = Some t -> tileCache (self run') !! q = Some t) /\
      corruptedTiles (self run) ⊆ corruptedTiles (self run') /\
      tileSize (self run') = tileSize (self run) /\
      (sharpCalls run <= sharpCalls run' <= sharpCalls run + 3 * length files)%nat /\
      (forall t : TileRecord,
         In t (tiles ++ more) -> tileCache (self run') !! path t = Some t) /\
      (forall t : TileRecord, In t more -> In (path t) files) /\
      (forall f : string,
         In f files ->
         f ∈ corruptedTiles (self run') \/ exists t, In t more /\ path t = f).
Proof.
  induction files as [|f files IH]; intros tiles run Hcons Htiles.
  - exists [], run. rewrite app_nil_r. simpl.
    split; [|split; [|split; [|split; [|split; [|split; [|split; [|split]]]]]]];
      auto; try lia; intros x [].
  - destruct (getAverageColor_keeps f run Hcons)
      as (tile & run1 & Hrun1 & Hcons1 & Hmono1 & Hsub1 & Hsize1 & Hcalls1 & Htile).
    set (tiles1 := match tile with Some t => tiles ++ [t] | None => tiles end).
    assert (Htiles1 : forall t, In t tiles1 -> tileCache (self run1) !! path t = Some t).
    { intros t Ht. subst tiles1. destruct tile as [u|].
      - apply in_app_iff in Ht as [Ht|[<-|[]]].
        + apply Hmono1, Htiles, Ht.
        + destruct Htile as [-> Hu]. exact Hu.
      - apply Hmono1, Htiles, Ht. }
    destruct (IH tiles1 run1 Hcons1 Htiles1)
      as (more & run' & Hrun & Hcons' & Hmono & Hsub & Hsize & Hcalls & Hall
          & Hpaths & Hfiles).
    exists (match tile with Some t => t :: more | None => more end), run'.
    assert (Heq : tiles1 ++ more
                  = tiles ++ match tile with Some t => t :: more | None => more end).
    { subst tiles1. destruct tile; [rewrite <- app_assoc|]; reflexivity. }
    rewrite <- Heq.
    split; [|split; [|split; [|split; [|split; [|split; [|split; [|split]]]]]]].
    + cbn [processTiles]. unfold bind. rewrite Hrun1. exact Hrun.
    + exact Hcons'.
    + intros q t Hq. apply Hmono, Hmono1, Hq.
    + transitivity (corruptedTiles (self run1)); assumption.
    + congruence.
    + simpl length. lia.
    + exact Hall.
    + intros t Ht. destruct tile as [u|].
      * destruct Ht as [<-|Ht]; [left; symmetry; apply Htile|right; apply Hpaths, Ht].
      * right. apply Hpaths, Ht.
    + intros f' [<-|Hf'].
      * destruct tile as [u|].
        -- right. exists u. split; [left; reflexivity|apply Htile].
        -- left. apply Hsub, Htile.
      * destruct (Hfiles f' Hf') as [Hbad|(t & Ht & Hpath)]; [left; exact Hbad|].
        right. exists t. split; [|exact Hpath].
        destruct tile; [right|]; exact Ht.
Qed.

Lemma loadTiles_uncached (tilesDirectory : string) (root : FsNode)
  (tsize : Z) (ws : Workspace) :
  cacheFile ws = None ->
  let files :=
    getImageFiles path_join path_extname toLowerCase tilesDirectory root in
  let ws0 := {| wsRun := {| self := setTileSize tsize (self (wsRun ws));
                            sharpCalls := sharpCalls (wsRun ws) |};
                cacheFile := None |} in
  (files = [] ->
   loadTiles sharpRaw path_join path_extname toLowerCase cacheWritable
     tilesDirectory root tsize ws
   = (Throw (noImageFilesMsg tilesDirectory), ws0)) /\
  (files <> [] ->
   forall (tiles : list TileRecord) (run' : Run),
     processTiles sharpRaw files [] (wsRun ws0) = (Ok tiles, run') ->
     loadTiles sharpRaw path_join path_extname toLowerCase cacheWritable
       tilesDirectory root tsize ws
     = (match tiles with
        | [] => Throw noTileImagesMsg
        | _ => Ok tiles
        end,
        {| wsRun := run';
           cacheFile := if cacheWritable then Some (saveTileCacheToCSV tiles)
                        else None |})).
Proof.
  intros Hfile files ws0.
  assert (Hstart : loadTiles sharpRaw path_join path_extname toLowerCase
                     cacheWritable tilesDirectory root tsize ws
                   = match files with
                     | [] => throw (noImageFilesMsg tilesDirectory)
                     | _ =>
                         let* tiles := onRun (processTiles sharpRaw files []) in
                         exec writeTileCache cacheWritable tiles in
                         someTiles tiles
                     end ws0).
  { unfold loadTiles.
    unfold bind at 1. unfold onGenerator at 1, onRun at 1, modify at 1.
    unfold bind at 1. unfold get at 1. cbn [wsRun cacheFile self sharpCalls].
    rewrite Hfile. cbn [loadTileCacheFromCSV fst snd].
    unfold bind at 1. unfold onGenerator at 1, onRun at 1, modify at 1.
    cbn [wsRun cacheFile self sharpCalls]. reflexivity. }
  rewrite Hstart. clear Hstart. split.
  - intros ->. reflexivity.
  - intros Hsome tiles run' Hrun.
    destruct files as [|f0 files0] eqn:Hfiles; [congruence|].
    rewrite <- Hfiles in *.
    unfold bind at 1. unfold onRun. rewrite Hrun.
    unfold bind, writeTileCache, modify. cbn [wsRun cacheFile].
    destruct tiles; reflexivity.
Qed.

(** X16: When tiles.csv cannot be read and the generator's cache is consistent
    (as for a new generator), generateMosaic scans the tiles directory. If no
    image file is found it throws 'No image files found in <directory>'
    without writing a cache or calling the codec. Otherwise it analyses every
    file found with at most three codec calls each, writes the cache file from
    the tiles obtained (even when there are none), and throws 'No valid tile
    images could be processed' when there are none. Every tile obtained has
    the path of a file found, is cached under that path and is not in
    corruptedTiles; every file found either gave a tile or is in
    corruptedTiles. *)
Theorem loadTiles_without_cache (tilesDirectory : string) (root : FsNode)
  (tsize : Z) (ws : Workspace) :
  cacheFile ws = None ->
  cacheConsistent (self (wsRun ws)) ->
  let files :=
    getImageFiles path_join path_extname toLowerCase tilesDirectory root in
  let out := loadTiles sharpRaw path_join path_extname toLowerCase cacheWritable
               tilesDirectory root tsize ws in
  let this' := self (wsRun (snd out)) in
  (files = [] ->
   fst out = Throw (noImageFilesMsg tilesDirectory) /\
   cacheFile (snd out) = None /\
   sharpCalls (wsRun (snd out)) = sharpCalls (wsRun ws)) /\
  (files <> [] ->
   exists tiles : list TileRecord,
     fst out = match tiles with
               | [] => Throw noTileImagesMsg
               | _ => Ok tiles
               end /\
     cacheFile (snd out)
     = (if cacheWritable then Some (saveTileCacheToCSV tiles) else None) /\
     (forall t : TileRecord,
        In t tiles ->
        In (path t) files /\ (path t ∉ corruptedTiles this') /\
        tileCache this' !! path t = Some t) /\
     (forall f : string,
        In f files ->
        f ∈ corruptedTiles this' \/ exists t, In t tiles /\ path t = f) /\
     (sharpCalls (wsRun (snd out))
      <= sharpCalls (wsRun ws) + 3 * length files)%nat).
Proof.
  intros Hfile Hcons files out this'.
  destruct (loadTiles_uncached tilesDirectory root tsize ws Hfile)
    as [Hnone Hsome].
  fold files in Hnone, Hsome. subst this' out. split.
  - intros Hfiles. rewrite (Hnone Hfiles). cbn. auto.
  - intros Hfiles.
    set (run0 := {| self := setTileSize tsize (self (wsRun ws));
                    sharpCalls := sharpCalls (wsRun ws) |}).
    destruct (processTiles_run files [] run0)
      as (tiles & run' & Hrun & Hcons' & _ & _ & _ & Hcalls & Hall & Hpaths & Hcover).
    { exact Hcons. }
    { intros t []. }
    cbn [app] in Hrun, Hall.
    exists tiles. rewrite (Hsome Hfiles tiles run' Hrun).
    cbn [fst snd wsRun cacheFile]. split; [reflexivity|]. split; [reflexivity|].
    split; [|split; [exact Hcover|]].
    + intros t Ht. split; [apply Hpaths, Ht|].
      pose proof (Hall t Ht) as Hcached. split; [|exact Hcached].
      apply (Hcons' _ _ Hcached).
    + subst run0. cbn [sharpCalls] in Hcalls. lia.
Qed.

End TileCorpusProperties.

(** X17: If a run of generateMosaic without a cache file fails with 'No valid
    tile images could be processed' (every image found failed to decode) and
    the cache file can be written, the file it leaves holds the header line
    only; every later run then fails with the same error without scanning the
    directory or decoding any image, whatever the directory now holds, and
    leaves the file as it is. *)
Theorem failed_load_poisons_cache
  (sharpRaw sharpRaw' : nat -> string -> Z -> result (list Z))
  (path_join path_join' : string -> string -> string)
  (path_extname path_extname' toLowerCase toLowerCase' : string -> string)
  (cacheWritable' : bool)
  (tilesDirectory tilesDirectory' : string) (root root' : FsNode)
  (tsize tsize' : Z) (ws : Workspace) :
  cacheFile ws = None ->
  cacheConsistent (self (wsRun ws)) ->
  let first := loadTiles sharpRaw path_join path_extname toLowerCase true
                 tilesDirectory root tsize ws in
  fst first = Throw noTileImagesMsg ->
  let second := loadTiles sharpRaw' path_join' path_extname' toLowerCase'
                  cacheWritable' tilesDirectory' root' tsize' (snd first) in
  cacheFile (snd first) = Some csvHeader /\
  fst second = Throw noTileImagesMsg /\
  sharpCalls (wsRun (snd second)) = sharpCalls (wsRun (snd first)) /\
  cacheFile (snd second) = Some csvHeader.
Proof.
  intros Hfile Hcons first Hfirst second.
  assert (Hcsv : cacheFile (snd first) = Some csvHeader).
  { subst first.
    destruct (loadTiles_uncached sharpRaw path_join path_extname toLowerCase true
                tilesDirectory root tsize ws Hfile) as [Hnone Hsome].
    destruct (getImageFiles path_join path_extname toLowerCase tilesDirectory root)
      as [|f files] eqn:Hfiles.
    - rewrite (Hnone eq_refl) in Hfirst. cbn in Hfirst. discriminate Hfirst.
    - destruct (processTiles_run sharpRaw (f :: files) []
                  {| self := setTileSize tsize (self (wsRun ws));
                     sharpCalls := sharpCalls (wsRun ws) |})
        as (tiles & run' & Hrun & _).
      { exact Hcons. }
      { intros t []. }
      cbn [app] in Hrun.
      rewrite (Hsome ltac:(discriminate) tiles run' Hrun) in Hfirst |- *.
      cbn [fst snd cacheFile] in Hfirst |- *.
      destruct tiles; [reflexivity|discriminate]. }
  split; [exact Hcsv|]. subst second.
  rewrite (loadTiles_cached sharpRaw' path_join' path_extname' toLowerCase'
             cacheWritable' tilesDirectory' root' tsize' (snd first) csvHeader Hcsv).
  cbn [fst snd wsRun cacheFile sharpCalls]. repeat split.
Qed.

Lemma cacheConsistent_fresh : cacheConsistent newMosaicGenerator.
Proof. intros p t H. cbn in H. rewrite lookup_empty in H. discriminate. Qed.

Lemma loadTiles_from_cache_witness :
  let csvData := saveTileCacheToCSV [mkTile "a.jpg" (rgbColor 1 2 3)] in
  let ws := {| wsRun := freshRun; cacheFile := Some csvData |} in
  let out := loadTiles failingAlways slashJoin lastDotExtname id true
               "tiles" sampleTilesDirectory 4 ws in
  fst out = match parseTileCache csvData with
            | [] => Throw noTileImagesMsg
            | tiles => Ok tiles
            end /\
  sharpCalls (wsRun (snd out)) = sharpCalls (wsRun ws) /\
  cacheFile (snd out) = Some csvData /\
  tileSize (self (wsRun (snd out))) = 4 /\
  corruptedTiles (self (wsRun (snd out)))
  = list_to_set knownCorruptedFiles ∪ corruptedTiles (self (wsRun ws)) /\
  forall tile : TileRecord,
    In tile (parseTileCache csvData) ->
    exists cached : TileRecord,
      tileCache (self (wsRun (snd out))) !! path tile = Some cached /\
      path cached = path tile.
Proof.
  exact (loadTiles_from_cache failingAlways slashJoin lastDotExtname id true
           "tiles" sampleTilesDirectory 4
           {| wsRun := freshRun;
              cacheFile :=
                Some (saveTileCacheToCSV [mkTile "a.jpg" (rgbColor 1 2 3)]) |}
           (saveTileCacheToCSV [mkTile "a.jpg" (rgbColor 1 2 3)]) eq_refl).
Defined.

Lemma loadTiles_without_cache_witness :
  let sharpRaw := failingOn "tiles/b.jpg" [10; 20; 30; 30; 40; 50] in
  let files := getImageFiles slashJoin lastDotExtname id "tiles"
                 sampleTilesDirectory in
  let out := loadTiles sharpRaw slashJoin lastDotExtname id true
               "tiles" sampleTilesDirectory 4 emptyWorkspace in
  let this' := self (wsRun (snd out)) in
  files = ["tiles/a.jpg"; "tiles/more/c.png"; "tiles/b.jpg"]%string /\
  fst out = Ok [mkTile "tiles/a.jpg" (rgbColor 20 30 40);
                mkTile "tiles/more/c.png" (rgbColor 20 30 40)] /\
  (files = [] ->
   fst out = Throw (noImageFilesMsg "tiles") /\
   cacheFile (snd out) = None /\
   sharpCalls (wsRun (snd out)) = sharpCalls (wsRun emptyWorkspace)) /\
  (files <> [] ->
   exists tiles : list TileRecord,
     fst out = match tiles with
               | [] => Throw noTileImagesMsg
               | _ => Ok tiles
               end /\
     cacheFile (snd out) = Some (saveTileCacheToCSV tiles) /\
     (forall t : TileRecord,
        In t tiles ->
        In (path t) files /\ (path t ∉ corruptedTiles this') /\
        tileCache this' !! path t = Some t) /\
     (forall f : string,
        In f files ->
        f ∈ corruptedTiles this' \/ exists t, In t tiles /\ path t = f) /\
     (sharpCalls (wsRun (snd out))
      <= sharpCalls (wsRun emptyWorkspace) + 3 * length files)%nat).
Proof.
  split; [vm_compute; reflexivity|]. split; [vm_compute; reflexivity|].
  exact (loadTiles_without_cache
           (failingOn "tiles/b.jpg" [10; 20; 30; 30; 40; 50])
           slashJoin lastDotExtname id true "tiles" sampleTilesDirectory 4
           emptyWorkspace eq_refl cacheConsistent_fresh).
Defined.

Lemma failed_load_poisons_cache_witness :
  let first := loadTiles failingAlways slashJoin lastDotExtname id true
                 "tiles" sampleTilesDirectory 4 emptyWorkspace in
  let second := loadTiles (solidTiles quadrantCorpus) slashJoin lastDotExtname id
                  true "tiles" sampleTilesDirectory 4 (snd first) in
  fst first = Throw noTileImagesMsg /\
  cacheFile (snd first) = Some csvHeader /\
  fst second = Throw noTileImagesMsg /\
  sharpCalls (wsRun (snd second)) = sharpCalls (wsRun (snd first)) /\
  cacheFile (snd second) = Some csvHeader.
Proof.
  split; [vm_compute; reflexivity|].
  refine (failed_load_poisons_cache failingAlways (solidTiles quadrantCorpus)
            slashJoin slashJoin lastDotExtname lastDotExtname id id true
            "tiles" "tiles" sampleTilesDirectory sampleTilesDirectory 4 4
            emptyWorkspace eq_refl cacheConsistent_fresh _).
  vm_compute. reflexivity.
Defined.

(** ** The zoom sequence when a renderer throws *)

Lemma upto_app_plain (a c : Z) :
  0 <= a -> 0 <= c -> upto (a + c) = upto a ++ map (Z.add a) (upto c).
Proof.
  intros Ha Hc. unfold upto.
  replace (Z.to_nat (a + c)) with (Z.to_nat a + Z.to_nat c)%nat by lia.
  rewrite seq_app, map_app. f_equal. simpl.
  rewrite <- (Nat.add_0_r (Z.to_nat a)) at 1.
  rewrite seq_shift_by, !map_map. apply map_ext. intros j. lia.
Qed.

Section ZoomSequenceAbort.

Variable renderMosaic : Z -> string -> string -> result MosaicWithPattern.
Variable renderZoom :
  Z -> MosaicWithPattern -> Z -> Z -> Z -> string -> result unit.
Variables (baseOutputPath extension : string).
Variable options : ZoomOptions.

Hypothesis zoomSteps_nonneg : 0 <= zoomSteps options.

(** The zoom steps from step [1 + a] on, when the base mosaic of iteration
    [i] and the steps before are written: either all [n] are written, or
    the first [k] of them and the renderer threw on the next. *)
Lemma zoom_steps_any (i : Z) (r : MosaicWithPattern) (n : nat) :
  forall (a : nat) (st : Controller),
    globalFrameNumber st = (i - 1) * (zoomSteps options + 1) + 1 + Z.of_nat a ->
    exists (outcome : result (list unit)) (st' : Controller) (k : nat),
      forPush (map (Z.add 1) (map Z.of_nat (seq a n)))
        (zoomStepBody renderZoom baseOutputPath extension options i r) st
      = (outcome, st') /\
      (k <= n)%nat /\
      currentInputPath st' = currentInputPath st /\
      written st'
      = written st ++
        map (specFrame baseOutputPath extension options i)
          (map (fun j : nat => 1 + Z.of_nat j) (seq a k)) /\
      match outcome with
      | Ok _ => k = n /\ globalFrameNumber st' = globalFrameNumber st + Z.of_nat n
      | Throw message =>
          (k < n)%nat /\
          globalFrameNumber st' = globalFrameNumber st + Z.of_nat k + 1 /\
          exists (tsize w h : Z),
            renderZoom (globalFrameNumber st') r tsize w h
              (framePath baseOutputPath extension (globalFrameNumber st'))
            = Throw message
      end.
Proof.
  induction n as [|n IH]; intros a st Hg.
  - exists (Ok []), st, 0%nat. simpl. rewrite app_nil_r.
    repeat split; auto; lia.
  - cbn [seq map forPush]. unfold bind at 1.
    unfold zoomStepBody at 1. unfold bind at 1, nextFrame at 1.
    unfold bind at 1, call at 1.
    destruct (renderZoom (globalFrameNumber st + 1) r
                (zoomTileSizeAt (tileSizeOption options) (zoomFactor options)
                   (1 + Z.of_nat a))
                (width (mosaicResult r)) (height (mosaicResult r))
                (framePath baseOutputPath extension (globalFrameNumber st + 1)))
      as [[]|message] eqn:Hrender.
    + unfold frameWritten at 1, modify at 1. cbv beta iota. unfold bind at 1.
      match goal with |- context [forPush _ _ ?s] =>
        destruct (IH (S a) s) as (outcome & st' & k & Hrun & Hk & Hcur & Hw & Hres);
          [cbn [globalFrameNumber]; lia|]
      end.
      rewrite Hrun. cbn [currentInputPath written globalFrameNumber] in Hcur, Hw, Hres.
      destruct outcome as [out|message].
      * exists (Ok (tt :: out)), st', (S k). split; [reflexivity|].
        split; [lia|]. split; [exact Hcur|]. split.
        -- rewrite Hw, <- app_assoc. f_equal. cbn [seq map app]. f_equal.
           unfold specFrame. rewrite Hg. f_equal; [lia|f_equal; lia].
        -- destruct Hres as [-> Hg']. split; [reflexivity|]. lia.
      * exists (Throw message), st', (S k). split; [reflexivity|].
        split; [lia|]. split; [exact Hcur|]. split.
        -- rewrite Hw, <- app_assoc. f_equal. cbn [seq map app]. f_equal.
           unfold specFrame. rewrite Hg. f_equal; [lia|f_equal; lia].
        -- destruct Hres as (Hlt & Hg' & Hthrow). split; [lia|].
           split; [lia|exact Hthrow].
    + eexists (Throw message), _, 0%nat. split; [reflexivity|].
      cbn [currentInputPath written globalFrameNumber seq map].
      rewrite app_nil_r. split; [lia|]. split; [reflexivity|].
      split; [reflexivity|]. split; [lia|]. split; [lia|].
      eexists _, _, _. exact Hrender.
Qed.

Lemma iteration_any (i : Z) (st : Controller) :
  1 <= i ->
  globalFrameNumber st = (i - 1) * (zoomSteps options + 1) ->
  exists (outcome : result unit) (st' : Controller) (k : Z),
    iteration renderMosaic renderZoom baseOutputPath extension options st
    = (outcome, st') /\
    written st'
    = written st ++ map (specFrame baseOutputPath extension options i) (upto k) /\
    match outcome with
    | Ok _ =>
        k = zoomSteps options + 1 /\
        globalFrameNumber st' = i * (zoomSteps options + 1)
    | Throw message =>
        0 <= k <= zoomSteps options /\
        globalFrameNumber st' = globalFrameNumber st + k + 1 /\
        ((exists input : string,
            renderMosaic (globalFrameNumber st') input
              (framePath baseOutputPath extension (globalFrameNumber st'))
            = Throw message)
         \/ (exists (r : MosaicWithPattern) (tsize w h : Z),
               renderZoom (globalFrameNumber st') r tsize w h
                 (framePath baseOutputPath extension (globalFrameNumber st'))
               = Throw message))
    end.
Proof.
  intros Hi Hg. unfold iteration.
  unfold bind at 1. unfold get at 1.
  unfold bind at 1. unfold nextFrame at 1.
  unfold bind at 1. unfold call at 1.
  assert (Hfloor : Math_floor (inject_Z (globalFrameNumber st)
                               / inject_Z (zoomSteps options + 1)) + 1 = i).
  { rewrite Math_floor_div by lia. rewrite Hg, Z.div_mul by lia. lia. }
  rewrite Hfloor.
  destruct (renderMosaic (globalFrameNumber st + 1) (currentInputPath st)
              (framePath baseOutputPath extension (globalFrameNumber st + 1)))
    as [r|message] eqn:Hrender.
  - unfold bind at 1. unfold frameWritten at 1, modify at 1. cbv beta iota.
    unfold bind at 1. unfold upto at 1.
    match goal with |- context [forPush _ _ ?s] =>
      destruct (zoom_steps_any i r (Z.to_nat (zoomSteps options)) 0%nat s)
        as (outcome & st1 & k & Hrun & Hk & Hcur & Hw & Hres);
        [cbn [globalFrameNumber]; lia|]
    end.
    rewrite Hrun. cbn [currentInputPath written globalFrameNumber] in Hcur, Hw, Hres.
    assert (Hframes : written st1
                      = written st ++
                        map (specFrame baseOutputPath extension options i)
                          (upto (Z.of_nat k + 1))).
    { rewrite Hw, <- app_assoc. f_equal. rewrite upto_succ by lia.
      cbn [map app]. f_equal.
      - unfold specFrame. rewrite Hg. f_equal; [lia|f_equal; lia].
      - unfold upto. rewrite Nat2Z.id, !map_map. reflexivity. }
    destruct outcome as [out|message].
    + destruct Hres as [-> Hg1].
      eexists (Ok tt), _, (zoomSteps options + 1). split; [reflexivity|].
      cbn [written globalFrameNumber]. split.
      * rewrite Hframes. rewrite Z2Nat.id by lia. reflexivity.
      * split; [reflexivity|]. lia.
    + destruct Hres as (Hlt & Hg1 & tsize & w & h & Hthrow).
      exists (Throw message), st1, (Z.of_nat k + 1). split; [reflexivity|].
      split; [exact Hframes|]. split; [lia|]. split; [lia|].
      right. exists r, tsize, w, h. exact Hthrow.
  - eexists (Throw message), _, 0. split; [reflexivity|].
    cbn [written globalFrameNumber]. change (upto 0) with (@nil Z).
    rewrite app_nil_r. split; [reflexivity|]. split; [lia|]. split; [lia|].
    left. exists (currentInputPath st). exact Hrender.
Qed.

Lemma zoomLoop_any (fuel : nat) :
  forall (done : Z) (st : Controller),
    0 <= done ->
    globalFrameNumber st = done * (zoomSteps options + 1) ->
    exists (outcome : result LoopState) (st' : Controller) (m : nat) (k : Z),
      zoomLoop renderMosaic renderZoom baseOutputPath extension options fuel st
      = (outcome, st') /\
      (m <= fuel)%nat /\
      written st'
      = written st ++
        flat_map (specIteration baseOutputPath extension options)
          (map (fun j : nat => done + 1 + Z.of_nat j) (seq 0 m)) ++
        map (specFrame baseOutputPath extension options (done + Z.of_nat m + 1))
          (upto k) /\
      match outcome with
      | Ok _ =>
          k = 0 /\
          globalFrameNumber st' = (done + Z.of_nat m) * (zoomSteps options + 1)
      | Throw message =>
          (m < fuel)%nat /\ 0 <= k <= zoomSteps options /\
          globalFrameNumber st'
          = (done + Z.of_nat m) * (zoomSteps options + 1) + k + 1 /\
          ((exists input : string,
              renderMosaic (globalFrameNumber st') input
                (framePath baseOutputPath extension (globalFrameNumber st'))
              = Throw message)
           \/ (exists (r : MosaicWithPattern) (tsize w h : Z),
                 renderZoom (globalFrameNumber st') r tsize w h
                   (framePath baseOutputPath extension (globalFrameNumber st'))
                 = Throw message))
      end.
Proof.
  induction fuel as [|fuel IH]; intros done st Hdone Hg.
  - exists (Ok (if loopCondition options st then StillRunning else Finished)),
      st, 0%nat, 0.
    split.
    { simpl. unfold bind, get. destruct (loopCondition options st); reflexivity. }
    split; [lia|]. cbn [seq map flat_map app]. change (upto 0) with (@nil Z).
    cbn [map]. rewrite app_nil_r. split; [reflexivity|]. split; [reflexivity|]. lia.
  - cbn [zoomLoop]. unfold bind at 1. unfold get at 1.
    destruct (loopCondition options st).
    + destruct (iteration_any (done + 1) st) as (outcome & st1 & k & Hrun & Hw & Hres);
        [lia|rewrite Hg; f_equal; lia|].
      unfold bind at 1. rewrite Hrun.
      destruct outcome as [[]|message].
      * destruct Hres as [-> Hg1].
        destruct (IH (done + 1) st1 ltac:(lia) Hg1)
          as (outcome & st' & m & k & Hloop & Hm & Hw' & Hres').
        exists outcome, st', (S m), k. split; [exact Hloop|]. split; [lia|].
        split.
        -- rewrite Hw', Hw, <- !app_assoc. f_equal.
           cbn [seq map flat_map]. rewrite Z.add_0_r, <- app_assoc.
           f_equal. rewrite <- seq_shift, map_map.
           replace (done + Z.of_nat (S m) + 1) with (done + 1 + Z.of_nat m + 1) by lia.
           f_equal. f_equal. apply map_ext. intros j. lia.
        -- destruct outcome as [state|message].
           ++ destruct Hres' as [-> Hg']. split; [reflexivity|]. rewrite Hg'. lia.
           ++ destruct Hres' as (Hlt & Hk & Hg' & Hthrow).
              split; [lia|]. split; [exact Hk|]. split; [rewrite Hg'; lia|].
              exact Hthrow.
      * destruct Hres as (Hk & Hg1 & Hthrow).
        exists (Throw message), st1, 0%nat, k. split; [reflexivity|].
        split; [lia|]. cbn [seq map flat_map app]. rewrite Z.add_0_r.
        split; [exact Hw|]. split; [lia|]. split; [exact Hk|].
        split; [rewrite Hg1, Hg; lia|]. exact Hthrow.
    + exists (Ok Finished), st, 0%nat, 0. split; [reflexivity|].
      split; [lia|]. cbn [seq map flat_map app]. change (upto 0) with (@nil Z).
      cbn [map]. rewrite app_nil_r. split; [reflexivity|].
      split; [reflexivity|]. lia.
Qed.

Lemma length_specIteration (i : Z) :
  length (specIteration baseOutputPath extension options i)
  = Z.to_nat (zoomSteps options + 1).
Proof. unfold specIteration. rewrite length_map. apply length_upto. Qed.

Lemma length_specIterations (indices : list Z) :
  length (flat_map (specIteration baseOutputPath extension options) indices)
  = (length indices * Z.to_nat (zoomSteps options + 1))%nat.
Proof.
  induction indices as [|i indices IH]; [reflexivity|].
  cbn [flat_map]. rewrite length_app, IH, length_specIteration. simpl. lia.
Qed.

(** X18: Whatever the renderers do and however many iterations run, with
    zoomSteps >= 0 the frames generateInfiniteZoomMosaic has written are a
    prefix of the intended sequence (frames 1, 2, 3, ... with the right
    iteration, zoom step and file name each), with no gap. When it returns,
    the counter equals the number of frames written, a multiple of zoomSteps +
    1; when it throws, n frames being written, the counter is n + 1 and the
    error is the one the renderer of frame n + 1 threw (the base mosaic
    renderer or the zoom step renderer), rethrown unchanged. *)
Theorem zoom_sequence_abort (inputImagePath : string) (fuel : nat) :
  let out := generateInfiniteZoomMosaic renderMosaic renderZoom baseOutputPath
               extension options inputImagePath fuel in
  let n := Z.of_nat (length (written (snd out))) in
  (exists later : list Frame,
     specSequence baseOutputPath extension options (Z.of_nat fuel)
     = written (snd out) ++ later) /\
  match fst out with
  | Ok _ =>
      globalFrameNumber (snd out) = n /\ n mod (zoomSteps options + 1) = 0
  | Throw message =>
      globalFrameNumber (snd out) = n + 1 /\
      ((exists input : string,
          renderMosaic (n + 1) input
            (framePath baseOutputPath extension (n + 1)) = Throw message)
       \/ (exists (r : MosaicWithPattern) (tsize w h : Z),
             renderZoom (n + 1) r tsize w h
               (framePath baseOutputPath extension (n + 1)) = Throw message))
  end.
Proof.
  intros out n. subst n out. unfold generateInfiniteZoomMosaic.
  destruct (zoomLoop_any fuel 0
              {| currentInputPath := inputImagePath;
                 globalFrameNumber := 0; written := [] |})
    as (outcome & st' & m & k & Hrun & Hm & Hw & Hres); [lia|reflexivity|].
  rewrite Hrun. cbn [fst snd]. cbn [written app] in Hw.
  assert (Hk : 0 <= k <= zoomSteps options).
  { destruct outcome; [destruct Hres as [-> _]; lia|apply Hres]. }
  assert (Hlen : Z.of_nat (length (written st'))
                 = Z.of_nat m * (zoomSteps options + 1) + k).
  { rewrite Hw, length_app, length_specIterations, !length_map, length_seq,
      length_upto. lia. }
  split.
  - unfold specSequence, upto. rewrite Nat2Z.id, map_map.
    assert (Hseq : seq 0 fuel = seq 0 m ++ seq m (fuel - m)).
    { rewrite <- seq_app. f_equal. lia. }
    rewrite Hseq, map_app, flat_map_app.
    rewrite (map_ext (fun x : nat => 1 + Z.of_nat x)
               (fun j : nat => 0 + 1 + Z.of_nat j)) by (intros j; lia).
    destruct outcome as [state|message].
    + destruct Hres as [-> _]. change (upto 0) with (@nil Z) in Hw.
      cbn [map] in Hw. rewrite app_nil_r in Hw. rewrite Hw.
      eexists. reflexivity.
    + destruct Hres as (Hlt & _).
      replace (fuel - m)%nat with (S (fuel - m - 1)) by lia.
      cbn [seq map flat_map]. unfold specIteration at 2.
      replace (zoomSteps options + 1) with (k + (zoomSteps options + 1 - k)) by lia.
      rewrite (upto_app_plain k (zoomSteps options + 1 - k)) by lia.
      rewrite map_app, Hw.
      replace (0 + Z.of_nat m + 1) with (1 + Z.of_nat m) by lia.
      eexists. rewrite <- !app_assoc. reflexivity.
  - destruct outcome as [state|message].
    + destruct Hres as [-> Hg]. rewrite Hg, Hlen. split; [lia|].
      rewrite Z.add_0_r. apply Z.mod_mul. lia.
    + destruct Hres as (_ & _ & Hg & Hthrow).
      rewrite Hlen. rewrite Hg in Hthrow. split; [lia|].
      replace (Z.of_nat m * (zoomSteps options + 1) + k + 1)
        with ((0 + Z.of_nat m) * (zoomSteps options + 1) + k + 1) by lia.
      exact Hthrow.
Qed.

End ZoomSequenceAbort.

Lemma zoom_sequence_abort_witness :
  let renderMosaic := fun (_ : Z) (_ _ : string) =>
    Ok (mkWithPattern (mkResult 0 0 0 0 0) None None None) in
  let renderZoom := fun (n : Z) (_ : MosaicWithPattern) (_ _ _ : Z) (_ : string) =>
    if n =? 13 then Throw "Input file is missing" else Ok tt in
  let options := mkZoomOptions (9 # 10) None 8 None in
  let out := generateInfiniteZoomMosaic renderMosaic renderZoom "out/zoom" ".png"
               options "photo.jpg" 5 in
  let n := Z.of_nat (length (written (snd out))) in
  n = 12 /\
  (exists later : list Frame,
     specSequence "out/zoom" ".png" options (Z.of_nat 5)
     = written (snd out) ++ later) /\
  match fst out with
  | Ok _ =>
      globalFrameNumber (snd out) = n /\ n mod (zoomSteps options + 1) = 0
  | Throw message =>
      globalFrameNumber (snd out) = n + 1 /\
      ((exists input : string,
          renderMosaic (n + 1) input (framePath "out/zoom" ".png" (n + 1))
          = Throw message)
       \/ (exists (r : MosaicWithPattern) (tsize w h : Z),
             renderZoom (n + 1) r tsize w h (framePath "out/zoom" ".png" (n + 1))
             = Throw message))
  end.
Proof.
  split; [vm_compute; reflexivity|].
  apply (zoom_sequence_abort
           (fun (_ : Z) (_ _ : string) =>
              Ok (mkWithPattern (mkResult 0 0 0 0 0) None None None))
           (fun (n : Z) (_ : MosaicWithPattern) (_ _ _ : Z) (_ : string) =>
              if n =? 13 then Throw "Input file is missing" else Ok tt)
           "out/zoom" ".png" (mkZoomOptions (9 # 10) None 8 None)).
  simpl. lia.
Defined.

Section ZoomSequenceUnbounded.

Variable renderMosaic : Z -> string -> string -> result MosaicWithPattern.
Variable renderZoom :
  Z -> MosaicWithPattern -> Z -> Z -> Z -> string -> result unit.
Variables (baseOutputPath extension : string).
Variable options : ZoomOptions.

Hypothesis renderMosaic_returns :
  forall (n : Z) (input output : string),
    exists r : MosaicWithPattern, renderMosaic n input output = Ok r.
Hypothesis renderZoom_returns :
  forall (n : Z) (r : MosaicWithPattern) (tsize w h : Z) (output : string),
    renderZoom n r tsize w h output = Ok tt.
Hypothesis zoomSteps_nonneg : 0 <= zoomSteps options.
Hypothesis no_limit : maxIterations options = None.

Lemma zoomLoop_unbounded (fuel : nat) :
  forall (done : Z) (st : Controller),
    0 <= done ->
    globalFrameNumber st = done * (zoomSteps options + 1) ->
    exists st' : Controller,
      zoomLoop renderMosaic renderZoom baseOutputPath extension options fuel st
      = (Ok StillRunning, st') /\
      globalFrameNumber st' = (done + Z.of_nat fuel) * (zoomSteps options + 1) /\
      currentInputPath st'
      = (if Nat.eqb fuel 0 then currentInputPath st
         else framePath baseOutputPath extension (globalFrameNumber st')) /\
      written st'
      = written st ++
        flat_map (specIteration baseOutputPath extension options)
          (map (fun j : nat => done + 1 + Z.of_nat j) (seq 0 fuel)).
Proof.
  induction fuel as [|fuel IH]; intros done st Hdone Hg.
  - exists st. cbn [zoomLoop]. unfold bind, get, loopCondition.
    rewrite no_limit. cbn [seq map flat_map Nat.eqb]. rewrite app_nil_r.
    split; [reflexivity|]. split; [rewrite Hg; f_equal; lia|]. auto.
  - cbn [zoomLoop]. unfold bind at 1, get at 1, loopCondition at 1.
    rewrite no_limit.
    destruct (iteration_run renderMosaic renderZoom baseOutputPath extension
                options renderMosaic_returns renderZoom_returns zoomSteps_nonneg
                (done + 1) st) as (st1 & Hrun & Hg1 & Hcur1 & Hw1).
    { lia. }
    { rewrite Hg. f_equal. lia. }
    unfold bind at 1. rewrite Hrun.
    destruct (IH (done + 1) st1 ltac:(lia) Hg1) as (st' & Hloop & Hg' & Hcur' & Hw').
    exists st'. split; [exact Hloop|]. split; [rewrite Hg'; f_equal; lia|].
    split.
    + cbn [Nat.eqb]. destruct fuel as [|fuel'].
      * cbn [Nat.eqb] in Hcur'. rewrite Hcur', Hcur1, Hg'. f_equal.
        f_equal. lia.
      * exact Hcur'.
    + rewrite Hw', Hw1, <- app_assoc. f_equal.
      cbn [seq map flat_map]. rewrite Z.add_0_r. f_equal.
      rewrite <- seq_shift, map_map. f_equal. apply map_ext. intros j. lia.
Qed.

(** X19: With maxIterations null, renderers that return and zoomSteps >= 0,
    the loop of generateInfiniteZoomMosaic never ends by itself: after any
    number k of iterations it is still running, has written exactly the k *
    (zoomSteps + 1) frames of the first k iterations of the intended sequence,
    and (for k >= 1) the input of the next iteration is the last frame
    written. *)
Theorem zoom_sequence_unbounded (inputImagePath : string) (fuel : nat) :
  exists st' : Controller,
    generateInfiniteZoomMosaic renderMosaic renderZoom baseOutputPath extension
      options inputImagePath fuel = (Ok StillRunning, st') /\
    globalFrameNumber st' = Z.of_nat fuel * (zoomSteps options + 1) /\
    written st'
    = specSequence baseOutputPath extension options (Z.of_nat fuel) /\
    currentInputPath st'
    = (if Nat.eqb fuel 0 then inputImagePath
       else framePath baseOutputPath extension (globalFrameNumber st')).
Proof.
  unfold generateInfiniteZoomMosaic.
  destruct (zoomLoop_unbounded fuel 0
              {| currentInputPath := inputImagePath;
                 globalFrameNumber := 0; written := [] |})
    as (st' & Hrun & Hg & Hcur & Hw); [lia|reflexivity|].
  exists st'. split; [exact Hrun|]. split; [rewrite Hg; f_equal|].
  split; [|exact Hcur].
  rewrite Hw. cbn [written app]. unfold specSequence, upto.
  rewrite Nat2Z.id, map_map. f_equal; apply map_ext; intros j; lia.
Qed.

End ZoomSequenceUnbounded.

Lemma zoom_sequence_unbounded_witness :
  let renderMosaic := fun (_ : Z) (_ _ : string) =>
    Ok (mkWithPattern (mkResult 0 0 0 0 0) None None None) in
  let renderZoom := fun (_ : Z) (_ : MosaicWithPattern) (_ _ _ : Z) (_ : string) =>
    Ok tt in
  let options := mkZoomOptions (9 # 10) None 8 None in
  exists st' : Controller,
    generateInfiniteZoomMosaic renderMosaic renderZoom "out/zoom" ".png"
      options "photo.jpg" 7 = (Ok StillRunning, st') /\
    globalFrameNumber st' = Z.of_nat 7 * (zoomSteps options + 1) /\
    written st' = specSequence "out/zoom" ".png" options (Z.of_nat 7) /\
    currentInputPath st'
    = (if Nat.eqb 7 0 then "photo.jpg"%string
       else framePath "out/zoom" ".png" (globalFrameNumber st')).
Proof.
  apply (zoom_sequence_unbounded
           (fun (_ : Z) (_ _ : string) =>
              Ok (mkWithPattern (mkResult 0 0 0 0 0) None None None))
           (fun (_ : Z) (_ : MosaicWithPattern) (_ _ _ : Z) (_ : string) => Ok tt)
           "out/zoom" ".png" (mkZoomOptions (9 # 10) None 8 None)).
  - intros n input output. eexists. reflexivity.
  - intros n r tsize w h output. reflexivity.
  - simpl. lia.
  - reflexivity.
Defined.

(** ** The layout of a row of tiles *)

Lemma fold_left_flat_map {A B C : Type} (f : A -> C -> A) (g : B -> list C)
  (xs : list B) :
  forall a : A,
    fold_left f (flat_map g xs) a
    = fold_left (fun a' x => fold_left f (g x) a') xs a.
Proof.
  induction xs as [|x xs IH]; intros a; [reflexivity|].
  cbn [flat_map fold_left]. rewrite fold_left_app. apply IH.
Qed.

Lemma fold_left_ext_fun {A B : Type} (f g : A -> B -> A) (xs : list B) :
  (forall (a : A) (x : B), f a x = g a x) ->
  forall a : A, fold_left f xs a = fold_left g xs a.
Proof.
  intros Hfg. induction xs as [|x xs IH]; intros a; [reflexivity|].
  simpl. rewrite Hfg. apply IH.
Qed.

Lemma combineRow_writes (columns tsize : Z) (tileBuffers : list (list Z)) :
  combineRow columns tsize tileBuffers
  = fold_left (fun buf (w : nat * Z) => <[fst w := snd w]> buf)
      (rowWrites columns tsize tileBuffers)
      (repeat 0 (Z.to_nat (columns * tsize * tsize * 3))).
Proof.
  unfold combineRow, rowWrites. cbv zeta.
  rewrite fold_left_flat_map. apply fold_left_ext_fun. intros buf x.
  unfold copyTile. rewrite fold_left_flat_map. apply fold_left_ext_fun.
  intros buf' ty. rewrite fold_left_flat_map. apply fold_left_ext_fun.
  intros buf'' tx. reflexivity.
Qed.

(** After a sequence of writes, an index that was written holds the value
    written there, when all the writes at that index agree. *)
Lemma writes_lookup (i : nat) (v : Z) (ws : list (nat * Z)) :
  (forall v' : Z, In (i, v') ws -> v' = v) ->
  forall buf : list Z,
    (i < length buf)%nat ->
    In (i, v) ws \/ buf !! i = Some v ->
    fold_left (fun buf0 (w : nat * Z) => <[fst w := snd w]> buf0) ws buf !! i
    = Some v.
Proof.
  induction ws as [|[j u] ws IH]; intros Hagree buf Hlen Hin.
  - destruct Hin as [[]|Hin]. exact Hin.
  - cbn [fold_left fst snd]. apply IH.
    + intros v' Hv'. apply Hagree. right. exact Hv'.
    + rewrite length_insert. exact Hlen.
    + destruct (decide (j = i)) as [->|Hne].
      * right. rewrite (Hagree u (or_introl eq_refl)).
        apply list_lookup_insert_eq. exact Hlen.
      * destruct Hin as [[Heq|Hin]|Hin].
        -- injection Heq as -> _. contradiction.
        -- left. exact Hin.
        -- right. rewrite list_lookup_insert_ne by exact Hne. exact Hin.
Qed.

Lemma In_upto (n j : Z) : In j (upto n) <-> 0 <= j < n.
Proof.
  unfold upto. rewrite in_map_iff. split.
  - intros (k & <- & Hk). apply in_seq in Hk. lia.
  - intros Hj. exists (Z.to_nat j). split; [lia|]. apply in_seq. lia.
Qed.

Lemma In_rowWrites (columns tsize : Z) (tileBuffers : list (list Z))
  (i : nat) (v : Z) :
  In (i, v) (rowWrites columns tsize tileBuffers)
  <-> exists (x ty tx : Z) (k : nat),
        0 <= x < columns /\ 0 <= ty < tsize /\ 0 <= tx < tsize /\ (k < 3)%nat /\
        i = (Z.to_nat ((ty * (columns * tsize) + (x * tsize + tx)) * 3) + k)%nat /\
        v = default 0 (nth (Z.to_nat x) tileBuffers []
                         !! (Z.to_nat ((ty * tsize + tx) * 3) + k)%nat).
Proof.
  unfold rowWrites. rewrite in_flat_map. split.
  - intros (x & Hx & H). apply in_flat_map in H as (ty & Hty & H).
    apply in_flat_map in H as (tx & Htx & H).
    apply In_upto in Hx, Hty, Htx. cbv zeta in H.
    exists x, ty, tx.
    destruct H as [H|[H|[H|[]]]]; injection H as <- <-;
      [exists 0%nat|exists 1%nat|exists 2%nat];
      rewrite ?Nat.add_0_r; repeat split; try lia.
  - intros (x & ty & tx & k & Hx & Hty & Htx & Hk & -> & ->).
    exists x. split; [apply In_upto, Hx|].
    apply in_flat_map. exists ty. split; [apply In_upto, Hty|].
    apply in_flat_map. exists tx. split; [apply In_upto, Htx|].
    cbv zeta. destruct k as [|[|[|k]]]; [| | |lia]; rewrite ?Nat.add_0_r.
    + left. reflexivity.
    + right. left. reflexivity.
    + right. right. left. reflexivity.
Qed.

(** The place of a byte in the row buffer determines the tile, the pixel in
    the tile and the channel. *)
Lemma row_offset_inj (columns tsize x ty tx x' ty' tx' : Z) (k k' : nat) :
  0 <= x < columns -> 0 <= ty -> 0 <= tx < tsize ->
  0 <= x' < columns -> 0 <= ty' -> 0 <= tx' < tsize ->
  (k < 3)%nat -> (k' < 3)%nat ->
  (Z.to_nat ((ty * (columns * tsize) + (x * tsize + tx)) * 3) + k)%nat
  = (Z.to_nat ((ty' * (columns * tsize) + (x' * tsize + tx')) * 3) + k')%nat ->
  x = x' /\ ty = ty' /\ tx = tx' /\ k = k'.
Proof.
  intros Hx Hty Htx Hx' Hty' Htx' Hk Hk' Heq.
  assert (Hin : 0 <= x * tsize + tx < columns * tsize) by nia.
  assert (Hin' : 0 <= x' * tsize + tx' < columns * tsize) by nia.
  assert (Hp : 0 <= ty * (columns * tsize) + (x * tsize + tx)) by nia.
  assert (Hp' : 0 <= ty' * (columns * tsize) + (x' * tsize + tx')) by nia.
  assert (Hsame : ty * (columns * tsize) + (x * tsize + tx)
                  = ty' * (columns * tsize) + (x' * tsize + tx') /\ k = k') by lia.
  destruct Hsame as [Hsame ->].
  destruct (Z.div_mod_unique (columns * tsize) ty ty'
              (x * tsize + tx) (x' * tsize + tx')) as [-> Hrest];
    [left; exact Hin|left; exact Hin'|lia|].
  destruct (Z.div_mod_unique tsize x x' tx tx') as [-> ->];
    [left; exact Htx|left; exact Htx'|lia|].
  auto.
Qed.

Lemma combineRow_lookup (columns tsize : Z) (tileBuffers : list (list Z))
  (x ty tx : Z) (k : nat) :
  0 <= x < columns -> 0 <= ty < tsize -> 0 <= tx < tsize -> (k < 3)%nat ->
  combineRow columns tsize tileBuffers
    !! (Z.to_nat ((ty * (columns * tsize) + (x * tsize + tx)) * 3) + k)%nat
  = Some (default 0 (nth (Z.to_nat x) tileBuffers []
                       !! (Z.to_nat ((ty * tsize + tx) * 3) + k)%nat)).
Proof.
  intros Hx Hty Htx Hk. rewrite combineRow_writes.
  apply writes_lookup.
  - intros v' Hv'. apply In_rowWrites in Hv'
      as (x' & ty' & tx' & k' & Hx' & Hty' & Htx' & Hk' & Heq & ->).
    destruct (row_offset_inj columns tsize x ty tx x' ty' tx' k k')
      as (<- & <- & <- & <-); auto; lia.
  - rewrite repeat_length. nia.
  - left. apply In_rowWrites. exists x, ty, tx, k. auto 10.
Qed.

(** X20: The row buffer both compositors assemble from the tile buffers of a
    row has columns * tileSize * tileSize * 3 bytes, and for every cell x of
    the row and every pixel (tx, ty) of its tile, the three bytes at offset
    (ty * rowWidth + x * tileSize + tx) * 3 of the row are the three bytes at
    offset (ty * tileSize + tx) * 3 of that cell's tile buffer, a byte missing
    from a tile buffer that is too short being 0. *)
Theorem combineRow_pixel (columns tsize : Z) (tileBuffers : list (list Z)) :
  let row := combineRow columns tsize tileBuffers in
  let rowWidth := columns * tsize in
  length row = Z.to_nat (rowWidth * tsize * 3) /\
  forall (x ty tx : Z),
    0 <= x < columns -> 0 <= ty < tsize -> 0 <= tx < tsize ->
    let tileBuffer := nth (Z.to_nat x) tileBuffers [] in
    let dstOffset := Z.to_nat ((ty * rowWidth + (x * tsize + tx)) * 3) in
    let srcOffset := Z.to_nat ((ty * tsize + tx) * 3) in
    row !! dstOffset = Some (default 0 (tileBuffer !! srcOffset)) /\
    row !! (dstOffset + 1)%nat = Some (default 0 (tileBuffer !! (srcOffset + 1)%nat)) /\
    row !! (dstOffset + 2)%nat = Some (default 0 (tileBuffer !! (srcOffset + 2)%nat)).
Proof.
  intros row rowWidth. split; [apply combineRow_length|].
  intros x ty tx Hx Hty Htx tileBuffer dstOffset srcOffset.
  pose proof (combineRow_lookup columns tsize tileBuffers x ty tx 0 Hx Hty Htx
                ltac:(lia)) as H0.
  pose proof (combineRow_lookup columns tsize tileBuffers x ty tx 1 Hx Hty Htx
                ltac:(lia)) as H1.
  pose proof (combineRow_lookup columns tsize tileBuffers x ty tx 2 Hx Hty Htx
                ltac:(lia)) as H2.
  rewrite !Nat.add_0_r in H0. auto.
Qed.

(** ** The raster of a zoom step *)

Lemma forPush_values {S A : Type} (value : Z -> S -> A) (next : S -> S)
  (body : Z -> M S A) :
  (forall (i : Z) (s : S), body i s = (Ok (value i s), next s)) ->
  forall (xs : list Z) (s : S),
    exists out : list A,
      forPush xs body s = (Ok out, Nat.iter (length xs) next s) /\
      length out = length xs /\
      forall (k : nat) (i : Z),
        nth_error xs k = Some i ->
        nth_error out k = Some (value i (Nat.iter k next s)).
Proof.
  intros Hbody xs. induction xs as [|j xs IH]; intros s.
  - exists []. repeat split. intros [|k] i H; discriminate.
  - destruct (IH (next s)) as (out & Hrun & Hlen & Hnth).
    exists (value j s :: out). cbn [forPush]. unfold bind. rewrite Hbody, Hrun.
    split; [|split].
    + unfold ret. f_equal. simpl. apply Nat.iter_swap.
    + simpl. congruence.
    + intros [|k] i Hk.
      * injection Hk as <-. reflexivity.
      * cbn [nth_error] in Hk |- *. rewrite (Hnth k i Hk). f_equal. f_equal.
        simpl. apply Nat.iter_swap.
Qed.

Lemma concat_lookup_uniform {A : Type} (n : nat) (rows : list (list A)) :
  Forall (fun row => length row = n) rows ->
  forall (j o : nat) (row : list A),
    nth_error rows j = Some row -> (o < n)%nat ->
    concat rows !! (j * n + o)%nat = row !! o.
Proof.
  induction 1 as [|first rows Hfirst _ IH]; intros j o row Hj Ho.
  - destruct j; discriminate.
  - destruct j as [|j]; cbn [nth_error concat] in *.
    + injection Hj as <-. apply lookup_app_l. lia.
    + rewrite lookup_app_r by lia.
      replace (S j * n + o - length first)%nat with (j * n + o)%nat by lia.
      apply IH; assumption.
Qed.

(** The buffer the zoom compositor uses for a cell: what the codec returns,
    or a gray tile. *)
Lemma zoomCell_value (sharpRaw : nat -> string -> Z -> result (list Z))
  (newTileSize : Z) (tilePath : string) (run : Run) :
  zoomCell sharpRaw newTileSize tilePath run
  = (Ok match sharpRaw (sharpCalls run) tilePath newTileSize with
        | Ok buf => buf
        | Throw _ => repeat 128 (Z.to_nat (newTileSize * newTileSize * 3))
        end,
     oneMoreCall run).
Proof.
  unfold zoomCell, tryCatch, loadTile.
  destruct (sharpRaw (sharpCalls run) tilePath newTileSize); reflexivity.
Qed.

(** X21: In the raster generateZoomedMosaicFromPattern builds with tile size s
    > 0, every channel of the pixel at (px, py) is the same channel of the
    pixel (px mod s, py mod s) of the buffer of cell (px div s, py div s): the
    buffer the codec returned for the path at that place of the tile pattern,
    in the codec call made for that cell (cells are loaded row by row, one
    call each), or a buffer of gray bytes 128 when that call threw; a byte
    missing from a buffer that is too short is 0. *)
Theorem zoom_raster_pixels
  (sharpRaw : nat -> string -> Z -> result (list Z))
  (pattern : list (list string))
  (columns rows newTileSize targetWidth targetHeight : Z) (run : Run)
  (image : Raster) (crop : option Crop) (px py : Z) (k : nat) :
  0 < newTileSize ->
  0 <= px < columns * newTileSize -> 0 <= py < rows * newTileSize ->
  (k < 3)%nat ->
  fst (generateZoomedMosaicFromPattern sharpRaw pattern columns rows newTileSize
         targetWidth targetHeight run) = Ok (image, crop) ->
  let x := px / newTileSize in
  let y := py / newTileSize in
  let tileBuffer :=
    match sharpRaw (sharpCalls run + Z.to_nat (y * columns + x))%nat
            (patternAt pattern y x) newTileSize with
    | Ok buf => buf
    | Throw _ => repeat 128 (Z.to_nat (newTileSize * newTileSize * 3))
    end in
  let srcOffset :=
    Z.to_nat (((py mod newTileSize) * newTileSize + px mod newTileSize) * 3) in
  rasterData image !! (Z.to_nat ((py * rasterWidth image + px) * 3) + k)%nat
  = Some (default 0 (tileBuffer !! (srcOffset + k)%nat)).
Proof.
  intros Hts Hpx Hpy Hk Hout x y tileBuffer srcOffset.
  assert (Hcols : 0 < columns) by nia. assert (Hrows : 0 < rows) by nia.
  assert (Hx : 0 <= x < columns).
  { subst x. split; [apply Z.div_pos; lia|apply Z.div_lt_upper_bound; lia]. }
  assert (Hy : 0 <= y < rows).
  { subst y. split; [apply Z.div_pos; lia|apply Z.div_lt_upper_bound; lia]. }
  pose proof (Z.mod_pos_bound px newTileSize Hts) as Htx.
  pose proof (Z.mod_pos_bound py newTileSize Hts) as Hty.
  pose proof (Z.div_mod px newTileSize ltac:(lia)) as Hpx'.
  pose proof (Z.div_mod py newTileSize ltac:(lia)) as Hpy'.
  fold x in Hpx'. fold y in Hpy'.
  set (tx := px mod newTileSize) in *. set (ty := py mod newTileSize) in *.
  (* the rows *)
  set (cell := fun (y0 x0 : Z) (s : Run) =>
         match sharpRaw (sharpCalls s) (patternAt pattern y0 x0) newTileSize with
         | Ok buf => buf
         | Throw _ => repeat 128 (Z.to_nat (newTileSize * newTileSize * 3))
         end).
  set (rowOf := fun (y0 : Z) (s : Run) =>
         combineRow columns newTileSize
           (map (fun x0 : Z => cell y0 x0 (Nat.iter (Z.to_nat x0) oneMoreCall s))
              (upto columns))).
  assert (Hrow : forall (y0 : Z) (s : Run),
             (let* tileBuffers :=
                forPush (upto columns) (fun x0 =>
                  zoomCell sharpRaw newTileSize (patternAt pattern y0 x0)) in
              ret (combineRow columns newTileSize tileBuffers)) s
             = (Ok (rowOf y0 s), Nat.iter (Z.to_nat columns) oneMoreCall s)).
  { intros y0 s.
    destruct (forPush_values (cell y0) oneMoreCall
                (fun x0 => zoomCell sharpRaw newTileSize (patternAt pattern y0 x0))
                (fun x0 s0 => zoomCell_value sharpRaw newTileSize
                                (patternAt pattern y0 x0) s0)
                (upto columns) s) as (bufs & Hrun & Hlen & Hnth).
    unfold bind. rewrite Hrun, length_upto. unfold ret. f_equal. f_equal.
    subst rowOf. cbv beta. f_equal.
    apply nth_error_ext. intros j.
    destruct (Nat.ltb_spec j (Z.to_nat columns)) as [Hj|Hj].
    - rewrite (Hnth j (Z.of_nat j)) by (apply nth_error_upto; exact Hj).
      rewrite nth_error_map, nth_error_upto by exact Hj.
      cbn [option_map]. rewrite Nat2Z.id. reflexivity.
    - rewrite (proj2 (nth_error_None _ _)) by (rewrite Hlen, length_upto; lia).
      rewrite (proj2 (nth_error_None _ _)); [reflexivity|].
      rewrite length_map, length_upto. lia. }
  unfold generateZoomedMosaicFromPattern in Hout.
  destruct (forPush_values rowOf (Nat.iter (Z.to_nat columns) oneMoreCall)
              (fun y0 =>
                 let* tileBuffers :=
                   forPush (upto columns) (fun x0 =>
                     zoomCell sharpRaw newTileSize (patternAt pattern y0 x0)) in
                 ret (combineRow columns newTileSize tileBuffers))
              Hrow (upto rows) run) as (rowBuffers & Hrun & Hlen & Hnth).
  unfold bind at 1 in Hout. rewrite Hrun in Hout.
  assert (Himage : image = {| rasterWidth := columns * newTileSize;
                              rasterHeight := rows * newTileSize;
                              rasterData := concat rowBuffers |}).
  { destruct ((targetWidth <? columns * newTileSize)
              || (targetHeight <? rows * newTileSize));
      cbn in Hout; injection Hout as <- _; reflexivity. }
  subst image. cbn [rasterData rasterWidth].
  pose proof (Hnth (Z.to_nat y) y) as Hrowy.
  rewrite nth_error_upto in Hrowy by lia. rewrite Z2Nat.id in Hrowy by lia.
  specialize (Hrowy eq_refl).
  assert (Hall : Forall (fun row : list Z =>
                           length row
                           = Z.to_nat (columns * newTileSize * newTileSize * 3))
                   rowBuffers).
  { apply List.Forall_forall. intros row Hin.
    apply In_nth_error in Hin as (j & Hj).
    assert (Hjlt : (j < Z.to_nat rows)%nat).
    { rewrite <- (length_upto rows), <- Hlen. apply nth_error_Some.
      rewrite Hj. discriminate. }
    rewrite (Hnth j (Z.of_nat j)) in Hj by (apply nth_error_upto; exact Hjlt).
    injection Hj as <-. exact (combineRow_length columns newTileSize _). }
  replace (Z.to_nat ((py * (columns * newTileSize) + px) * 3) + k)%nat
    with (Z.to_nat y * Z.to_nat (columns * newTileSize * newTileSize * 3)
          + (Z.to_nat ((ty * (columns * newTileSize) + (x * newTileSize + tx)) * 3)
             + k))%nat by nia.
  rewrite (concat_lookup_uniform _ _ Hall _ _ _ Hrowy) by nia.
  subst rowOf. cbv beta.
  rewrite combineRow_lookup by (try assumption; lia).
  f_equal. f_equal. f_equal.
  erewrite nth_error_nth.
  2:{ rewrite nth_error_map, nth_error_upto by lia. cbn [option_map].
      rewrite Z2Nat.id by lia. reflexivity. }
  subst cell tileBuffer. cbv beta.
  assert (Hcalls : forall (n : nat) (s : Run),
             sharpCalls (Nat.iter n oneMoreCall s) = (n + sharpCalls s)%nat).
  { intros n s. rewrite iter_oneMoreCall. reflexivity. }
  assert (Hcalls2 : forall (n : nat) (s : Run),
             sharpCalls (Nat.iter n (Nat.iter (Z.to_nat columns) oneMoreCall) s)
             = (n * Z.to_nat columns + sharpCalls s)%nat).
  { induction n as [|n IHn]; intros s; [reflexivity|].
    rewrite Nat.iter_succ, Hcalls, IHn. lia. }
  rewrite Hcalls, Hcalls2.
  replace (Z.to_nat x + (Z.to_nat y * Z.to_nat columns + sharpCalls run))%nat
    with (sharpCalls run + Z.to_nat (y * columns + x))%nat by nia.
  reflexivity.
Qed.

Lemma zoom_raster_pixels_witness :
  let sharpRaw := solidTiles quadrantCorpus in
  let pattern := [["red.png"; "green.png"]; ["blue.png"; "white.png"]]%string in
  let out := generateZoomedMosaicFromPattern sharpRaw pattern 2 2 2 4 4 freshRun in
  exists (image : Raster) (crop : option Crop),
    fst out = Ok (image, crop) /\
    let x := 3 / 2 in
    let y := 1 / 2 in
    let tileBuffer :=
      match sharpRaw (sharpCalls freshRun + Z.to_nat (y * 2 + x))%nat
              (patternAt pattern y x) 2 with
      | Ok buf => buf
      | Throw _ => repeat 128 (Z.to_nat (2 * 2 * 3))
      end in
    let srcOffset := Z.to_nat (((1 mod 2) * 2 + 3 mod 2) * 3) in
    rasterData image !! (Z.to_nat ((1 * rasterWidth image + 3) * 3) + 1)%nat
    = Some (default 0 (tileBuffer !! (srcOffset + 1)%nat)) /\
    rasterData image !! (Z.to_nat ((1 * rasterWidth image + 3) * 3) + 1)%nat
    = Some 255.
Proof.
  eexists _, _. split; [vm_compute; reflexivity|].
  split; [|vm_compute; reflexivity].
  refine (zoom_raster_pixels (solidTiles quadrantCorpus)
            [["red.png"; "green.png"]; ["blue.png"; "white.png"]]%string
            2 2 2 4 4 freshRun _ _ 3 1 1%nat _ _ _ _ _);
    [lia|lia|lia|lia|vm_compute; reflexivity].
Defined.

(** ** The order of the frames in the video *)

Lemma ascii_compare_refl (c : ascii) : Ascii.compare c c = Eq.
Proof. unfold Ascii.compare. apply N.compare_refl. Qed.

Lemma string_compare_refl (s : string) : String.compare s s = Eq.
Proof.
  induction s as [|c s IH]; [reflexivity|].
  simpl. rewrite ascii_compare_refl. exact IH.
Qed.

Lemma string_compare_trans (s1 : string) :
  forall (s2 s3 : string) (c : comparison),
    String.compare s1 s2 = c -> String.compare s2 s3 = c ->
    String.compare s1 s3 = c.
Proof.
  induction s1 as [|c1 s1 IH]; intros [|c2 s2] [|c3 s3] c H12 H23;
    simpl in *; try congruence.
  unfold Ascii.compare in *.
  destruct (N.compare_spec (N_of_ascii c1) (N_of_ascii c2)) as [E12|L12|G12];
    destruct (N.compare_spec (N_of_ascii c2) (N_of_ascii c3)) as [E23|L23|G23];
    try congruence.
  - rewrite E12, E23, N.compare_refl. eapply IH; eassumption.
  - rewrite E12. rewrite (proj2 (N.compare_lt_iff _ _) L23). congruence.
  - rewrite E12. rewrite (proj2 (N.compare_gt_iff _ _) G23). congruence.
  - rewrite <- E23. rewrite (proj2 (N.compare_lt_iff _ _) L12). congruence.
  - rewrite (proj2 (N.compare_lt_iff _ _) (N.lt_trans _ _ _ L12 L23)). congruence.
  - rewrite <- E23. rewrite (proj2 (N.compare_gt_iff _ _) G12). congruence.
  - rewrite (proj2 (N.compare_gt_iff _ _) (N.lt_trans _ _ _ G23 G12)). congruence.
Qed.

Lemma codeUnitLe_trans (s1 s2 s3 : string) :
  codeUnitLe s1 s2 -> codeUnitLe s2 s3 -> codeUnitLe s1 s3.
Proof.
  unfold codeUnitLe, String.leb. intros H12 H23.
  destruct (String.compare s1 s2) eqn:E12; try discriminate;
    destruct (String.compare s2 s3) eqn:E23; try discriminate.
  - rewrite (string_compare_trans _ _ _ _ E12 E23). reflexivity.
  - apply String.compare_eq_iff in E12. subst s2. rewrite E23. reflexivity.
  - apply String.compare_eq_iff in E23. subst s3. rewrite E12. reflexivity.
  - rewrite (string_compare_trans _ _ _ _ E12 E23). reflexivity.
Qed.

#[local] Instance codeUnitLe_transitive : Transitive codeUnitLe := codeUnitLe_trans.

#[local] Instance codeUnitLe_total : Total codeUnitLe := String.leb_total.

#[local] Instance codeUnitLe_antisymm : AntiSymm (=) codeUnitLe := String.leb_antisym.

Lemma string_compare_app_l (p x y : string) :
  String.compare (p ++ x) (p ++ y) = String.compare x y.
Proof.
  induction p as [|c p IH]; [reflexivity|].
  change (String.compare (String c (p ++ x)) (String c (p ++ y))
          = String.compare x y).
  simpl. rewrite ascii_compare_refl. exact IH.
Qed.

Lemma string_compare_app_r (a : string) :
  forall (b e : string),
    String.length a = String.length b ->
    String.compare (a ++ e) (b ++ e) = String.compare a b.
Proof.
  induction a as [|c a IH]; intros [|d b] e Hlen; try discriminate.
  - apply string_compare_refl.
  - change (String.compare (String c (a ++ e)) (String d (b ++ e))
            = String.compare (String c a) (String d b)).
    simpl. destruct (Ascii.compare c d); [|reflexivity|reflexivity].
    apply IH. simpl in Hlen. congruence.
Qed.

(** Frame numbers up to 9999 are padded to four digits, and consecutive
    ones are in order as strings. *)
Lemma padded_frames_table :
  forallb
    (fun n =>
       (String.length (padStart 4 (numToString (Int n))) =? 4)%nat
       && match String.compare (padStart 4 (numToString (Int n)))
                  (padStart 4 (numToString (Int (n + 1)))) with
          | Lt => true
          | _ => n =? 9999
          end)
    (upto 10000) = true.
Proof. vm_compute. reflexivity. Qed.

Lemma padded_frame (n : Z) :
  0 <= n <= 9999 ->
  String.length (padStart 4 (numToString (Int n))) = 4%nat /\
  (n < 9999 ->
   String.compare (padStart 4 (numToString (Int n)))
     (padStart 4 (numToString (Int (n + 1)))) = Lt).
Proof.
  intros Hn. pose proof padded_frames_table as Htable.
  rewrite forallb_forall in Htable.
  specialize (Htable n ltac:(apply In_upto; lia)).
  apply andb_true_iff in Htable as [Hlen Hnext]. split.
  - apply Nat.eqb_eq, Hlen.
  - intros Hlt.
    destruct (String.compare _ _); [|reflexivity|]; apply Z.eqb_eq in Hnext; lia.
Qed.

Lemma padded_frames_ordered (m : Z) (d : nat) :
  0 <= m -> m + Z.of_nat (S d) <= 9999 ->
  String.compare (padStart 4 (numToString (Int m)))
    (padStart 4 (numToString (Int (m + Z.of_nat (S d))))) = Lt.
Proof.
  intros Hm. induction d as [|d IH]; intros Hn.
  - apply padded_frame; lia.
  - eapply string_compare_trans; [apply IH; lia|].
    replace (m + Z.of_nat (S (S d))) with (m + Z.of_nat (S d) + 1) by lia.
    apply padded_frame; lia.
Qed.

Lemma framePath_ordered (name extension : string) (m n : Z) :
  0 <= m <= n -> n <= 9999 ->
  codeUnitLe (framePath name extension m) (framePath name extension n).
Proof.
  intros Hm Hn. unfold codeUnitLe, String.leb, framePath.
  rewrite !string_compare_app_l.
  rewrite string_compare_app_r
    by (rewrite (proj1 (padded_frame m ltac:(lia))),
          (proj1 (padded_frame n ltac:(lia))); reflexivity).
  destruct (Z.eq_dec m n) as [->|Hne].
  - rewrite string_compare_refl. reflexivity.
  - replace n with (m + Z.of_nat (S (Z.to_nat (n - m - 1)))) by lia.
    rewrite padded_frames_ordered by lia. reflexivity.
Qed.

Lemma StronglySorted_map_upto {A : Type} (R : relation A) (f : Z -> A) (n : Z) :
  (forall i j : Z, 0 <= i <= j -> j < n -> R (f i) (f j)) ->
  StronglySorted R (map f (upto n)).
Proof.
  intros Hf. unfold upto. rewrite map_map.
  assert (H : forall (len start : nat),
             (start + len <= Z.to_nat n)%nat ->
             StronglySorted R (map (fun k => f (Z.of_nat k)) (seq start len))).
  { induction len as [|len IH]; intros start Hlen; [constructor|].
    cbn [seq map]. constructor; [apply IH; lia|].
    apply List.Forall_forall. intros y Hy. apply in_map_iff in Hy as (k & <- & Hk).
    apply in_seq in Hk. apply Hf; lia. }
  apply H. lia.
Qed.

Lemma frameNames_sorted (name extension : string) (first count : Z) :
  0 <= first -> first + count <= 10000 ->
  StronglySorted codeUnitLe (frameNames name extension first count).
Proof.
  intros Hfirst Hcount. unfold frameNames. apply StronglySorted_map_upto.
  intros i j Hi Hj. apply framePath_ordered; lia.
Qed.

Lemma frameNames_app (name extension : string) (first a c : Z) :
  0 <= a -> 0 <= c ->
  frameNames name extension first (a + c)
  = frameNames name extension first a ++ frameNames name extension (first + a) c.
Proof.
  intros Ha Hc. unfold frameNames. rewrite (upto_app_plain a c Ha Hc).
  rewrite map_app, map_map. f_equal. apply map_ext. intros j. f_equal. lia.
Qed.

Lemma frameNames_one (name extension : string) (first : Z) :
  frameNames name extension first 1 = [framePath name extension first].
Proof.
  unfold frameNames. change (upto 1) with [0]. cbn [map].
  rewrite Z.add_0_r. reflexivity.
Qed.

Lemma In_frameNames (name extension : string) (first count : Z) (file : string) :
  In file (frameNames name extension first count)
  <-> exists n : Z, first <= n < first + count /\ file = framePath name extension n.
Proof.
  unfold frameNames. rewrite in_map_iff. split.
  - intros (j & <- & Hj). apply In_upto in Hj. exists (first + j). split; [lia|reflexivity].
  - intros (n & Hn & ->). exists (n - first). split; [f_equal; lia|].
    apply In_upto. lia.
Qed.

(** Frame 10000 has five digits: as a string it comes after frame 1000 and
    before frame 1001. *)
Lemma frame_10000_place (name extension : string) :
  extension = EmptyString \/ (exists rest : string, extension = String "." rest) ->
  codeUnitLe (framePath name extension 1000) (framePath name extension 10000) /\
  codeUnitLe (framePath name extension 10000) (framePath name extension 1001).
Proof.
  intros Hext. unfold codeUnitLe, String.leb, framePath.
  rewrite !string_compare_app_l.
  change (padStart 4 (numToString (Int 1000))) with "1000"%string.
  change (padStart 4 (numToString (Int 10000))) with "10000"%string.
  change (padStart 4 (numToString (Int 1001))) with "1001"%string.
  split; [|reflexivity].
  destruct Hext as [->|(rest & ->)]; reflexivity.
Qed.

Section VideoOrder.

Variable path_extname : string -> string.
Variable toLowerCase : string -> string.

Lemma getImageFiles_sorted_input (files expected : list string) :
  (forall file : string,
     In file expected -> MakeVideo.supported path_extname toLowerCase file = true) ->
  Permutation files expected ->
  StronglySorted codeUnitLe expected ->
  MakeVideo.getImageFiles path_extname toLowerCase files = expected.
Proof.
  intros Hsupported Hperm Hsorted. unfold MakeVideo.getImageFiles.
  apply (StronglySorted_unique codeUnitLe).
  - apply StronglySorted_merge_sort; apply _.
  - exact Hsorted.
  - rewrite merge_sort_Permutation.
    rewrite <- Hperm.
    assert (Hall : forall file, In file files ->
                     MakeVideo.supported path_extname toLowerCase file = true).
    { intros file Hin. apply Hsupported.
      eapply Permutation_in; [exact Hperm|exact Hin]. }
    clear -Hall. induction files as [|file files IH]; [reflexivity|].
    simpl. rewrite (Hall file (or_introl eq_refl)).
    constructor. apply IH. intros f Hf. apply Hall. right. exact Hf.
Qed.

(** X22: When the directory given to makeVideo holds the frames 1 to N of a
    zoom sequence (names <name>_<number padded to 4 digits><extension>, a
    supported extension), in whatever order readdirSync lists them, and N <=
    9999, then getImageFiles returns them in the order of their frame numbers,
    and createVideo copies frame k to frame_<k padded to 6 digits>.png: the
    video shows the frames in the order they were generated. *)
Theorem video_plays_frames_in_order (name extension : string) (count : Z)
  (files : list string) :
  0 <= count <= 9999 ->
  (forall n : Z,
     1 <= n <= count ->
     MakeVideo.supported path_extname toLowerCase (framePath name extension n)
     = true) ->
  Permutation files (frameNames name extension 1 count) ->
  MakeVideo.getImageFiles path_extname toLowerCase files
  = frameNames name extension 1 count /\
  MakeVideo.sequenceFiles (MakeVideo.getImageFiles path_extname toLowerCase files)
  = map (fun j =>
           (framePath name extension (1 + j),
            ("frame_" ++ padStart 6 (numToString (Int (1 + j))) ++ ".png")%string))
      (upto count).
Proof.
  intros Hcount Hsupported Hperm.
  assert (Hfiles : MakeVideo.getImageFiles path_extname toLowerCase files
                   = frameNames name extension 1 count).
  { apply getImageFiles_sorted_input; [|exact Hperm|apply frameNames_sorted; lia].
    intros file Hin. unfold frameNames in Hin.
    apply in_map_iff in Hin as (j & <- & Hj). apply In_upto in Hj.
    apply Hsupported. lia. }
  split; [exact Hfiles|]. rewrite Hfiles.
  unfold MakeVideo.sequenceFiles, frameNames, upto.
  rewrite !map_map.
  assert (H : forall (len start : nat),
             imap (fun index file =>
                     (file,
                      ("frame_"
                       ++ padStart 6 (numToString (Int (Z.of_nat (start + index) + 1)))
                       ++ ".png")%string))
               (map (fun k => framePath name extension (1 + Z.of_nat k))
                  (seq start len))
             = map (fun k =>
                      (framePath name extension (1 + Z.of_nat k),
                       ("frame_" ++ padStart 6 (numToString (Int (1 + Z.of_nat k)))
                        ++ ".png")%string))
                 (seq start len)).
  { induction len as [|len IH]; intros start; [reflexivity|].
    cbn [seq map imap]. f_equal.
    - rewrite Nat.add_0_r, (Z.add_comm (Z.of_nat start) 1). reflexivity.
    - rewrite <- (IH (S start)).
      apply imap_ext. intros index file _. cbn [compose].
      replace (S start + index)%nat with (start + S index)%nat by lia.
      reflexivity. }
  exact (H (Z.to_nat count) 0%nat).
Qed.

(** X23: With the 10000 frames 1 to 10000 of a zoom sequence in the directory
    (extension empty or starting with a dot, and supported), getImageFiles of
    makeVideo returns frame 10000 between frame 1000 and frame 1001: padding
    to 4 digits keeps the alphabetical sort in frame order only up to frame
    9999. *)
Theorem video_misplaces_frame_10000 (name extension : string)
  (files : list string) :
  extension = EmptyString \/ (exists rest : string, extension = String "." rest) ->
  (forall n : Z,
     1 <= n <= 10000 ->
     MakeVideo.supported path_extname toLowerCase (framePath name extension n)
     = true) ->
  Permutation files (frameNames name extension 1 10000) ->
  MakeVideo.getImageFiles path_extname toLowerCase files
  = frameNames name extension 1 1000
    ++ [framePath name extension 10000]
    ++ frameNames name extension 1001 8999.
Proof.
  intros Hext Hsupported Hperm.
  destruct (frame_10000_place name extension Hext) as [Hafter Hbefore].
  assert (Hsplit : frameNames name extension 1 10000
                   = frameNames name extension 1 1000
                     ++ frameNames name extension 1001 8999
                     ++ [framePath name extension 10000]).
  { change (frameNames name extension 1 10000)
      with (frameNames name extension 1 (1000 + 9000)).
    rewrite (frameNames_app name extension 1 1000 9000) by lia.
    change (frameNames name extension (1 + 1000) 9000)
      with (frameNames name extension (1 + 1000) (8999 + 1)).
    rewrite (frameNames_app name extension (1 + 1000) 8999 1) by lia.
    change (1 + 1000) with 1001. change (1001 + 8999) with 10000.
    rewrite frameNames_one. reflexivity. }
  apply getImageFiles_sorted_input.
  - intros file Hin.
    rewrite !in_app_iff, !In_frameNames in Hin.
    destruct Hin as [(n & Hn & ->)|[[<-|[]]|(n & Hn & ->)]];
      apply Hsupported; lia.
  - rewrite Hperm, Hsplit. apply Permutation_app_head, Permutation_app_comm.
  - apply StronglySorted_app_2; [|apply frameNames_sorted; lia|].
    + intros f1 f2 Hf1 Hf2.
      apply list_elem_of_In, In_frameNames in Hf1 as (m & Hm & ->).
      apply codeUnitLe_trans with (framePath name extension 1000);
        [apply framePath_ordered; lia|].
      apply list_elem_of_In in Hf2. destruct Hf2 as [<-|Hf2]; [exact Hafter|].
      apply In_frameNames in Hf2 as (n & Hn & ->).
      apply codeUnitLe_trans with (framePath name extension 10000); [exact Hafter|].
      apply codeUnitLe_trans with (framePath name extension 1001); [exact Hbefore|].
      apply framePath_ordered; lia.
    + apply StronglySorted_cons. split; [|apply frameNames_sorted; lia].
      apply List.Forall_forall. intros f2 Hf2.
      apply In_frameNames in Hf2 as (n & Hn & ->).
      apply codeUnitLe_trans with (framePath name extension 1001); [exact Hbefore|].
      apply framePath_ordered; lia.
Qed.

End VideoOrder.

Lemma fromLastDot_png (s : string) :
  fromLastDot (s ++ ".png") = Some ".png"%string.
Proof.
  induction s as [|c s IH]; [reflexivity|].
  change (fromLastDot (String c (s ++ ".png")) = Some ".png"%string).
  cbn [fromLastDot]. rewrite IH. reflexivity.
Qed.

Lemma string_app_assoc (s1 s2 s3 : string) :
  (s1 ++ (s2 ++ s3) = (s1 ++ s2) ++ s3)%string.
Proof.
  induction s1 as [|c s1 IH]; [reflexivity|].
  change (String c (s1 ++ (s2 ++ s3)) = String c ((s1 ++ s2) ++ s3))%string.
  rewrite IH. reflexivity.
Qed.

Lemma png_frames_supported (name : string) (n : Z) :
  MakeVideo.supported lastDotExtname id (framePath name ".png" n) = true.
Proof.
  unfold MakeVideo.supported, lastDotExtname, framePath. cbv zeta.
  rewrite !string_app_assoc, fromLastDot_png. reflexivity.
Qed.

Lemma video_plays_frames_in_order_witness :
  let files := rev (frameNames "zoom" ".png" 1 12) in
  MakeVideo.getImageFiles lastDotExtname id files = frameNames "zoom" ".png" 1 12 /\
  MakeVideo.sequenceFiles (MakeVideo.getImageFiles lastDotExtname id files)
  = map (fun j =>
           (framePath "zoom" ".png" (1 + j),
            ("frame_" ++ padStart 6 (numToString (Int (1 + j))) ++ ".png")%string))
      (upto 12).
Proof.
  apply (video_plays_frames_in_order lastDotExtname id "zoom" ".png" 12
           (rev (frameNames "zoom" ".png" 1 12))).
  - lia.
  - intros n Hn. apply png_frames_supported.
  - symmetry. apply Permutation_rev.
Defined.

Lemma video_misplaces_frame_10000_witness :
  let files := rev (frameNames "zoom" ".png" 1 10000) in
  MakeVideo.getImageFiles lastDotExtname id files
  = frameNames "zoom" ".png" 1 1000
    ++ [framePath "zoom" ".png" 10000]
    ++ frameNames "zoom" ".png" 1001 8999.
Proof.
  apply (video_misplaces_frame_10000 lastDotExtname id "zoom" ".png"
           (rev (frameNames "zoom" ".png" 1 10000))).
  - right. exists "png"%string. reflexivity.
  - intros n Hn. apply png_frames_supported.
  - symmetry. apply Permutation_rev.
Defined.

(** ** Zoom tile sizes along the steps *)

Lemma Math_round_le (p q : Q) : (p <= q)%Q -> Math_round p <= Math_round q.
Proof.
  intros H. unfold Math_round. apply Qfloor_resp_le.
  apply Qplus_le_compat; [exact H|apply Qle_refl].
Qed.

Lemma Math_round_inject (a : Z) : Math_round (inject_Z a) = a.
Proof.
  unfold Math_round.
  pose proof (Qfloor_le (inject_Z a + (1 # 2))) as Hle.
  pose proof (Qlt_floor (inject_Z a + (1 # 2))) as Hlt.
  set (f := Qfloor (inject_Z a + (1 # 2))) in *. clearbody f.
  unfold Qle, Qlt, Qplus, inject_Z in *. simpl in *. lia.
Qed.

(** X24: With 0 < zoomFactor <= 1 and a base tile size >= 0
    (mosaicOptions.tileSize, or the default when that is missing or 0), the
    tile size generateInfiniteZoomMosaic computes for a zoom step,
    Math.round(baseTileSize * (1 / zoomFactor) ^ zoomStep), never decreases
    from one zoom step to a later one, equals the base tile size at step 0,
    and is at least the base tile size at every step >= 0: tiles only get
    larger while zooming. *)
Theorem zoom_tile_sizes_grow (tileSizeOption : option Z) (z : Q) (k k' : Z) :
  (0 < z)%Q -> (z <= 1)%Q ->
  0 <= orElse tileSizeOption defaultTileSize ->
  k <= k' ->
  zoomTileSizeAt tileSizeOption z k <= zoomTileSizeAt tileSizeOption z k' /\
  zoomTileSizeAt tileSizeOption z 0 = orElse tileSizeOption defaultTileSize /\
  (0 <= k -> orElse tileSizeOption defaultTileSize <= zoomTileSizeAt tileSizeOption z k).
Proof.
  intros Hz0 Hz1 Hbase Hk. unfold zoomTileSizeAt, Math_pow. cbv zeta.
  set (base := orElse tileSizeOption defaultTileSize) in *.
  assert (Hinv : (1 <= 1 / z)%Q).
  { apply Qle_shift_div_l; [exact Hz0|]. rewrite Qmult_1_l. exact Hz1. }
  assert (Hmono : forall a c : Z,
             a <= c ->
             Math_round (inject_Z base * (1 / z) ^ a)
             <= Math_round (inject_Z base * (1 / z) ^ c)).
  { intros a c Hac. apply Math_round_le.
    rewrite !(Qmult_comm (inject_Z base)). apply Qmult_le_compat_r.
    - apply Qpower_le_compat_l; assumption.
    - change 0%Q with (inject_Z 0). rewrite <- Zle_Qle. exact Hbase. }
  assert (Hzero : Math_round (inject_Z base * (1 / z) ^ 0) = base).
  { rewrite <- (Math_round_inject base) at 2. unfold Math_round.
    apply Qfloor_comp. apply Qplus_comp; [|reflexivity].
    change ((1 / z) ^ 0)%Q with 1%Q. apply Qmult_1_r. }
  split; [apply Hmono, Hk|]. split; [exact Hzero|].
  intros Hk0. rewrite <- Hzero at 1. apply Hmono, Hk0.
Qed.

Lemma zoom_tile_sizes_grow_witness :
  zoomTileSizeAt (Some 40) (9 # 10) 3 <= zoomTileSizeAt (Some 40) (9 # 10) 8 /\
  zoomTileSizeAt (Some 40) (9 # 10) 0 = orElse (Some 40) defaultTileSize /\
  (0 <= 3 -> orElse (Some 40) defaultTileSize <= zoomTileSizeAt (Some 40) (9 # 10) 3).
Proof.
  apply (zoom_tile_sizes_grow (Some 40) (9 # 10) 3 8).
  - reflexivity.
  - discriminate.
  - simpl. lia.
  - lia.
Defined.

(** ** [zoomImage] *)





(** ** A cache file with Windows line ends *)

Lemma trimEnd_white (ws : string) :
  allChars isWhiteSpace ws = true -> trimEnd ws = EmptyString.
Proof.
  induction ws as [|c ws IH]; [reflexivity|].
  cbn [allChars trimEnd]. intros H. apply andb_prop in H as [Hc Hws].
  rewrite (IH Hws), Hc. reflexivity.
Qed.

Lemma trimEnd_trailing (s ws : string) :
  allChars isWhiteSpace ws = true -> trimEnd (s ++ ws) = trimEnd s.
Proof.
  intros Hws. induction s as [|c s IH]; [apply trimEnd_white, Hws|].
  change (trimEnd (String c (s ++ ws)) = trimEnd (String c s)).
  cbn [trimEnd]. rewrite IH. reflexivity.
Qed.

Lemma trimStart_nonwhite (c : ascii) (s : string) :
  isWhiteSpace c = false -> trimStart (String c s) = String c s.
Proof. intros H. cbn [trimStart]. rewrite H. reflexivity. Qed.

Lemma plain_trim_cr (s : string) :
  s <> EmptyString -> allChars plainChar s = true ->
  trim (s ++ String (ascii_of_N 13) EmptyString) = s.
Proof.
  intros Hne Hplain. unfold trim.
  assert (Hnw : allChars (fun c => negb (isWhiteSpace c)) s = true).
  { eapply allChars_impl; [|exact Hplain]. intros c Hc. unfold plainChar in Hc.
    apply andb_prop in Hc as [Hc _]. apply andb_prop in Hc as [Hc _]. exact Hc. }
  destruct s as [|c s]; [congruence|].
  change (String c s ++ String (ascii_of_N 13) EmptyString)%string
    with (String c (s ++ String (ascii_of_N 13) EmptyString)).
  rewrite trimStart_nonwhite.
  - change (String c (s ++ String (ascii_of_N 13) EmptyString))
      with (String c s ++ String (ascii_of_N 13) EmptyString)%string.
    rewrite trimEnd_trailing by reflexivity. apply trimEnd_plain, Hnw.
  - cbn [allChars] in Hnw. apply andb_prop in Hnw as [Hc _].
    apply negb_true_iff, Hc.
Qed.

Lemma parseCsvLine_cr (t : TileRecord) :
  cacheRecord t ->
  parseCsvLine (csvLine t ++ String (ascii_of_N 13) EmptyString) = Some t.
Proof.
  intros ((Hne & Hcomma & _ & Htrim) & _). unfold parseCsvLine.
  set (cr := String (ascii_of_N 13) EmptyString).
  assert (Hline : (csvLine t ++ cr)%string
                  = join (String comma EmptyString)
                      [path t; numToString (r t); numToString (g t);
                       (numToString (b t) ++ cr)%string]).
  { unfold csvLine. cbn [join].
    change (String comma EmptyString) with ","%string.
    rewrite <- !string_app_assoc. reflexivity. }
  rewrite Hline, split_join; [|discriminate|].
  - destruct t as [p [cr0 cg cb]]. simpl in *.
    pose proof (numToString_nonempty cr0) as Hr.
    pose proof (numToString_nonempty cg) as Hg.
    pose proof (numToString_nonempty cb) as Hb.
    destruct p as [|pc prest]; [congruence|].
    destruct (numToString cr0) as [|c1 s1] eqn:Er; [congruence|].
    destruct (numToString cg) as [|c2 s2] eqn:Eg; [congruence|].
    destruct (numToString cb) as [|c3 s3] eqn:Eb; [congruence|].
    change (String c3 s3 ++ cr)%string with (String c3 (s3 ++ cr)).
    cbv beta iota.
    change (String c3 (s3 ++ cr)) with (String c3 s3 ++ cr)%string.
    rewrite Htrim, <- Er, <- Eg, <- Eb.
    rewrite !plain_trim by apply numToString_plain.
    unfold cr. rewrite plain_trim_cr by (apply numToString_nonempty || apply numToString_plain).
    rewrite !parseInt_numToString. reflexivity.
  - repeat constructor; try exact Hcomma;
      try (apply plain_no_comma, numToString_plain).
    rewrite hasChar_app, (plain_no_comma _ (numToString_plain (b t))). reflexivity.
Qed.

Lemma split_crlf (line next : string) (rest : list string) :
  hasChar newline line = false ->
  split newline (join crlf (line :: next :: rest))
  = (line ++ String (ascii_of_N 13) EmptyString)%string
    :: split newline (join crlf (next :: rest)).
Proof.
  intros Hline.
  change (join crlf (line :: next :: rest))
    with (line ++ (crlf ++ join crlf (next :: rest)))%string.
  unfold crlf at 1.
  change (String (ascii_of_N 13) (String newline EmptyString)
          ++ join crlf (next :: rest))%string
    with (String (ascii_of_N 13) EmptyString
          ++ String newline (join crlf (next :: rest)))%string.
  rewrite string_app_assoc. apply split_app.
  rewrite hasChar_app, Hline. reflexivity.
Qed.

Lemma parse_crlf_lines (tiles : list TileRecord) :
  Forall cacheRecord tiles -> tiles <> [] ->
  omap parseCsvLine (split newline (join crlf (map csvLine tiles))) = tiles.
Proof.
  induction 1 as [|t tiles Ht Hall IH]; intros Hne; [congruence|].
  destruct tiles as [|t' tiles].
  - cbn [map join]. rewrite split_plain by (apply csvLine_no_newline, Ht).
    cbn [omap list_omap]. rewrite (parseCsvLine_csvLine t Ht). reflexivity.
  - cbn [map]. rewrite split_crlf by (apply csvLine_no_newline, Ht).
    cbn [omap list_omap]. rewrite (parseCsvLine_cr t Ht). f_equal.
    apply IH. discriminate.
Qed.

(** X26: A tile cache whose lines end in CR LF instead of LF (the header line
    and one line per tile, as saveTileCacheToCSV formats them), followed by
    any white space, is read back by loadTileCacheFromCSV as exactly the tiles
    it was written from, for tiles whose path has no comma and no leading or
    trailing white space and whose colours are integers: the carriage returns
    are trimmed away. *)
Theorem cache_with_windows_line_ends (tiles : list TileRecord) (ending : string) :
  Forall cacheRecord tiles ->
  allChars isWhiteSpace ending = true ->
  parseTileCache (join crlf (csvHeader :: map csvLine tiles) ++ ending) = tiles.
Proof.
  intros Hall Hending. unfold parseTileCache.
  set (text := join crlf (csvHeader :: map csvLine tiles)).
  assert (Htrim : trim (text ++ ending) = text).
  { unfold trim.
    assert (Hstart : trimStart (text ++ ending) = (text ++ ending)%string).
    { unfold text. destruct (map csvLine tiles); reflexivity. }
    rewrite Hstart, trimEnd_trailing by exact Hending.
    assert (Hkept : keptByTrimEnd text).
    { unfold text. apply keptByTrimEnd_join; [discriminate|]. constructor.
      - unfold csvHeader. split; [discriminate|reflexivity].
      - apply Forall_map. apply List.Forall_forall. intros t _.
        apply csvLine_kept. }
    exact (proj2 Hkept). }
  rewrite Htrim. unfold text. destruct tiles as [|t tiles]; [reflexivity|].
  cbn [map]. rewrite split_crlf by reflexivity. cbn [tl].
  apply (parse_crlf_lines (t :: tiles) Hall). discriminate.
Qed.

Lemma cache_with_windows_line_ends_witness :
  parseTileCache
    (join crlf (csvHeader :: map csvLine [mkTile "a.jpg" (rgbColor 1 2 3);
                                          mkTile "b c.png" (mkColor (Int 255) NaN (Int 0))])
     ++ crlf)
  = [mkTile "a.jpg" (rgbColor 1 2 3); mkTile "b c.png" (mkColor (Int 255) NaN (Int 0))].
Proof.
  apply (cache_with_windows_line_ends
           [mkTile "a.jpg" (rgbColor 1 2 3);
            mkTile "b c.png" (mkColor (Int 255) NaN (Int 0))] crlf).
  - repeat constructor; vm_compute; try reflexivity; try discriminate;
      intros H; discriminate.
  - reflexivity.
Defined.

(** ** The raster of the base mosaic *)

Lemma iter_rows_of_calls (columns : nat) (n : nat) (run : Run) :
  Nat.iter n (Nat.iter columns oneMoreCall) run
  = {| self := self run; sharpCalls := (n * columns + sharpCalls run)%nat |}.
Proof.
  induction n as [|n IH]; [destruct run; reflexivity|].
  rewrite Nat.iter_succ, IH, iter_oneMoreCall. cbn [self sharpCalls].
  f_equal. lia.
Qed.

(** Rows of cells, each cell loaded by one call of the codec: the bytes of
    the rows put one after the other. *)
Lemma rows_of_cells (cellBody : Z -> Z -> M Run (list Z))
  (cell : Z -> Z -> Run -> list Z) (columns rows tsize : Z) (run : Run) :
  (forall (y x : Z) (s : Run), cellBody y x s = (Ok (cell y x s), oneMoreCall s)) ->
  exists rowBuffers : list (list Z),
    forPush (upto rows) (fun y =>
      let* tileBuffers := forPush (upto columns) (fun x => cellBody y x) in
      ret (combineRow columns tsize tileBuffers)) run
    = (Ok rowBuffers,
       {| self := self run;
          sharpCalls := (Z.to_nat rows * Z.to_nat columns + sharpCalls run)%nat |}) /\
    forall (px py : Z) (k : nat),
      0 < tsize -> 0 <= px < columns * tsize -> 0 <= py < rows * tsize ->
      (k < 3)%nat ->
      concat rowBuffers !! (Z.to_nat ((py * (columns * tsize) + px) * 3) + k)%nat
      = Some (default 0
                (cell (py / tsize) (px / tsize)
                   {| self := self run;
                      sharpCalls :=
                        (sharpCalls run
                         + Z.to_nat (py / tsize * columns + px / tsize))%nat |}
                   !! (Z.to_nat (((py mod tsize) * tsize + px mod tsize) * 3) + k)%nat)).
Proof.
  intros Hcell.
  set (rowOf := fun (y0 : Z) (s : Run) =>
         combineRow columns tsize
           (map (fun x0 : Z => cell y0 x0 (Nat.iter (Z.to_nat x0) oneMoreCall s))
              (upto columns))).
  assert (Hrow : forall (y0 : Z) (s : Run),
             (let* tileBuffers := forPush (upto columns) (fun x => cellBody y0 x) in
              ret (combineRow columns tsize tileBuffers)) s
             = (Ok (rowOf y0 s), Nat.iter (Z.to_nat columns) oneMoreCall s)).
  { intros y0 s.
    destruct (forPush_values (cell y0) oneMoreCall (fun x => cellBody y0 x)
                (Hcell y0) (upto columns) s) as (bufs & Hrun & Hlen & Hnth).
    unfold bind. rewrite Hrun, length_upto. unfold ret. f_equal. f_equal.
    subst rowOf. cbv beta. f_equal.
    apply nth_error_ext. intros j.
    destruct (Nat.ltb_spec j (Z.to_nat columns)) as [Hj|Hj].
    - rewrite (Hnth j (Z.of_nat j)) by (apply nth_error_upto; exact Hj).
      rewrite nth_error_map, nth_error_upto by exact Hj.
      cbn [option_map]. rewrite Nat2Z.id. reflexivity.
    - rewrite (proj2 (nth_error_None _ _)) by (rewrite Hlen, length_upto; lia).
      rewrite (proj2 (nth_error_None _ _)); [reflexivity|].
      rewrite length_map, length_upto. lia. }
  destruct (forPush_values rowOf (Nat.iter (Z.to_nat columns) oneMoreCall)
              (fun y0 =>
                 let* tileBuffers := forPush (upto columns) (fun x => cellBody y0 x) in
                 ret (combineRow columns tsize tileBuffers))
              Hrow (upto rows) run) as (rowBuffers & Hrun & Hlen & Hnth).
  exists rowBuffers. split.
  { rewrite Hrun, length_upto, iter_rows_of_calls. reflexivity. }
  intros px py k Hts Hpx Hpy Hk.
  set (x := px / tsize). set (y := py / tsize).
  assert (Hcols : 0 < columns) by nia. assert (Hrows : 0 < rows) by nia.
  assert (Hx : 0 <= x < columns).
  { subst x. split; [apply Z.div_pos; lia|apply Z.div_lt_upper_bound; lia]. }
  assert (Hy : 0 <= y < rows).
  { subst y. split; [apply Z.div_pos; lia|apply Z.div_lt_upper_bound; lia]. }
  pose proof (Z.mod_pos_bound px tsize Hts) as Htx.
  pose proof (Z.mod_pos_bound py tsize Hts) as Hty.
  pose proof (Z.div_mod px tsize ltac:(lia)) as Hpx'.
  pose proof (Z.div_mod py tsize ltac:(lia)) as Hpy'.
  fold x in Hpx'. fold y in Hpy'.
  set (tx := px mod tsize) in *. set (ty := py mod tsize) in *.
  pose proof (Hnth (Z.to_nat y) y) as Hrowy.
  rewrite nth_error_upto in Hrowy by lia. rewrite Z2Nat.id in Hrowy by lia.
  specialize (Hrowy eq_refl).
  assert (Hall : Forall (fun row : list Z =>
                           length row = Z.to_nat (columns * tsize * tsize * 3))
                   rowBuffers).
  { apply List.Forall_forall. intros row Hin.
    apply In_nth_error in Hin as (j & Hj).
    assert (Hjlt : (j < Z.to_nat rows)%nat).
    { rewrite <- (length_upto rows), <- Hlen. apply nth_error_Some.
      rewrite Hj. discriminate. }
    rewrite (Hnth j (Z.of_nat j)) in Hj by (apply nth_error_upto; exact Hjlt).
    injection Hj as <-. exact (combineRow_length columns tsize _). }
  replace (Z.to_nat ((py * (columns * tsize) + px) * 3) + k)%nat
    with (Z.to_nat y * Z.to_nat (columns * tsize * tsize * 3)
          + (Z.to_nat ((ty * (columns * tsize) + (x * tsize + tx)) * 3) + k))%nat
    by nia.
  rewrite (concat_lookup_uniform _ _ Hall _ _ _ Hrowy) by nia.
  subst rowOf. cbv beta.
  rewrite combineRow_lookup by (try assumption; lia).
  f_equal. f_equal. f_equal.
  erewrite nth_error_nth.
  2:{ rewrite nth_error_map, nth_error_upto by lia. cbn [option_map].
      rewrite Z2Nat.id by lia. reflexivity. }
  f_equal. rewrite iter_rows_of_calls, iter_oneMoreCall. cbn [self sharpCalls].
  f_equal. nia.
Qed.

(** X27: When generateMosaic returns, with tile size s > 0 and a codec that
    never throws, it has stored the tile pattern it assigned in
    this.lastTilePattern, left this.corruptedTiles as it was, made exactly one
    codec call per cell of the mosaic, and every channel of the pixel at (px,
    py) of the raster is the same channel of the pixel (px mod s, py mod s) of
    the buffer the codec returned for the tile path at cell (px div s, py div
    s) of that pattern, in the call made for that cell (cells are loaded row
    by row); a byte missing from a buffer that is too short is 0. *)
Theorem generateMosaic_raster_pixels
  (sharpRaw : nat -> string -> Z -> result (list Z))
  (resizeInput : Z -> Z -> list Z) (tiles : list TileObj)
  (inputMetadata : Metadata) (options : MosaicOptions) (run run' : Run)
  (summary : MosaicResult) (image : Raster) :
  let tsize := optTileSize options in
  let w := finalMosaicWidthOf options in
  let h := finalMosaicHeightOf options inputMetadata w in
  (forall (n : nat) (tilePath : string),
     exists buf : list Z, sharpRaw n tilePath tsize = Ok buf) ->
  0 < tsize ->
  generateMosaic sharpRaw resizeInput tiles inputMetadata options run
  = (Ok (summary, image), run') ->
  exists pattern : list (list string),
    tileImages (setTileSize tsize (self run)) (allowReuse options) tiles
      (resizeInput w h) w h = Ok pattern /\
    lastTilePattern (self run') = Some pattern /\
    corruptedTiles (self run') = corruptedTiles (self run) /\
    sharpCalls run' = (Z.to_nat h * Z.to_nat w + sharpCalls run)%nat /\
    forall (px py : Z) (k : nat),
      0 <= px < w * tsize -> 0 <= py < h * tsize -> (k < 3)%nat ->
      let x := px / tsize in
      let y := py / tsize in
      let tileBuffer :=
        match sharpRaw (sharpCalls run + Z.to_nat (y * w + x))%nat
                (patternAt pattern y x) tsize with
        | Ok buf => buf
        | Throw _ => []
        end in
      let srcOffset := Z.to_nat (((py mod tsize) * tsize + px mod tsize) * 3) in
      rasterData image !! (Z.to_nat ((py * rasterWidth image + px) * 3) + k)%nat
      = Some (default 0 (tileBuffer !! (srcOffset + k)%nat)).
Proof.
  intros tsize w h Hcodec Hts H. unfold generateMosaic in H. fold tsize w h in H.
  unfold bind at 1 in H. unfold modify at 1 in H.
  destruct tiles as [|tile tiles']; [discriminate|].
  set (tiles := tile :: tiles') in *.
  unfold bind at 1 in H. unfold get at 1 in H. cbn [self] in H.
  fold (setTileSize tsize (self run)) in H.
  destruct (tileImages _ (allowReuse options) tiles _ w h) as [pattern|msg] eqn:Hpat;
    [|discriminate].
  unfold bind at 1 in H. unfold modify at 1 in H.
  unfold bind at 1 in H.
  set (cell := fun (y x : Z) (s : Run) =>
         match sharpRaw (sharpCalls s) (patternAt pattern y x) tsize with
         | Ok buf => buf
         | Throw _ => []
         end).
  match type of H with
  | context [forPush (upto h) _ ?s] =>
      destruct (rows_of_cells
                  (fun y x =>
                     compositeCell sharpRaw tiles (resizeInput w h) w tsize
                       (patternAt pattern y x) y x)
                  cell w h tsize s) as (rowBuffers & Hrun & Hpixels)
  end.
  { intros y x s. subst cell. cbv beta.
    destruct (Hcodec (sharpCalls s) (patternAt pattern y x)) as (buf & Hbuf).
    rewrite Hbuf. apply compositeCell_loaded, Hbuf. }
  cbv beta in Hrun. rewrite Hrun in H.
  unfold bind, get, ret in H. injection H as <- <- <-.
  cbn [self sharpCalls rasterData rasterWidth lastTilePattern corruptedTiles
       setTileSize] in *.
  exists pattern. split; [reflexivity|]. split; [reflexivity|].
  split; [reflexivity|]. split; [reflexivity|].
  intros px py k Hpx Hpy Hk.
  exact (Hpixels px py k Hts Hpx Hpy Hk).
Qed.

Lemma generateMosaic_raster_pixels_witness :
  let sharpRaw := fun (_ : nat) (tilePath : string) (tsize : Z) =>
    match solidTiles quadrantCorpus 0 tilePath tsize with
    | Ok buf => Ok buf
    | Throw _ => Ok []
    end in
  let out := generateMosaic sharpRaw (fun _ _ => quadrantInput)
               (allocTiles 0 quadrantCorpus) (mkMetadata 2 2) quadrantOptions
               freshRun in
  exists (summary : MosaicResult) (image : Raster) (pattern : list (list string)),
    fst out = Ok (summary, image) /\
    pattern = [["blue.png"; "white.png"]; ["green.png"; "red.png"]]%string /\
    lastTilePattern (self (snd out)) = Some pattern /\
    sharpCalls (snd out) = 4%nat /\
    (forall (px py : Z) (k : nat),
       0 <= px < 2 * 10 -> 0 <= py < 2 * 10 -> (k < 3)%nat ->
       let x := px / 10 in
       let y := py / 10 in
       let tileBuffer :=
         match sharpRaw (sharpCalls freshRun + Z.to_nat (y * 2 + x))%nat
                 (patternAt pattern y x) 10 with
         | Ok buf => buf
         | Throw _ => []
         end in
       let srcOffset := Z.to_nat (((py mod 10) * 10 + px mod 10) * 3) in
       rasterData image !! (Z.to_nat ((py * rasterWidth image + px) * 3) + k)%nat
       = Some (default 0 (tileBuffer !! (srcOffset + k)%nat))).
Proof.
  cbv zeta.
  set (codec := fun (_ : nat) (tilePath : string) (tsize : Z) =>
         match solidTiles quadrantCorpus 0 tilePath tsize with
         | Ok buf => Ok buf
         | Throw _ => Ok []
         end).
  destruct (generateMosaic codec (fun _ _ => quadrantInput)
              (allocTiles 0 quadrantCorpus) (mkMetadata 2 2) quadrantOptions
              freshRun) as [[[summary image]|message] run'] eqn:Hrun.
  2:{ vm_compute in Hrun. discriminate Hrun. }
  destruct (generateMosaic_raster_pixels codec (fun _ _ => quadrantInput)
              (allocTiles 0 quadrantCorpus) (mkMetadata 2 2) quadrantOptions
              freshRun run' summary image) as (pattern & Hpat & Hlast & _ & Hcalls & Hpx).
  - intros n tilePath. unfold codec.
    destruct (solidTiles quadrantCorpus 0 tilePath (optTileSize quadrantOptions));
      eexists; reflexivity.
  - simpl. lia.
  - exact Hrun.
  - exists summary, image, pattern. cbn [fst snd].
    split; [reflexivity|]. split.
    + vm_compute in Hpat. injection Hpat as <-. reflexivity.
    + split; [exact Hlast|]. split; [exact Hcalls|]. exact Hpx.
Defined.
